(** * Event-log storage and hybrid retrieval engine (logging plugin)

    A shallow embedding of the Python sources under [plugins/logging]
    ([hooks/log_event.py], [lib/storage.py], [lib/search.py],
    [lib/embeddings.py], [tools/repair_sessions.py]) together with the
    properties stated about them.

    Conventions of the embedding:
    - a Python [str] and the contents of a text file are a [text], the list
      of its UTF-8 bytes ([list ascii]); a byte offset is an index in it;
    - a JSON value is a [json]; Python's [dict] is insertion ordered and is
      an association list whose keys are kept distinct by [assoc_set];
      Python floats inside JSON documents are not part of the model;
    - [json.dumps(_, ensure_ascii=False)] is [dumps], [json.loads] is [loads];
    - code that can raise returns a [result]. *)

From Stdlib Require Import ZArith QArith Reals Lia Lra Ascii String.
From stdpp Require Import base option list strings gmap.

Set Default Proof Using "Type".
Set Warnings "-register-all,-clear-no-such-hyp".

Open Scope Z_scope.
Open Scope nat_scope.

(** ** Text *)

Definition text := list ascii.

Definition str (s : string) : text := list_ascii_of_string s.

Definition code (c : ascii) : N := N_of_ascii c.
Definition chr (n : N) : ascii := ascii_of_N n.

(** The double quote and the backslash. *)
Definition dq : ascii := chr 34.
Definition bs : ascii := chr 92.

(** Insertion-ordered dictionaries with text keys, as Python's [dict]. *)
Fixpoint assoc_get {V} (k : text) (d : list (text * V)) : option V :=
  match d with
  | [] => None
  | (k', v) :: d' => if decide (k' = k) then Some v else assoc_get k d'
  end.

Fixpoint assoc_set {V} (k : text) (v : V) (d : list (text * V)) : list (text * V) :=
  match d with
  | [] => [(k, v)]
  | (k', v') :: d' =>
      if decide (k' = k) then (k, v) :: d' else (k', v') :: assoc_set k v d'
  end.

(** Results of code that may raise a Python exception. *)
Inductive result (A : Type) : Type :=
| Ok (a : A)
| Raise (exn : string).
Arguments Ok {A} a.
Arguments Raise {A} exn.

(** ** JSON values *)

Inductive json : Type :=
| JNull
| JBool (b : bool)
| JNum (z : Z)
| JStr (s : text)
| JArr (items : list json)
| JObj (members : list (text * json)).

(** [k in d] *)
Definition dict_has (k : text) (d : list (text * json)) : bool :=
  match assoc_get k d with Some _ => true | None => false end.

(** [j.get(k)] for a value that is expected to be a dict. *)
Definition jget (k : string) (j : json) : option json :=
  match j with
  | JObj d => assoc_get (str k) d
  | _ => None
  end.

(** ** [json.dumps(_, ensure_ascii=False)] *)

Definition hex_digit (n : N) : ascii :=
  if (n <? 10)%N then chr (48 + n) else chr (87 + n).

(** The escape table of the encoder: the quote, the backslash and the
    control characters are escaped; everything else is copied. *)
Definition escape_char (c : ascii) : text :=
  let n := code c in
  if (n =? 34)%N then [bs; dq]
  else if (n =? 92)%N then [bs; bs]
  else if (n =? 10)%N then bs :: str "n"
  else if (n =? 13)%N then bs :: str "r"
  else if (n =? 9)%N then bs :: str "t"
  else if (n =? 8)%N then bs :: str "b"
  else if (n =? 12)%N then bs :: str "f"
  else if (n <? 32)%N then bs :: str "u00" ++ [hex_digit (n / 16); hex_digit (n mod 16)]
  else [c].

Definition escape (s : text) : text := concat (map escape_char s).

Definition quote_text (s : text) : text := dq :: escape s ++ [dq].

(** Decimal digits of a natural number, most significant first. *)
Fixpoint digits_aux (fuel : nat) (n : N) (acc : text) : text :=
  match fuel with
  | O => acc
  | S fuel' =>
      let acc' := chr (48 + n mod 10) :: acc in
      if (n / 10 =? 0)%N then acc' else digits_aux fuel' (n / 10) acc'
  end.

Definition digits (n : N) : text := digits_aux (S (N.to_nat (N.size n))) n [].

Definition int_text (z : Z) : text :=
  match z with
  | Z0 => str "0"
  | Zpos p => digits (Npos p)
  | Zneg p => str "-" ++ digits (Npos p)
  end.

(** [sep.join(parts)] *)
Fixpoint join {A} (sep : list A) (parts : list (list A)) : list A :=
  match parts with
  | [] => []
  | [p] => p
  | p :: ps => p ++ sep ++ join sep ps
  end.

Fixpoint dumps (j : json) : text :=
  match j with
  | JNull => str "null"
  | JBool true => str "true"
  | JBool false => str "false"
  | JNum z => int_text z
  | JStr s => quote_text s
  | JArr items => str "[" ++ join (str ", ") (map dumps items) ++ str "]"
  | JObj members =>
      str "{" ++
      join (str ", ")
        (map (fun kv => quote_text (fst kv) ++ str ": " ++ dumps (snd kv)) members) ++
      str "}"
  end.

(** ** [json.loads]

    The decoder is a scanner followed by a parser of the token list.  It
    accepts the JSON documents without fractional numbers: objects, arrays,
    strings with their escapes, integers and the three literals, separated
    by blanks.  Escapes that denote surrogate code points are rejected. *)

Inductive token : Type :=
| TLBrace | TRBrace | TLBrack | TRBrack | TComma | TColon
| TStr (s : text)
| TNum (z : Z)
| TTrue | TFalse | TNull.

Inductive lstate : Type :=
| LNormal
| LStr (acc : text)
| LEsc (acc : text)
| LUni (acc : text) (more : nat) (cp : N)
| LNum (neg : bool) (n : N)
| LMinus
| LLit (rest : text) (t : token).

Definition is_json_ws (c : ascii) : bool :=
  let n := code c in
  (n =? 32)%N || (n =? 9)%N || (n =? 10)%N || (n =? 13)%N.

Definition is_digit (c : ascii) : bool :=
  let n := code c in (48 <=? n)%N && (n <=? 57)%N.

Definition digit_val (c : ascii) : N := (code c - 48)%N.

Definition hex_val (c : ascii) : option N :=
  let n := code c in
  if (48 <=? n)%N && (n <=? 57)%N then Some (n - 48)%N
  else if (97 <=? n)%N && (n <=? 102)%N then Some (n - 87)%N
  else if (65 <=? n)%N && (n <=? 70)%N then Some (n - 55)%N
  else None.

(** UTF-8 bytes of a code point of the basic plane. *)
Definition utf8 (cp : N) : option text :=
  if (cp <? 128)%N then Some [chr cp]
  else if (cp <? 2048)%N then
    Some [chr (192 + cp / 64); chr (128 + cp mod 64)]
  else if (55296 <=? cp)%N && (cp <=? 57343)%N then None
  else
    Some [chr (224 + cp / 4096); chr (128 + (cp / 64) mod 64); chr (128 + cp mod 64)].

Definition signed (neg : bool) (n : N) : Z :=
  if neg then (- Z.of_N n)%Z else Z.of_N n.

(** One character read where a new token may start. *)
Definition lex_start (c : ascii) : option (list token * lstate) :=
  let n := code c in
  if is_json_ws c then Some ([], LNormal)
  else if (n =? 123)%N then Some ([TLBrace], LNormal)
  else if (n =? 125)%N then Some ([TRBrace], LNormal)
  else if (n =? 91)%N then Some ([TLBrack], LNormal)
  else if (n =? 93)%N then Some ([TRBrack], LNormal)
  else if (n =? 44)%N then Some ([TComma], LNormal)
  else if (n =? 58)%N then Some ([TColon], LNormal)
  else if (n =? 34)%N then Some ([], LStr [])
  else if (n =? 45)%N then Some ([], LMinus)
  else if (n =? 48)%N then Some ([TNum 0], LNormal)
  else if is_digit c then Some ([], LNum false (digit_val c))
  else if (n =? 116)%N then Some ([], LLit (str "rue") TTrue)
  else if (n =? 102)%N then Some ([], LLit (str "alse") TFalse)
  else if (n =? 110)%N then Some ([], LLit (str "ull") TNull)
  else None.

Definition starts_fraction (c : ascii) : bool :=
  let n := code c in (n =? 46)%N || (n =? 101)%N || (n =? 69)%N.

Definition lex_step (st : lstate) (c : ascii) : option (list token * lstate) :=
  match st with
  | LNormal => lex_start c
  | LStr acc =>
      if (code c =? 34)%N then Some ([TStr (reverse acc)], LNormal)
      else if (code c =? 92)%N then Some ([], LEsc acc)
      else if (code c <? 32)%N then None
      else Some ([], LStr (c :: acc))
  | LEsc acc =>
      let n := code c in
      if (n =? 34)%N || (n =? 92)%N || (n =? 47)%N then Some ([], LStr (c :: acc))
      else if (n =? 98)%N then Some ([], LStr (chr 8 :: acc))
      else if (n =? 102)%N then Some ([], LStr (chr 12 :: acc))
      else if (n =? 110)%N then Some ([], LStr (chr 10 :: acc))
      else if (n =? 114)%N then Some ([], LStr (chr 13 :: acc))
      else if (n =? 116)%N then Some ([], LStr (chr 9 :: acc))
      else if (n =? 117)%N then Some ([], LUni acc 3 0%N)
      else None
  | LUni acc more cp =>
      match hex_val c with
      | None => None
      | Some h =>
          let cp' := (16 * cp + h)%N in
          match more with
          | O => match utf8 cp' with
                 | Some bytes => Some ([], LStr (reverse bytes ++ acc))
                 | None => None
                 end
          | S more' => Some ([], LUni acc more' cp')
          end
      end
  | LNum neg n =>
      if is_digit c then Some ([], LNum neg (10 * n + digit_val c)%N)
      else if starts_fraction c then None
      else match lex_start c with
           | Some (ts, st') => Some (TNum (signed neg n) :: ts, st')
           | None => None
           end
  | LMinus =>
      if (code c =? 48)%N then Some ([TNum 0], LNormal)
      else if is_digit c then Some ([], LNum true (digit_val c))
      else None
  | LLit rest t =>
      match rest with
      | [] => None
      | [c'] => if decide (c = c') then Some ([t], LNormal) else None
      | c' :: rest' => if decide (c = c') then Some ([], LLit rest' t) else None
      end
  end.

(** What the scanner still owes when the text ends. *)
Definition lex_end (st : lstate) : option (list token) :=
  match st with
  | LNormal => Some []
  | LNum neg n => Some [TNum (signed neg n)]
  | _ => None
  end.

Fixpoint lex (st : lstate) (s : text) : option (list token) :=
  match s with
  | [] => lex_end st
  | c :: r =>
      match lex_step st c with
      | None => None
      | Some (ts, st') =>
          match lex st' r with
          | None => None
          | Some ts' => Some (ts ++ ts')
          end
      end
  end.

Fixpoint parse_value (fuel : nat) (ts : list token) {struct fuel}
  : option (json * list token) :=
  match fuel with
  | O => None
  | S f =>
      match ts with
      | TNull :: r => Some (JNull, r)
      | TTrue :: r => Some (JBool true, r)
      | TFalse :: r => Some (JBool false, r)
      | TNum z :: r => Some (JNum z, r)
      | TStr s :: r => Some (JStr s, r)
      | TLBrack :: TRBrack :: r => Some (JArr [], r)
      | TLBrack :: r => parse_items f [] r
      | TLBrace :: TRBrace :: r => Some (JObj [], r)
      | TLBrace :: r => parse_members f [] r
      | _ => None
      end
  end
with parse_items (fuel : nat) (acc : list json) (ts : list token) {struct fuel}
  : option (json * list token) :=
  match fuel with
  | O => None
  | S f =>
      match parse_value f ts with
      | Some (v, TComma :: r) => parse_items f (v :: acc) r
      | Some (v, TRBrack :: r) => Some (JArr (reverse (v :: acc)), r)
      | _ => None
      end
  end
with parse_members (fuel : nat) (acc : list (text * json)) (ts : list token)
  {struct fuel} : option (json * list token) :=
  match fuel with
  | O => None
  | S f =>
      match ts with
      | TStr k :: TColon :: r =>
          match parse_value f r with
          | Some (v, TComma :: r') => parse_members f (assoc_set k v acc) r'
          | Some (v, TRBrace :: r') => Some (JObj (assoc_set k v acc), r')
          | _ => None
          end
      | _ => None
      end
  end.

(** [json.loads(s)]; [None] stands for [JSONDecodeError]. *)
Definition loads (s : text) : option json :=
  match lex LNormal s with
  | None => None
  | Some ts =>
      match parse_value (S (length ts)) ts with
      | Some (v, []) => Some v
      | _ => None
      end
  end.

(** ** Python text operations *)

(** ASCII blanks removed by [str.strip()]. *)
Definition is_space (c : ascii) : bool :=
  let n := code c in
  (n =? 32)%N || ((9 <=? n)%N && (n <=? 13)%N) || ((28 <=? n)%N && (n <=? 31)%N).

Fixpoint lstrip (s : text) : text :=
  match s with
  | c :: r => if is_space c then lstrip r else s
  | [] => []
  end.

(** [s.strip()] *)
Definition strip (s : text) : text := reverse (lstrip (reverse (lstrip s))).

(** [bool(line.strip())]: the line has a character that is not a blank. *)
Definition nonblank (s : text) : bool :=
  match lstrip s with [] => false | _ :: _ => true end.

Definition nl : ascii := chr 10.

(** [s.split("\n")]: always at least one piece. *)
Fixpoint split_nl (s : text) : list text :=
  match s with
  | [] => [[]]
  | c :: r =>
      if decide (c = nl) then [] :: split_nl r
      else match split_nl r with
           | p :: ps => (c :: p) :: ps
           | [] => [[c]]
           end
  end.

(** [for line in f]: the lines of a text file read from the current
    position, each with its terminating newline, the last one possibly
    without. *)
Fixpoint file_lines (s : text) : list text :=
  match s with
  | [] => []
  | c :: r =>
      if decide (c = nl) then [nl] :: file_lines r
      else match file_lines r with
           | p :: ps => (c :: p) :: ps
           | [] => [[c]]
           end
  end.

(** [haystack.count(needle)]: occurrences found from left to right, not
    overlapping. [skip] is the number of characters still covered by the
    last occurrence. *)
Fixpoint is_prefix (p s : text) : bool :=
  match p, s with
  | [], _ => true
  | _ :: _, [] => false
  | a :: p', b :: s' => bool_decide (a = b) && is_prefix p' s'
  end.

Fixpoint count_from (skip : nat) (needle s : text) : nat :=
  match s with
  | [] => 0
  | _ :: r =>
      match skip with
      | S k => count_from k needle r
      | O =>
          if is_prefix needle s
          then S (count_from (pred (length needle)) needle r)
          else count_from 0 needle r
      end
  end.

Definition count_text (needle s : text) : nat := count_from 0 needle s.

(** * lib/search.py *)

(** A Python float is modelled in this module by the rational it denotes. *)
Record SearchResult : Type := {
  event_id : text;
  session_id : text;
  event_type : text;
  content : text;
  score : Q;
  timestamp : text;
  source : text;
  cosine_similarity : Q
}.

(** [1 / (k + rank + 1)] *)
Definition rrf_score (k rank : nat) : Q := 1 # Pos.of_nat (k + rank + 1).

(** The three dictionaries built by the two loops. *)
Record fusion_state : Type := {
  scores : list (text * Q);
  result_map : list (text * SearchResult);
  cosine_scores : list (text * Q)
}.

Definition add_score (id : text) (x : Q) (sc : list (text * Q)) : list (text * Q) :=
  assoc_set id (default 0%Q (assoc_get id sc) + x)%Q sc.

(** Body of [for rank, result in enumerate(keyword_results)], from [rank]. *)
Fixpoint keyword_loop (k rank : nat) (rs : list SearchResult) (st : fusion_state)
  : fusion_state :=
  match rs with
  | [] => st
  | r :: rs' =>
      keyword_loop k (S rank) rs'
        {| scores := add_score (event_id r) (rrf_score k rank) (scores st);
           result_map := assoc_set (event_id r) r (result_map st);
           cosine_scores := cosine_scores st |}
  end.

(** Body of [for rank, result in enumerate(semantic_results)], from [rank]. *)
Fixpoint semantic_loop (k rank : nat) (rs : list SearchResult) (st : fusion_state)
  : fusion_state :=
  match rs with
  | [] => st
  | r :: rs' =>
      semantic_loop k (S rank) rs'
        {| scores := add_score (event_id r) (rrf_score k rank) (scores st);
           result_map :=
             match assoc_get (event_id r) (result_map st) with
             | Some _ => result_map st
             | None => assoc_set (event_id r) r (result_map st)
             end;
           cosine_scores :=
             assoc_set (event_id r) (cosine_similarity r) (cosine_scores st) |}
  end.

(** [sorted(xs, key=...)]: a stable sort, smaller keys first. *)
Fixpoint insert_by {A} (key : A -> Q) (x : A) (l : list A) : list A :=
  match l with
  | [] => [x]
  | y :: l' =>
      if Qle_bool (key x) (key y) then x :: y :: l' else y :: insert_by key x l'
  end.

Definition sorted_by {A} (key : A -> Q) (l : list A) : list A :=
  foldr (insert_by key) [] l.

Definition reciprocal_rank_fusion
  (keyword_results semantic_results : list SearchResult) (k : nat)
  : list SearchResult :=
  let st0 := {| scores := []; result_map := []; cosine_scores := [] |} in
  let st := semantic_loop k 0 semantic_results
              (keyword_loop k 0 keyword_results st0) in
  let sorted_ids :=
    sorted_by (fun x => - default 0%Q (assoc_get x (scores st)))%Q
              (map fst (scores st)) in
  omap (fun id =>
          match assoc_get id (result_map st) with
          | None => None
          | Some result =>
              Some {| event_id := event_id result;
                      session_id := session_id result;
                      event_type := event_type result;
                      content := content result;
                      score := default 0%Q (assoc_get id (scores st));
                      timestamp := timestamp result;
                      source := str "hybrid";
                      cosine_similarity :=
                        default 0%Q (assoc_get id (cosine_scores st)) |}
          end) sorted_ids.

(** The 0-based positions, counted from [i], at which an event occurs in a
    result list. *)
Fixpoint ranks_from (i : nat) (id : text) (l : list SearchResult) : list nat :=
  match l with
  | [] => []
  | r :: l' =>
      if decide (event_id r = id) then i :: ranks_from (S i) id l'
      else ranks_from (S i) id l'
  end.



(** The fused score of an event in a result list. *)
Definition fused_score (id : text) (results : list SearchResult) : option Q :=
  score <$> head (filter (fun r => event_id r = id) results).

(** * hooks/log_event.py *)

(** Truth value of a JSON value in a condition. *)
Definition truthy (j : json) : bool :=
  match j with
  | JNull => false
  | JBool b => b
  | JNum z => negb (z =? 0)%Z
  | JStr s => match s with [] => false | _ => true end
  | JArr l => match l with [] => false | _ => true end
  | JObj d => match d with [] => false | _ => true end
  end.

(** [None] of Python and a missing key are both [None] here. *)
Definition truthy_opt (o : option json) : bool :=
  match o with Some j => truthy j | None => false end.

Definition is_str (s : string) (o : option json) : bool :=
  match o with
  | Some (JStr t) => bool_decide (t = str s)
  | _ => false
  end.

Definition nat_text (n : nat) : text := int_text (Z.of_nat n).

(** What the hook takes from outside in one invocation: the identifiers
    drawn from [uuid4], the clock, the functions of the Python runtime whose
    result is not computed here, and which file operations fail. *)
Record HookEnv : Type := {
  new_event_id : text;
  new_response_id : text;
  now : text;
  error_now : text;
  extract_content : text -> json -> result (option json);
  py_str : json -> text;
  generate_markdown : text -> result unit;
  b64decode : json -> result text;
  sha256_hex12 : text -> text;
  guess_extension : text -> option text;
  fails_read_session : bool;
  fails_append : bool;
  fails_write_image : bool;
  fails_rewrite_session : bool;
  fails_error_log : bool
}.

(** The files of one storage root and the transcripts outside it. *)
Record World : Type := {
  session_files : gmap text text;
  image_files : gmap text text;
  transcripts : gmap text text;
  errors_log : text
}.

Definition set_session_file (id : text) (c : text) (w : World) : World :=
  {| session_files := <[id := c]> (session_files w);
     image_files := image_files w;
     transcripts := transcripts w;
     errors_log := errors_log w |}.

Definition set_image_file (path : text) (c : text) (w : World) : World :=
  {| session_files := session_files w;
     image_files := <[path := c]> (image_files w);
     transcripts := transcripts w;
     errors_log := errors_log w |}.

(** [log_error(error, event_type)]: one line appended to [errors.log];
    a failure of the write itself is swallowed. *)
Definition log_error (env : HookEnv) (error : string) (event_type : text)
  (w : World) : World :=
  if fails_error_log env then w
  else
    {| session_files := session_files w;
       image_files := image_files w;
       transcripts := transcripts w;
       errors_log :=
         errors_log w ++ error_now env ++ str " [" ++ event_type ++
         str "] ERROR: " ++ str error ++ [nl] |}.

Definition source_marker (source : option json) : bool :=
  is_str "compact" source || is_str "clear" source.

Definition compact_text : text :=
  dq :: str "source" ++ [dq] ++ str ": " ++ [dq] ++ str "compact" ++ [dq].
Definition clear_text : text :=
  dq :: str "source" ++ [dq] ++ str ": " ++ [dq] ++ str "clear" ++ [dq].

(** [get_agent_session_num(session_path, source)]; [file] is [None] when
    the session file does not exist, [fails_read] when reading it raises. *)
Definition get_agent_session_num (fails_read : bool) (file : option text)
  (source : option json) : nat :=
  match file with
  | None => if source_marker source then 1 else 0
  | Some content =>
      if fails_read then 0
      else
        let count := count_text compact_text content + count_text clear_text content in
        if source_marker source then count + 1 else count
  end.

(** The text written by [append_events] for a list of events. *)
Definition log_text (events : list json) : text :=
  concat (map (fun e => dumps e ++ [nl]) events).

(** [append_events(session_path, events)] *)
Definition append_events (env : HookEnv) (sid : text) (events : list json)
  (w : World) : result unit * World :=
  if fails_append env then (Raise "OSError", w)
  else
    (Ok tt,
     set_session_file sid
       (default [] (session_files w !! sid) ++ log_text events) w).

(** ** Image extraction *)

Definition ALLOWED_IMAGE_TYPES : list text :=
  [str "image/jpeg"; str "image/jpg"; str "image/png"; str "image/gif";
   str "image/webp"].

(** [media_type if media_type in ALLOWED_IMAGE_TYPES else fallback]; a list
    or a dict cannot be looked up in a set. *)
Definition normalize_media_type (fallback : string) (m : option json)
  : result json :=
  match m with
  | None => Ok (JStr (str fallback))
  | Some (JStr t) =>
      if bool_decide (t ∈ ALLOWED_IMAGE_TYPES) then Ok (JStr t)
      else Ok (JStr (str fallback))
  | Some (JArr _) | Some (JObj _) => Raise "TypeError"
  | Some _ => Ok (JStr (str fallback))
  end.

(** [mimetypes.guess_extension(media_type) or fallback], [.jpe] read as [.jpg]. *)
Definition image_extension (env : HookEnv) (fallback : string) (media_type : json)
  : text :=
  let ext :=
    match media_type with
    | JStr t => default (str fallback) (guess_extension env t)
    | _ => str fallback
    end in
  if bool_decide (ext = str ".jpe") then str ".jpg" else ext.

(** The body of the [try] that decodes and stores one base64 image:
    the file is written unless a file of that name exists. *)
Definition store_image (env : HookEnv) (sid : text) (fallback_ext : string)
  (media_type : json) (data : json) (idx : nat)
  (name_of : text -> text -> text) (w : World)
  : result json * World :=
  match b64decode env data with
  | Raise e => (Raise e, w)
  | Ok image_bytes =>
      let content_hash := sha256_hex12 env image_bytes in
      let ext := image_extension env fallback_ext media_type in
      let filename := name_of content_hash ext in
      let path := str "images/" ++ sid ++ str "/" ++ filename in
      let ref :=
        JObj [(str "type", JStr (str "image"));
              (str "path", JStr path);
              (str "media_type", media_type);
              (str "size", JNum (Z.of_nat (length image_bytes)));
              (str "index", JNum (Z.of_nat idx))] in
      match image_files w !! path with
      | Some _ => (Ok ref, w)
      | None =>
          if fails_write_image env then (Raise "OSError", w)
          else (Ok ref, set_image_file path image_bytes w)
      end
  end.

(** [source.get(k, dflt)] where [source = block.get("source", {})]. *)
Definition source_of (block : list (text * json)) : result (list (text * json)) :=
  match assoc_get (str "source") block with
  | None => Ok []
  | Some (JObj s) => Ok s
  | Some _ => Raise "AttributeError"
  end.

Definition url_ref (source : list (text * json)) (url : json) (idx : nat) : json :=
  JObj [(str "type", JStr (str "image"));
        (str "url", url);
        (str "media_type",
         default (JStr (str "image/jpeg")) (assoc_get (str "media_type") source));
        (str "index", JNum (Z.of_nat idx))].

(** The loop of [extract_images_from_prompt] over the blocks from position
    [idx]: the text parts and the image references collected so far are
    threaded through. *)
Fixpoint prompt_blocks (env : HookEnv) (sid eid : text) (idx : nat)
  (blocks : list json) (text_parts : list json) (image_refs : list json)
  (w : World) : result (list json * list json) * World :=
  match blocks with
  | [] => (Ok (text_parts, image_refs), w)
  | block :: rest =>
      let continue tp ir w' := prompt_blocks env sid eid (S idx) rest tp ir w' in
      match block with
      | JObj b =>
          let block_type := default (JStr []) (assoc_get (str "type") b) in
          if is_str "text" (Some block_type) then
            continue
              (text_parts ++ [default (JStr []) (assoc_get (str "text") b)])
              image_refs w
          else if is_str "image" (Some block_type) then
            match source_of b with
            | Raise e => (Raise e, w)
            | Ok source =>
                if is_str "base64" (assoc_get (str "type") source) then
                  match normalize_media_type "image/jpeg"
                          (assoc_get (str "media_type") source) with
                  | Raise e => (Raise e, w)
                  | Ok media_type =>
                      let data := default (JStr []) (assoc_get (str "data") source) in
                      if truthy data then
                        match store_image env sid ".jpg" media_type data idx
                                (fun h ext => h ++ str "_" ++ eid ++ str "_" ++
                                              nat_text idx ++ ext) w with
                        | (Ok ref, w') => continue text_parts (image_refs ++ [ref]) w'
                        | (Raise e, w') =>
                            continue text_parts image_refs
                              (log_error env e (str "ImageExtraction") w')
                        end
                      else continue text_parts image_refs w
                  end
                else if is_str "url" (assoc_get (str "type") source) then
                  let url := default (JStr []) (assoc_get (str "url") source) in
                  if truthy url then
                    continue text_parts (image_refs ++ [url_ref source url idx]) w
                  else continue text_parts image_refs w
                else continue text_parts image_refs w
            end
          else continue text_parts image_refs w
      | other => continue (text_parts ++ [JStr (py_str env other)]) image_refs w
      end
  end.

(** ["\n".join(parts)]: every part has to be a string. *)
Fixpoint join_parts (parts : list json) : result (list text) :=
  match parts with
  | [] => Ok []
  | JStr s :: rest =>
      match join_parts rest with
      | Ok l => Ok (s :: l)
      | Raise e => Raise e
      end
  | _ :: _ => Raise "TypeError"
  end.

(** [extract_images_from_prompt(prompt, storage_path, session_id, event_id)]
    for a prompt that is a list of content blocks. *)
Definition extract_images_from_prompt (env : HookEnv) (blocks : list json)
  (sid eid : text) (w : World) : result (text * list json) * World :=
  match prompt_blocks env sid eid 0 blocks [] [] w with
  | (Raise e, w') => (Raise e, w')
  | (Ok (text_parts, image_refs), w') =>
      match join_parts text_parts with
      | Raise e => (Raise e, w')
      | Ok parts => (Ok (join [nl] parts, image_refs), w')
      end
  end.

(** ** Transcripts *)

(** The first text block of [entry["message"]["content"]]: [Ok None] when
    the loop over the blocks ends without a [return]. *)
Fixpoint first_text_block (blocks : list json) : result (option json) :=
  match blocks with
  | [] => Ok None
  | JObj b :: rest =>
      if is_str "text" (assoc_get (str "type") b)
      then Ok (Some (default (JStr []) (assoc_get (str "text") b)))
      else first_text_block rest
  | _ :: _ => Raise "AttributeError"
  end.

(** [entry.get("message", {}).get("content", [])] *)
Definition message_content (entry : list (text * json)) : result json :=
  match assoc_get (str "message") entry with
  | None => Ok (JArr [])
  | Some (JObj m) => Ok (default (JArr []) (assoc_get (str "content") m))
  | Some _ => Raise "AttributeError"
  end.

(** The loop of [get_response] over the lines, last line first; any
    exception ends it with the empty string. *)
Fixpoint scan_response (lines : list text) : json :=
  match lines with
  | [] => JStr []
  | line :: rest =>
      if nonblank line then
        match loads line with
        | Some (JObj entry) =>
            if is_str "assistant" (assoc_get (str "type") entry) then
              match message_content entry with
              | Ok (JArr blocks) =>
                  match first_text_block blocks with
                  | Ok (Some t) => t
                  | Ok None => scan_response rest
                  | Raise _ => JStr []
                  end
              | Ok (JStr []) | Ok (JObj []) => scan_response rest
              | _ => JStr []
              end
            else scan_response rest
        | _ => JStr []
        end
      else scan_response rest
  end.

(** [get_response(transcript_path)] *)
Definition get_response (transcript_path : json) (w : World) : json :=
  match transcript_path with
  | JStr p =>
      match transcripts w !! p with
      | Some c => scan_response (reverse (split_nl (strip c)))
      | None => JStr []
      end
  | _ => JStr []
  end.

(** The loop over the blocks of one user message in
    [extract_images_from_transcript]. *)
Fixpoint transcript_blocks (env : HookEnv) (sid : text) (user_msg_idx block_idx : nat)
  (blocks : list json) (images_in_msg : list json) (w : World)
  : result (list json) * World :=
  match blocks with
  | [] => (Ok images_in_msg, w)
  | block :: rest =>
      let continue im w' :=
        transcript_blocks env sid user_msg_idx (S block_idx) rest im w' in
      match block with
      | JObj b =>
          if negb (is_str "image" (assoc_get (str "type") b)) then
            continue images_in_msg w
          else
            match source_of b with
            | Raise e => (Raise e, w)
            | Ok source =>
                if is_str "base64" (assoc_get (str "type") source) then
                  let data := default (JStr []) (assoc_get (str "data") source) in
                  if negb (truthy data) then continue images_in_msg w
                  else
                    match normalize_media_type "image/png"
                            (assoc_get (str "media_type") source) with
                    | Raise e => (Raise e, w)
                    | Ok media_type =>
                        match store_image env sid ".png" media_type data block_idx
                                (fun h ext => str "user" ++ nat_text user_msg_idx ++
                                              str "_" ++ h ++ str "_" ++
                                              nat_text block_idx ++ ext) w with
                        | (Ok ref, w') => continue (images_in_msg ++ [ref]) w'
                        | (Raise e, w') =>
                            continue images_in_msg
                              (log_error env e (str "TranscriptImageExtraction") w')
                        end
                    end
                else if is_str "url" (assoc_get (str "type") source) then
                  let url := default (JStr []) (assoc_get (str "url") source) in
                  if truthy url then
                    continue (images_in_msg ++ [url_ref source url block_idx]) w
                  else continue images_in_msg w
                else continue images_in_msg w
            end
      | _ => continue images_in_msg w
      end
  end.

(** The loop over the lines of the transcript; an exception that is not
    caught inside ends it, is logged, and what was collected is returned. *)
Fixpoint transcript_lines (env : HookEnv) (sid : text) (lines : list text)
  (user_msg_idx : nat) (acc : list (nat * list json)) (w : World)
  : list (nat * list json) * World :=
  match lines with
  | [] => (acc, w)
  | line :: rest =>
      let fail e := (acc, log_error env e (str "TranscriptImageExtraction") w) in
      if negb (nonblank line) then transcript_lines env sid rest user_msg_idx acc w
      else
        match loads line with
        | None => transcript_lines env sid rest user_msg_idx acc w
        | Some (JObj entry) =>
            if negb (is_str "user" (assoc_get (str "type") entry)) then
              transcript_lines env sid rest user_msg_idx acc w
            else
              match message_content entry with
              | Raise e => fail e
              | Ok (JArr blocks) =>
                  match transcript_blocks env sid user_msg_idx 0 blocks [] w with
                  | (Raise e, w') =>
                      (acc, log_error env e (str "TranscriptImageExtraction") w')
                  | (Ok images_in_msg, w') =>
                      transcript_lines env sid rest (S user_msg_idx)
                        (match images_in_msg with
                         | [] => acc
                         | _ => acc ++ [(user_msg_idx, images_in_msg)]
                         end) w'
                  end
              | Ok _ => transcript_lines env sid rest (S user_msg_idx) acc w
              end
        | Some _ => fail "AttributeError"
        end
  end.

(** [extract_images_from_transcript(transcript_path, storage_path, session_id)] *)
Definition extract_images_from_transcript (env : HookEnv) (transcript_path : json)
  (sid : text) (w : World) : list (nat * list json) * World :=
  match transcript_path with
  | JStr p =>
      match transcripts w !! p with
      | None => ([], w)
      | Some c => transcript_lines env sid (split_nl (strip c)) 0 [] w
      end
  | _ => ([], log_error env "TypeError" (str "TranscriptImageExtraction") w)
  end.

(** ** Correlation of transcript images with logged prompts *)

(** The first loop of [update_session_with_images]: the events of the
    non-blank lines; a line that does not parse, or that is not a dict,
    raises. *)
Fixpoint read_events (lines : list text) : result (list json) :=
  match lines with
  | [] => Ok []
  | line :: rest =>
      if nonblank line then
        match loads line with
        | Some (JObj e) =>
            match read_events rest with
            | Ok es => Ok (JObj e :: es)
            | Raise x => Raise x
            end
        | Some _ => Raise "AttributeError"
        | None => Raise "JSONDecodeError"
        end
      else read_events rest
  end.

Definition is_user_prompt (e : json) : bool := is_str "UserPromptSubmit" (jget "type" e).

(** [user_prompt_indices]: positions in [events] of the UserPromptSubmit events. *)
Fixpoint user_prompt_indices_from (i : nat) (events : list json) : list nat :=
  match events with
  | [] => []
  | e :: rest =>
      if is_user_prompt e then i :: user_prompt_indices_from (S i) rest
      else user_prompt_indices_from (S i) rest
  end.

Definition has_images (e : json) : bool :=
  match jget "images" e with Some _ => true | None => false end.

Definition set_images (refs : list json) (e : json) : json :=
  match e with
  | JObj d => JObj (assoc_set (str "images") (JArr refs) d)
  | _ => e
  end.

(** The second loop: [(events, updated)] after the entries of
    [image_refs_by_msg] have been handled in order. *)
Fixpoint patch_images (indices : list nat) (refs_by_msg : list (nat * list json))
  (events : list json) (updated : bool) : list json * bool :=
  match refs_by_msg with
  | [] => (events, updated)
  | (msg_idx, image_refs) :: rest =>
      match indices !! msg_idx with
      | Some event_idx =>
          match events !! event_idx with
          | Some event =>
              if has_images event then patch_images indices rest events updated
              else patch_images indices rest
                     (<[event_idx := set_images image_refs event]> events) true
          | None => patch_images indices rest events updated
          end
      | None => patch_images indices rest events updated
      end
  end.

(** [update_session_with_images(session_path, image_refs_by_msg)] *)
Definition update_session_with_images (env : HookEnv) (sid : text)
  (refs_by_msg : list (nat * list json)) (w : World) : World :=
  match refs_by_msg, session_files w !! sid with
  | [], _ | _, None => w
  | _ :: _, Some content =>
      match read_events (split_nl (strip content)) with
      | Raise e => log_error env e (str "UpdateSessionImages") w
      | Ok events =>
          match patch_images (user_prompt_indices_from 0 events) refs_by_msg
                  events false with
          | (events', true) =>
              if fails_rewrite_session env
              then log_error env "OSError" (str "UpdateSessionImages") w
              else set_session_file sid (log_text events') w
          | (_, false) => w
          end
      end
  end.

(** ** The hook *)

Definition obj_of (j : json) : option (list (text * json)) :=
  match j with JObj d => Some d | _ => None end.

(** [f"{session_id}"] *)
Definition session_key (env : HookEnv) (session_id : json) : text :=
  match session_id with
  | JStr s => s
  | other => py_str env other
  end.

Definition markdown_events : list text :=
  [str "SessionStart"; str "UserPromptSubmit"; str "Stop"; str "SessionEnd";
   str "SubagentStop"; str "Notification"].

(** The part of [process_event] after the event has been built: the
    searchable content, the write to the log, the images of the transcript
    and the markdown report. *)
Definition finish_event (env : HookEnv) (event_type : text) (sid : text)
  (session_id : json) (agent_session_num : nat) (data : json)
  (event : list (text * json)) (w : World) : result json * World :=
  match extract_content env event_type data with
  | Raise e => (Raise e, w)
  | Ok content =>
      let event :=
        match content with
        | Some c => if truthy c then assoc_set (str "content") c event else event
        | None => event
        end in
      let transcript_path :=
        match data with
        | JObj d => assoc_get (str "transcript_path") d
        | _ => None
        end in
      let written :=
        if bool_decide (event_type = str "Stop") && truthy_opt transcript_path then
          let tp := default JNull transcript_path in
          let response := get_response tp w in
          let events_to_write :=
            if truthy response then
              [JObj event;
               JObj [(str "id", JStr (new_response_id env));
                     (str "type", JStr (str "AssistantResponse"));
                     (str "ts", JStr (now env));
                     (str "session_id", session_id);
                     (str "agent_session_num", JNum (Z.of_nat agent_session_num));
                     (str "data", JObj [(str "response", response)]);
                     (str "content", response)]]
            else [JObj event] in
          match append_events env sid events_to_write w with
          | (Raise e, w') => (Raise e, w')
          | (Ok _, w') =>
              let '(refs, w'') := extract_images_from_transcript env tp sid w' in
              (Ok tt, update_session_with_images env sid refs w'')
          end
        else append_events env sid [JObj event] w in
      match written with
      | (Raise e, w') => (Raise e, w')
      | (Ok _, w') =>
          (* the report is regenerated inside [try: ... except Exception: pass] *)
          if bool_decide (event_type ∈ markdown_events) then
            match generate_markdown env sid with
            | Ok _ => (Ok (JObj event), w')
            | Raise _ => (Ok (JObj event), w')
            end
          else (Ok (JObj event), w')
      end
  end.

(** [process_event(event_type, stdin_data)] *)
Definition process_event (env : HookEnv) (event_type : text) (stdin_data : json)
  (w : World) : result json * World :=
  match stdin_data with
  | JObj sd =>
      (* cwd = stdin_data.get("cwd") or stdin_data.get("data", {}).get("cwd") *)
      let cwd_raises :=
        if truthy_opt (assoc_get (str "cwd") sd) then false
        else match assoc_get (str "data") sd with
             | None | Some (JObj _) => false
             | Some _ => true
             end in
      if cwd_raises then (Raise "AttributeError", w)
      else
        let session_id := default (JStr (str "unknown")) (assoc_get (str "session_id") sd) in
        let sid := session_key env session_id in
        let data := default stdin_data (assoc_get (str "data") sd) in
        let source :=
          match data with
          | JObj d => assoc_get (str "source") d
          | _ => None
          end in
        let agent_session_num :=
          get_agent_session_num (fails_read_session env) (session_files w !! sid) source in
        let event :=
          [(str "id", JStr (new_event_id env));
           (str "type", JStr event_type);
           (str "ts", JStr (now env));
           (str "session_id", session_id);
           (str "agent_session_num", JNum (Z.of_nat agent_session_num));
           (str "data", data)] in
        match data with
        | JObj d =>
            match bool_decide (event_type = str "UserPromptSubmit"),
                  assoc_get (str "prompt") d with
            | true, Some (JArr blocks) =>
                match extract_images_from_prompt env blocks sid (new_event_id env) w with
                | (Raise e, w') => (Raise e, w')
                | (Ok (text_content, image_refs), w') =>
                    (* data["prompt"] = text_content changes the dict the event holds *)
                    let data' := JObj (assoc_set (str "prompt") (JStr text_content) d) in
                    let event := assoc_set (str "data") data' event in
                    let event :=
                      match image_refs with
                      | [] => event
                      | _ => assoc_set (str "images") (JArr image_refs) event
                      end in
                    finish_event env event_type sid session_id agent_session_num
                      data' event w'
                end
            | _, _ =>
                finish_event env event_type sid session_id agent_session_num data event w
            end
        | _ => finish_event env event_type sid session_id agent_session_num data event w
        end
  | _ => (Raise "AttributeError", w)
  end.

(** What the host sees of one run of the hook. *)
Record Outcome : Type := {
  exit_code : Z;
  stdout : text;
  stderr : text;
  world : World
}.

(** [main()].  [event] is the value of [-e/--event] when the command line
    is accepted; [argparse] rejects any other command line before the
    [try] is entered, printing its usage message and leaving with status 2. *)
Definition main (env : HookEnv) (usage : text) (event : option text)
  (stdin_text : text) (w : World) : Outcome :=
  match event with
  | None => {| exit_code := 2; stdout := []; stderr := usage; world := w |}
  | Some event_type =>
      match loads stdin_text with
      | None =>
          {| exit_code := 0; stdout := []; stderr := [];
             world := log_error env "JSONDecodeError" event_type w |}
      | Some stdin_data =>
          match process_event env event_type stdin_data w with
          | (Ok _, w') => {| exit_code := 0; stdout := []; stderr := []; world := w' |}
          | (Raise e, w') =>
              {| exit_code := 0; stdout := []; stderr := [];
                 world := log_error env e event_type w' |}
          end
      end
  end.

(** * lib/storage.py *)

(** ** JSONLStorage *)

(** The loop of [read_session]: the events yielded, in order, and the
    exception that ends the iteration when a line does not parse. *)
Fixpoint read_lines (lines : list text) : list json * option string :=
  match lines with
  | [] => ([], None)
  | line :: rest =>
      if nonblank line then
        match loads line with
        | None => ([], Some "JSONDecodeError"%string)
        | Some j => let '(es, x) := read_lines rest in (j :: es, x)
        end
      else read_lines rest
  end.

(** [JSONLStorage.read_session(session_id)] on the session file, [None]
    when it does not exist. *)
Definition read_session (file : option text) : list json * option string :=
  match file with
  | None => ([], None)
  | Some content => read_lines (file_lines content)
  end.

(** [JSONLStorage.get_last_position(session_id)] *)
Definition get_last_position (file : option text) : nat :=
  match file with
  | None => 0
  | Some content => length content
  end.

(** ** SQLiteStorage *)

(** A value stored in a column. *)
Inductive sqlval : Type :=
| SNull
| SInt (z : Z)
| SText (t : text).

Global Instance sqlval_eq_dec : EqDecision sqlval.
Proof. solve_decision. Defined.

(** A Python value passed as a parameter of a statement. *)
Definition bind_param (v : option json) : result sqlval :=
  match v with
  | None | Some JNull => Ok SNull
  | Some (JBool b) => Ok (SInt (if b then 1 else 0))
  | Some (JNum z) =>
      if ((- 2 ^ 63 <=? z) && (z <? 2 ^ 63))%Z then Ok (SInt z)
      else Raise "OverflowError"
  | Some (JStr t) => Ok (SText t)
  | Some (JArr _) | Some (JObj _) => Raise "ProgrammingError"
  end.

(** A column declared [TEXT] stores an integer as its decimal text. *)
Definition text_affinity (v : sqlval) : sqlval :=
  match v with
  | SInt z => SText (int_text z)
  | other => other
  end.

(** The dataclass [Event]. *)
Record Event : Type := {
  ev_id : option json;
  ev_session_id : option json;
  ev_type : option json;
  ev_ts : option json;
  ev_agent_session_num : option json;
  ev_data : json;
  ev_content : option json;
  ev_images : option json
}.

Definition Event_fields : list text :=
  [str "id"; str "session_id"; str "type"; str "ts"; str "agent_session_num";
   str "data"; str "content"; str "images"].

(** The dataclass built from the keys of a dict: the four fields without
    default are required and no other keyword is accepted; a missing or
    null [data] becomes the empty dict. *)
Definition make_Event (data : json) : result Event :=
  match data with
  | JObj d =>
      if forallb (fun kv => bool_decide (fst kv ∈ Event_fields)) d &&
         dict_has (str "id") d && dict_has (str "session_id") d &&
         dict_has (str "type") d && dict_has (str "ts") d
      then
        Ok {| ev_id := assoc_get (str "id") d;
              ev_session_id := assoc_get (str "session_id") d;
              ev_type := assoc_get (str "type") d;
              ev_ts := assoc_get (str "ts") d;
              ev_agent_session_num :=
                match assoc_get (str "agent_session_num") d with
                | None => Some (JNum 0)
                | o => o
                end;
              ev_data :=
                match assoc_get (str "data") d with
                | None | Some JNull => JObj []
                | Some j => j
                end;
              ev_content := assoc_get (str "content") d;
              ev_images := assoc_get (str "images") d |}
      else Raise "TypeError"
  | _ => Raise "TypeError"
  end.

(** A row of the table [events]; the column [data] holds the serialized
    payload and is kept here as the payload itself. *)
Record EventRow : Type := {
  row_id : sqlval;
  row_session_id : sqlval;
  row_type : sqlval;
  row_ts : sqlval;
  row_agent_session_num : sqlval;
  row_data : json;
  row_content : sqlval
}.

(** A row of the full-text table [events_fts]. *)
Record FtsRow : Type := {
  fts_event_id : sqlval;
  fts_session_id : sqlval;
  fts_type : sqlval;
  fts_content : sqlval
}.

(** The database: the tables [events], [events_fts] and [sync_state]
    (the position of each session).  The session rollups recomputed from
    [events] at the end of a sync are not part of the model. *)
Record Index : Type := {
  events : list EventRow;
  events_fts : list FtsRow;
  sync_state : gmap text nat
}.

Definition empty_index : Index :=
  {| events := []; events_fts := []; sync_state := ∅ |}.

(** [INSERT OR REPLACE INTO events]: a row with the same primary key is
    deleted before the new row is added; null keys never conflict. *)
Definition replace_row (r : EventRow) (rows : list EventRow) : list EventRow :=
  match row_id r with
  | SNull => rows ++ [r]
  | k => filter (fun r' => row_id r' ≠ k) rows ++ [r]
  end.

Definition bind4 (a b c d : option json)
  : result (sqlval * sqlval * sqlval * sqlval) :=
  match bind_param a, bind_param b, bind_param c, bind_param d with
  | Ok x, Ok y, Ok z, Ok u => Ok (x, y, z, u)
  | Raise e, _, _, _ | _, Raise e, _, _ | _, _, Raise e, _ | _, _, _, Raise e =>
      Raise e
  end.

(** [SQLiteStorage.insert_event(event)] *)
Definition insert_event (event : Event) (ix : Index) : result unit * Index :=
  match bind4 (ev_id event) (ev_session_id event) (ev_type event) (ev_ts event),
        bind_param (ev_agent_session_num event), bind_param (ev_content event) with
  | Ok (id, sid, ty, ts), Ok num, Ok content =>
      if bool_decide (sid = SNull) || bool_decide (ty = SNull) ||
         bool_decide (ts = SNull)
      then (Raise "IntegrityError", ix)
      else
        let rows :=
          replace_row {| row_id := text_affinity id;
                         row_session_id := text_affinity sid;
                         row_type := text_affinity ty;
                         row_ts := ts; row_agent_session_num := num;
                         row_data := ev_data event;
                         row_content := text_affinity content |}
                      (events ix) in
        let fts :=
          if truthy_opt (ev_content event)
          then events_fts ix ++
               [{| fts_event_id := id; fts_session_id := sid; fts_type := ty;
                   fts_content := content |}]
          else events_fts ix in
        (Ok tt, {| events := rows; events_fts := fts; sync_state := sync_state ix |})
  | Raise e, _, _ | _, Raise e, _ | _, _, Raise e => (Raise e, ix)
  end.

(** [get_sync_position] and [update_sync_position] *)
Definition get_sync_position (sid : text) (ix : Index) : nat :=
  default 0 (sync_state ix !! sid).

Definition update_sync_position (sid : text) (position : nat) (ix : Index) : Index :=
  {| events := events ix; events_fts := events_fts ix;
     sync_state := <[sid := position]> (sync_state ix) |}.

(** Number of rows of [events] of a session. *)
Definition index_event_count (sid : text) (ix : Index) : nat :=
  length (filter (fun r => row_session_id r = SText sid) (events ix)).

(** Number of events of a session log: its non-blank lines. *)
Definition log_event_count (file : option text) : nat :=
  match file with
  | None => 0
  | Some content => length (filter (fun l => nonblank l = true) (file_lines content))
  end.

(** ** StorageManager *)

(** The loop of [sync_session] over the lines read from the position:
    the number of events inserted so far is threaded through; the rows
    inserted before an exception stay. *)
Fixpoint sync_lines (lines : list text) (events_synced : nat) (ix : Index)
  : result nat * Index :=
  match lines with
  | [] => (Ok events_synced, ix)
  | line :: rest =>
      if nonblank line then
        match loads line with
        | None => (Raise "JSONDecodeError", ix)
        | Some data =>
            match make_Event data with
            | Raise e => (Raise e, ix)
            | Ok event =>
                match insert_event event ix with
                | (Raise e, ix') => (Raise e, ix')
                | (Ok _, ix') => sync_lines rest (S events_synced) ix'
                end
            end
        end
      else sync_lines rest events_synced ix
  end.

(** [StorageManager.sync_session(session_id)] *)
Definition sync_session (sid : text) (file : option text) (ix : Index)
  : result nat * Index :=
  let last_pos := get_sync_position sid ix in
  let current_pos := get_last_position file in
  if bool_decide (current_pos ≤ last_pos) then (Ok 0, ix)
  else
    match sync_lines (file_lines (drop last_pos (default [] file))) 0 ix with
    | (Raise e, ix') => (Raise e, ix')
    | (Ok n, ix') => (Ok n, update_sync_position sid current_pos ix')
    end.

(** * tools/repair_sessions.py *)

(** [events = [json.loads(line) for the non-blank lines of the file]] *)
Fixpoint parse_lines (lines : list text) : result (list json) :=
  match lines with
  | [] => Ok []
  | line :: rest =>
      if nonblank line then
        match loads line with
        | None => Raise "JSONDecodeError"
        | Some j =>
            match parse_lines rest with
            | Ok es => Ok (j :: es)
            | Raise e => Raise e
            end
        end
      else parse_lines rest
  end.

(** [a == b] on JSON values: [True == 1], and dicts compare by key. *)
Fixpoint py_eq (a b : json) {struct a} : bool :=
  match a, b with
  | JNull, JNull => true
  | JBool x, JBool y => bool_decide (x = y)
  | JBool x, JNum z | JNum z, JBool x => (z =? (if x then 1 else 0))%Z
  | JNum x, JNum y => (x =? y)%Z
  | JStr s, JStr t => bool_decide (s = t)
  | JArr l, JArr m =>
      (fix go (l m : list json) : bool :=
         match l, m with
         | [], [] => true
         | x :: l', y :: m' => py_eq x y && go l' m'
         | _, _ => false
         end) l m
  | JObj d, JObj e =>
      bool_decide (length d = length e) &&
      (fix go (d : list (text * json)) : bool :=
         match d with
         | [] => true
         | kv :: d' =>
             match assoc_get (fst kv) e with
             | Some v' => py_eq (snd kv) v'
             | None => false
             end && go d'
         end) d
  | _, _ => false
  end.

(** An entry of the list [missing]. *)
Record Gap : Type := {
  gap_index : nat;
  gap_stop_event : list (text * json);
  gap_transcript_path : text;
  gap_transcript_exists : bool
}.

(** The [while] loop of [analyze_session] from index [i]. *)
Fixpoint find_gaps (w : World) (i : nat) (evs : list json) : result (list Gap) :=
  match evs with
  | [] => Ok []
  | JObj event :: rest =>
      if is_str "Stop" (assoc_get (str "type") event) then
        match assoc_get (str "data") event with
        | Some (JObj _) | None =>
            let transcript_path :=
              match assoc_get (str "data") event with
              | Some (JObj d) => assoc_get (str "transcript_path") d
              | _ => None
              end in
            let has_response :=
              match rest with
              | [] => Ok false
              | JObj next :: _ => Ok (is_str "AssistantResponse" (assoc_get (str "type") next))
              | _ :: _ => Raise "AttributeError"
              end in
            match has_response with
            | Raise e => Raise e
            | Ok hr =>
                if negb hr && truthy_opt transcript_path then
                  match transcript_path with
                  | Some (JStr p) =>
                      match find_gaps w (S i) rest with
                      | Ok gs =>
                          Ok ({| gap_index := i; gap_stop_event := event;
                                 gap_transcript_path := p;
                                 gap_transcript_exists :=
                                   bool_decide (is_Some (transcripts w !! p)) |} :: gs)
                      | Raise e => Raise e
                      end
                  | _ => Raise "TypeError"
                  end
                else find_gaps w (S i) rest
            end
        | Some _ => Raise "AttributeError"
        end
      else find_gaps w (S i) rest
  | _ :: _ => Raise "AttributeError"
  end.

(** [analyze_session(session_path)] *)
Definition analyze_session (content : text) (w : World) : result (list Gap) :=
  match parse_lines (file_lines content) with
  | Raise e => Raise e
  | Ok evs => find_gaps w 0 evs
  end.

(** [f"{idx:04d}"] *)
Definition pad4 (n : nat) : text :=
  let d := nat_text n in replicate (4 - length d) (chr 48) ++ d.

(** [lst.insert(i, x)] *)
Definition list_insert_at {A} (i : nat) (x : A) (l : list A) : list A :=
  take i l ++ x :: drop i l.

Record RepairCounts : Type := {
  n_missing : nat;
  n_repaired : nat;
  n_failed : nat;
  n_skipped : nat
}.

(** The state of the loop [for m in reversed(missing)]. *)
Record RepairState : Type := {
  rs_events : list json;
  rs_repaired : nat;
  rs_failed : nat;
  rs_skipped : nat;
  rs_last_response : option json
}.

Definition repair_gap (w : World) (m : Gap) (st : RepairState) : result RepairState :=
  let bump_failed :=
    {| rs_events := rs_events st; rs_repaired := rs_repaired st;
       rs_failed := S (rs_failed st); rs_skipped := rs_skipped st;
       rs_last_response := rs_last_response st |} in
  if negb (gap_transcript_exists m) then Ok bump_failed
  else
    let response := get_response (JStr (gap_transcript_path m)) w in
    if negb (truthy response) then Ok bump_failed
    else if from_option (py_eq response) false (rs_last_response st) then
      Ok {| rs_events := rs_events st; rs_repaired := rs_repaired st;
            rs_failed := rs_failed st; rs_skipped := S (rs_skipped st);
            rs_last_response := rs_last_response st |}
    else
      match assoc_get (str "ts") (gap_stop_event m),
            assoc_get (str "session_id") (gap_stop_event m) with
      | Some ts, Some session_id =>
          let assistant_event :=
            JObj [(str "id", JStr (str "evt_repair_" ++ pad4 (gap_index m)));
                  (str "type", JStr (str "AssistantResponse"));
                  (str "ts", ts);
                  (str "session_id", session_id);
                  (str "agent_session_num",
                   default (JNum 0)
                     (assoc_get (str "agent_session_num") (gap_stop_event m)));
                  (str "data", JObj [(str "response", response)]);
                  (str "content", response)] in
          Ok {| rs_events :=
                  list_insert_at (S (gap_index m)) assistant_event (rs_events st);
                rs_repaired := S (rs_repaired st);
                rs_failed := rs_failed st; rs_skipped := rs_skipped st;
                rs_last_response := Some response |}
      | _, _ => Raise "KeyError"
      end.

Fixpoint repair_gaps (w : World) (gaps : list Gap) (st : RepairState)
  : result RepairState :=
  match gaps with
  | [] => Ok st
  | m :: rest =>
      match repair_gap w m st with
      | Ok st' => repair_gaps w rest st'
      | Raise e => Raise e
      end
  end.

(** [repair_session(session_path, dry_run)] on the content of an existing
    session file: the counts returned and the content of the file after. *)
Definition repair_session (content : text) (dry_run : bool) (w : World)
  : result (RepairCounts * text) :=
  match analyze_session content w with
  | Raise e => Raise e
  | Ok [] =>
      Ok ({| n_missing := 0; n_repaired := 0; n_failed := 0; n_skipped := 0 |},
          content)
  | Ok missing =>
      match parse_lines (file_lines content) with
      | Raise e => Raise e
      | Ok evs =>
          match repair_gaps w (reverse missing)
                  {| rs_events := evs; rs_repaired := 0; rs_failed := 0;
                     rs_skipped := 0; rs_last_response := None |} with
          | Raise e => Raise e
          | Ok st =>
              Ok ({| n_missing := length missing;
                     n_repaired := rs_repaired st;
                     n_failed := rs_failed st;
                     n_skipped := rs_skipped st |},
                  if negb dry_run && bool_decide (0 < rs_repaired st)
                  then log_text (rs_events st) else content)
          end
      end
  end.

(** * lib/embeddings.py *)

(** A float is the real number it denotes; [x ** 0.5] is the square root. *)
Open Scope R_scope.

(** [sum(a * b for a, b in zip(u, v))] *)
Fixpoint dot_product (u v : list R) : R :=
  match u, v with
  | a :: u', b :: v' => a * b + dot_product u' v'
  | _, _ => 0
  end.

Definition norm (u : list R) : R := sqrt (dot_product u u).

(** [dot_product / (norm1 * norm2) if norm1 and norm2 else 0.0] *)
Definition cosine (query_embedding embedding : list R) : R :=
  let norm1 := norm query_embedding in
  let norm2 := norm embedding in
  if Req_dec_T norm1 0 then 0
  else if Req_dec_T norm2 0 then 0
  else dot_product query_embedding embedding / (norm1 * norm2).

Record Metadata : Type := {
  meta_session_id : text;
  meta_event_type : text;
  meta_content : text;
  meta_timestamp : text
}.

Record Hit : Type := {
  hit_event_id : text;
  hit_score : R;
  hit_session_id : text;
  hit_event_type : text;
  hit_content : text;
  hit_timestamp : text
}.

(** [results.sort(key=lambda x: -x[1])]: stable, larger scores first. *)
Fixpoint insert_desc (x : text * R) (l : list (text * R)) : list (text * R) :=
  match l with
  | [] => [x]
  | y :: l' =>
      if Rle_dec (- snd x) (- snd y) then x :: y :: l' else y :: insert_desc x l'
  end.

Definition sort_desc (l : list (text * R)) : list (text * R) :=
  foldr insert_desc [] l.

Definition make_hit (id : text) (s : R) (m : Metadata) : Hit :=
  {| hit_event_id := id; hit_score := s;
     hit_session_id := meta_session_id m; hit_event_type := meta_event_type m;
     hit_content := meta_content m; hit_timestamp := meta_timestamp m |}.

(** The fallback branch of [EmbeddingStorage.search]: a scan of the table
    [embeddings], joined with [embedding_metadata]. *)
Definition search_brute_force (embeddings : list (text * list R))
  (metadata : gmap text Metadata) (query_embedding : list R) (limit : nat)
  : list Hit :=
  let results :=
    map (fun row => (fst row, cosine query_embedding (snd row))) embeddings in
  let results := take limit (sort_desc results) in
  omap (fun r => make_hit (fst r) (snd r) <$> metadata !! fst r) results.

(** The branch with the vector extension: the rows of the nearest-neighbour
    query, nearest first, each with the distance the extension reports. *)
Definition search_native (rows : list (text * R * Metadata)) : list Hit :=
  map (fun row => make_hit (fst (fst row)) (1 - snd (fst row)) (snd row)) rows.

Close Scope R_scope.

(** * Vocabulary of the statements *)

(** The source marker an event of the log carries: [data.get("source")]. *)
Definition event_source (e : json) : option json :=
  match jget "data" e with
  | Some (JObj d) => assoc_get (str "source") d
  | _ => None
  end.

Definition carries_marker (e : json) : bool := source_marker (event_source e).

(** Occurrences of the two marker texts in a serialized event. *)
Definition marker_texts (line : text) : nat :=
  count_text compact_text line + count_text clear_text line.

(** The serialization of the event shows a marker text once when the event
    carries a marker and never otherwise. *)
Definition marker_faithful (e : json) : Prop :=
  marker_texts (dumps e) = if carries_marker e then 1 else 0.

(** The session file holding the given events: absent before the first. *)
Definition log_file (logged : list json) : option text :=
  match logged with
  | [] => None
  | _ => Some (log_text logged)
  end.

(** The session a hook input is filed under. *)
Definition hook_session (env : HookEnv) (stdin_data : json) : text :=
  session_key env (default (JStr (str "unknown")) (jget "session_id" stdin_data)).

Definition score_of (id : text) (sc : list (text * Q)) : Q :=
  default 0%Q (assoc_get id sc).


(** Every scored identifier has its result, stored under its own name. *)
Definition fusion_inv (st : fusion_state) : Prop :=
  NoDup (map fst (scores st)) ∧
  (∀ id, id ∈ map fst (scores st) → is_Some (assoc_get id (result_map st))) ∧
  (∀ id r, assoc_get id (result_map st) = Some r → event_id r = id).

Definition empty_world : World :=
  {| session_files := ∅; image_files := ∅; transcripts := ∅; errors_log := [] |}.

(** Environments for the examples: base64 data taken as the bytes
    themselves, one fixed hash, and the faults given. *)
Definition example_env_with (eid : string) (read_fails append_fails log_fails : bool)
  : HookEnv :=
  {| new_event_id := str eid;
     new_response_id := str "evt_response";
     now := str "2025-01-01T00:00:00+00:00";
     error_now := str "2025-01-01T00:00:01+00:00";
     extract_content := fun _ _ => Ok None;
     py_str := fun _ => str "?";
     generate_markdown := fun _ => Ok tt;
     b64decode := fun j => match j with JStr s => Ok s | _ => Raise "TypeError" end;
     sha256_hex12 := fun _ => str "0123456789ab";
     guess_extension := fun _ => Some (str ".png");
     fails_read_session := read_fails;
     fails_append := append_fails;
     fails_write_image := false;
     fails_rewrite_session := false;
     fails_error_log := log_fails |}.

Definition example_env (eid : string) : HookEnv :=
  example_env_with eid false false false.

(** The event [process_event] builds in the example environment for an
    input without content. *)
Definition built_event (eid ty : string) (num : Z) (data : json) : json :=
  JObj [(str "id", JStr (str eid));
        (str "type", JStr (str ty));
        (str "ts", JStr (str "2025-01-01T00:00:00+00:00"));
        (str "session_id", JStr (str "s1"));
        (str "agent_session_num", JNum num);
        (str "data", data)].


Definition example_result (id : string) : SearchResult :=
  {| event_id := str id; session_id := str "s"; event_type := str "Stop";
     content := str "text"; score := 0; timestamp := str "t";
     source := str "keyword"; cosine_similarity := 0 |}.

(** Hook inputs of the examples: a session start with a source, and a tool
    call whose input has a field named [source]. *)
Definition session_start_input (source : string) : json :=
  JObj [(str "session_id", JStr (str "s1")); (str "source", JStr (str source))].

Definition tool_input_with_source : json :=
  JObj [(str "session_id", JStr (str "s1"));
        (str "tool_name", JStr (str "Import"));
        (str "tool_input", JObj [(str "source", JStr (str "compact"))])].

(** The event returned and the world left by one run of [process_event]
    in the example environment. *)
Definition run_hook (eid : string) (ty : string) (input : json) (w : World)
  : option json * World :=
  match process_event (example_env eid) (str ty) input w with
  | (Ok ev, w') => (Some ev, w')
  | (Raise _, w') => (None, w')
  end.

Definition agent_session_num_of (ev : option json) : option json :=
  ev ≫= jget "agent_session_num".

(** A logged event of the examples. *)
Definition example_event (id ty : string) : json :=
  JObj [(str "id", JStr (str id));
        (str "type", JStr (str ty));
        (str "ts", JStr (str "2025-01-01T00:00:00+00:00"));
        (str "session_id", JStr (str "s1"));
        (str "agent_session_num", JNum 0);
        (str "data", JObj [])].




Definition is_dict (j : json) : Prop :=
  match j with JObj _ => True | _ => False end.


Definition example_image_ref : json :=
  JObj [(str "type", JStr (str "image"));
        (str "url", JStr (str "https://example.org/a.png"));
        (str "media_type", JStr (str "image/png"));
        (str "index", JNum 1)].

Definition example_world (content : text) : World :=
  {| session_files := {[ str "s1" := content ]};
     image_files := ∅; transcripts := ∅; errors_log := [] |}.

(** A transcript whose last assistant message says [hi there], and a log
    with two Stop events of that transcript, neither followed by an
    AssistantResponse. *)
Definition example_transcript : text :=
  dumps (JObj [(str "type", JStr (str "assistant"));
               (str "message",
                JObj [(str "content",
                       JArr [JObj [(str "type", JStr (str "text"));
                                   (str "text", JStr (str "hi there"))]])])]) ++ [nl].

Definition stop_event (id : string) : json :=
  JObj [(str "id", JStr (str id));
        (str "type", JStr (str "Stop"));
        (str "ts", JStr (str "2025-01-01T00:00:00+00:00"));
        (str "session_id", JStr (str "s1"));
        (str "agent_session_num", JNum 0);
        (str "data", JObj [(str "transcript_path", JStr (str "/t/s1.jsonl"))])].

Definition transcript_world : World :=
  {| session_files := ∅; image_files := ∅;
     transcripts := {[ str "/t/s1.jsonl" := example_transcript ]};
     errors_log := [] |}.

Definition two_stops_log : text := log_text [stop_event "evt_1"; stop_event "evt_2"].

(** The content of the file after a repair that returned. *)
Definition repaired_log (r : result (RepairCounts * text)) : text :=
  match r with Ok (_, c) => c | Raise _ => [] end.

Definition repaired_count (r : result (RepairCounts * text)) : option nat :=
  match r with Ok (c, _) => Some (n_repaired c) | Raise _ => None end.

(** An image block with inline base64 data. *)
Definition base64_image_block (media_type : string) (data : json) : json :=
  JObj [(str "type", JStr (str "image"));
        (str "source",
         JObj [(str "type", JStr (str "base64"));
               (str "media_type", JStr (str media_type));
               (str "data", data)])].

(** The file of the image at position [idx] of the prompt of an event. *)
Definition prompt_image_path (env : HookEnv) (sid eid image_bytes : text)
  (idx : nat) (media_type : string) : text :=
  str "images/" ++ sid ++ str "/" ++ sha256_hex12 env image_bytes ++ str "_" ++
  eid ++ str "_" ++ nat_text idx ++ image_extension env ".jpg" (JStr (str media_type)).

Definition example_metadata : Metadata :=
  {| meta_session_id := str "s1"; meta_event_type := str "UserPromptSubmit";
     meta_content := str "text"; meta_timestamp := str "t" |}.

(** * Vocabulary of the JSON codec *)

(** Python dicts have distinct keys: the values of the model that stand
    for Python values are the well-formed ones. *)
Fixpoint wf_json (j : json) : Prop :=
  match j with
  | JArr items =>
      (fix go (l : list json) : Prop :=
         match l with
         | [] => True
         | x :: l' => wf_json x ∧ go l'
         end) items
  | JObj members =>
      NoDup (map fst members) ∧
      (fix go (d : list (text * json)) : Prop :=
         match d with
         | [] => True
         | kv :: d' => wf_json (snd kv) ∧ go d'
         end) members
  | _ => True
  end.

(** The tokens of the serialization of a value. *)
Fixpoint tokens_of (j : json) : list token :=
  match j with
  | JNull => [TNull]
  | JBool true => [TTrue]
  | JBool false => [TFalse]
  | JNum z => [TNum z]
  | JStr s => [TStr s]
  | JArr items => TLBrack :: join [TComma] (map tokens_of items) ++ [TRBrack]
  | JObj members =>
      TLBrace ::
      join [TComma]
        (map (fun kv => TStr (fst kv) :: TColon :: tokens_of (snd kv)) members) ++
      [TRBrace]
  end.

(** Bracket depth of a token list. *)
Definition token_depth (t : token) : Z :=
  match t with
  | TLBrace | TLBrack => 1
  | TRBrace | TRBrack => -1
  | _ => 0
  end.

Definition depth (ts : list token) : Z := foldr (fun t d => (token_depth t + d)%Z) 0%Z ts.

(** The scanner run over a prefix: the tokens emitted and the state reached. *)
Fixpoint lex_run (st : lstate) (s : text) : option (list token * lstate) :=
  match s with
  | [] => Some ([], st)
  | c :: r =>
      match lex_step st c with
      | None => None
      | Some (ts, st') =>
          match lex_run st' r with
          | None => None
          | Some (ts', st'') => Some (ts ++ ts', st'')
          end
      end
  end.

(** Value of a string of decimal digits read after [acc]. *)
Definition digits_value (acc : N) (ds : text) : N :=
  fold_left (fun a c => (10 * a + digit_val c)%N) ds acc.

(** A text after which a number token ends. *)
Definition ends_number (rest : text) : Prop :=
  match rest with
  | [] => True
  | c :: _ => is_digit c = false ∧ starts_fraction c = false
  end.

(** The text is scanned as the given tokens, whatever follows it. *)
Definition lexes_to (s : text) (ts : list token) : Prop :=
  ∀ rest, ends_number rest →
    lex LNormal (s ++ rest) = (ts ++.) <$> lex LNormal rest.

(** Tokens with which a value can start. *)
Definition starts_value (t : token) : bool :=
  match t with
  | TRBrace | TRBrack | TComma | TColon => false
  | _ => true
  end.

(** The value parses from its tokens with any fuel above their number. *)
Definition parses_back (j : json) : Prop :=
  ∀ fuel r, length (tokens_of j) < fuel →
    parse_value fuel (tokens_of j ++ r) = Some (j, r).

(** A token list that closes one bracket at its end and not before. *)
Definition closes (c : list token) : Prop :=
  depth c = (-1)%Z ∧ ∀ p q, c = p ++ q → q ≠ [] → (0 ≤ depth p)%Z.

(** The shape of the tokens of one value: balanced, and strictly inside
    a bracket between the first and the last token. *)
Definition value_shape (c : list token) : Prop :=
  depth c = 0%Z ∧ c ≠ [] ∧
  (∀ p q, c = p ++ q → (0 ≤ depth p)%Z) ∧
  (∀ p q, c = p ++ q → p ≠ [] → q ≠ [] → (1 ≤ depth p)%Z).

(** ** Two runs of the scanner over the same text *)

(** The ends of the three literals that can remain to be read. *)
Definition lit_tails : list text :=
  [str "rue"; str "ue"; str "e"; str "alse"; str "lse"; str "se";
   str "ull"; str "ll"; str "l"].

(** States outside a string, as the scanner reaches them. *)
Definition out_state (st : lstate) : bool :=
  match st with
  | LNormal | LNum _ _ | LMinus => true
  | LLit rest t => bool_decide (rest ∈ lit_tails) && bool_decide (token_depth t = 0%Z)
  | _ => false
  end.

(** One run is inside a string where the other is outside: they cannot
    both reach the end of the text. *)
Definition doomed (st1 st2 : lstate) : bool :=
  match st1, st2 with
  | LStr _, st => out_state st
  | st, LStr _ => out_state st
  | _, _ => false
  end.

(** The runs emit tokens of the same depth from here on, or one of them
    fails. *)
Definition synced (st1 st2 : lstate) : Prop :=
  st1 = st2 ∨
  match st1, st2 with
  | LStr _, LStr _ => True
  | LEsc _, LEsc _ => True
  | LUni _ m cp, LUni _ m' cp' => m = m' ∧ cp = cp'
  | LNum _ _, LNum _ _ => True
  | LNum _ _, LNormal => True
  | LMinus, LNormal => True
  | LLit rest t, LNormal => out_state (LLit rest t) = true
  | LEsc _, st => out_state st = true
  | LUni _ _ _, st => out_state st = true
  | _, _ => False
  end.

(** A state in a literal has one of the literal ends left to read. *)
Definition lit_ok (st : lstate) : Prop :=
  match st with
  | LLit rest t => out_state (LLit rest t) = true
  | _ => True
  end.

(** ** Vocabulary of the storage invariant *)

(** A well-formed dict. *)
Definition wf_dict (e : json) : Prop := is_dict e ∧ wf_json e.

(** An event of the log of session [sid]: a well-formed dict with a text
    identifier that carries the session identifier. *)
Definition ok_event (sid : text) (e : json) : Prop :=
  wf_dict e ∧ (∃ i, jget "id" e = Some (JStr i)) ∧ jget "session_id" e = Some (JStr sid).

Definition logged_id (e : json) : option text :=
  match jget "id" e with
  | Some (JStr i) => Some i
  | _ => None
  end.

(** The image references of every message are well formed. *)
Definition wf_refs (refs_by_msg : list (nat * list json)) : Prop :=
  Forall (fun p => Forall wf_json (snd p)) refs_by_msg.

(** The session files are the texts of lists of events. *)
Definition logs_ok (w : World) (L : gmap text (list json)) : Prop :=
  session_files w = log_text <$> L ∧
  ∀ sid es, L !! sid = Some es → Forall (ok_event sid) es.

(** No log loses an identifier. *)
Definition grows (L L' : gmap text (list json)) : Prop :=
  ∀ sid es, L !! sid = Some es →
    ∃ es', L' !! sid = Some es' ∧ omap logged_id es ⊆ omap logged_id es'.

(** The rows have distinct text identifiers, and a row of a session has
    the identifier of an event of the log of that session. *)
Definition rows_ok (L : gmap text (list json)) (ix : Index) : Prop :=
  NoDup (map row_id (events ix)) ∧
  ∀ r, r ∈ events ix →
    ∃ i, row_id r = SText i ∧
         ∀ sid, row_session_id r = SText sid →
           ∃ es, L !! sid = Some es ∧ i ∈ omap logged_id es.

Definition storage_inv (w : World) (ix : Index) : Prop :=
  ∃ L, logs_ok w L ∧ rows_ok L ix.

(** The values the runtime hands to the hook are Python values. *)
Definition env_ok (env : HookEnv) : Prop :=
  ∀ ty data c, extract_content env ty data = Ok (Some c) → wf_json c.

(** The session identifier of the input of the hook is a string, or is
    absent. *)
Definition session_id_is_text (stdin_data : json) : Prop :=
  match stdin_data with
  | JObj sd =>
      match assoc_get (str "session_id") sd with
      | None | Some (JStr _) => True
      | Some _ => False
      end
  | _ => True
  end.

(** The states of a storage whose log and index are changed only by the
    hook, the synchronisation, the repair tool and the correlation of
    images; what lies outside the session files may change freely. *)
Inductive reachable : World → Index → Prop :=
| reach_empty : reachable empty_world empty_index
| reach_hook env usage event stdin_text w ix :
    reachable w ix → env_ok env →
    (∀ j, loads stdin_text = Some j → session_id_is_text j) →
    reachable (world (main env usage event stdin_text w)) ix
| reach_sync sid w ix :
    reachable w ix →
    reachable w (snd (sync_session sid (session_files w !! sid) ix))
| reach_repair sid content dry_run counts content' w ix :
    reachable w ix → session_files w !! sid = Some content →
    repair_session content dry_run w = Ok (counts, content') →
    reachable (set_session_file sid content' w) ix
| reach_images env sid refs_by_msg w ix :
    reachable w ix → wf_refs refs_by_msg →
    reachable (update_session_with_images env sid refs_by_msg w) ix
| reach_outside w w' ix :
    reachable w ix → session_files w' = session_files w → reachable w' ix.

(** A storage in which the hook has logged a session start and the
    session has been synchronised. *)
Definition logged_world : World :=
  world (main (example_env "evt_1") [] (Some (str "SessionStart"))
           (dumps (session_start_input "startup")) empty_world).

Definition synced_index : Index :=
  snd (sync_session (str "s1") (session_files logged_world !! str "s1") empty_index).

(** * Further vocabulary *)


(** The primary keys of the table [events]. *)
Definition row_ids (ix : Index) : list sqlval := map row_id (events ix).

(** [StorageManager.sync_all()]; [sessions] are the identifiers
    [list_sessions] yields, in its order. *)
Fixpoint sync_all_from (sessions : list text) (w : World) (total : nat) (ix : Index)
  : result nat * Index :=
  match sessions with
  | [] => (Ok total, ix)
  | sid :: rest =>
      match sync_session sid (session_files w !! sid) ix with
      | (Raise e, ix') => (Raise e, ix')
      | (Ok n, ix') => sync_all_from rest w (total + n) ix'
      end
  end.

Definition sync_all (sessions : list text) (w : World) (ix : Index)
  : result nat * Index :=
  sync_all_from sessions w 0 ix.

(** The [Event] built from a logged event of the examples. *)
Definition example_Event (id ty : string) : Event :=
  {| ev_id := Some (JStr (str id));
     ev_session_id := Some (JStr (str "s1"));
     ev_type := Some (JStr (str ty));
     ev_ts := Some (JStr (str "2025-01-01T00:00:00+00:00"));
     ev_agent_session_num := Some (JNum 0);
     ev_data := JObj [];
     ev_content := None;
     ev_images := None |}.

(** The index after the events of the examples have been inserted. *)
Definition index_with (ids : list string) : Index :=
  foldl (fun ix id => snd (insert_event (example_Event id "Stop") ix)) empty_index ids.

(** Scores that never increase along a list. *)
Fixpoint non_increasing (l : list Q) : Prop :=
  match l with
  | [] => True
  | x :: l' => Forall (fun y => (y <= x)%Q) l' ∧ non_increasing l'
  end.

(** [l[:limit]], also for a negative [limit]. *)
Definition py_take {A} (limit : Z) (l : list A) : list A :=
  if (0 <=? limit)%Z then take (Z.to_nat limit) l
  else take (length l - Z.to_nat (- limit)) l.

(** [SearchService.hybrid_search].  The two searches are queries to the
    database and to the embedding index: [keyword_search] and
    [semantic_search] give their results for a limit, [semantic_search] is
    [None] when there is no embedding service.  The elapsed time returned
    beside the results is not part of the model. *)
Definition hybrid_search (keyword_search : Z -> list SearchResult)
  (semantic_search : option (Z -> list SearchResult))
  (limit : Z) (use_semantic : bool) : list SearchResult :=
  let keyword_results := keyword_search (limit * 2)%Z in
  let semantic_results :=
    match semantic_search with
    | Some search => if use_semantic then search (limit * 2)%Z else []
    | None => []
    end in
  let results :=
    match semantic_results with
    | [] => keyword_results
    | _ :: _ => reciprocal_rank_fusion keyword_results semantic_results 60
    end in
  py_take limit results.

(** The state of the fusion after the two loops. *)
Definition fused_state (kw sem : list SearchResult) (k : nat) : fusion_state :=
  semantic_loop k 0 sem
    (keyword_loop k 0 kw {| scores := []; result_map := []; cosine_scores := [] |}).

(** The semantic results [hybrid_search] fuses. *)
Definition semantic_results_of (semantic_search : option (Z -> list SearchResult))
  (limit : Z) (use_semantic : bool) : list SearchResult :=
  match semantic_search with
  | Some search => if use_semantic then search (limit * 2)%Z else []
  | None => []
  end.

(** Similarities that never increase along a list. *)
Fixpoint non_increasing_R (l : list R) : Prop :=
  match l with
  | [] => True
  | x :: l' => Forall (fun y => (y <= x)%R) l' ∧ non_increasing_R l'
  end.

(** Only image files were added, and none was changed. *)
Definition images_only (w w' : World) : Prop :=
  session_files w' = session_files w ∧ transcripts w' = transcripts w ∧
  image_files w ⊆ image_files w'.


(** A text block of a prompt. *)
Definition text_block (t : text) : json :=
  JObj [(str "type", JStr (str "text")); (str "text", JStr t)].

(** The image references a call of [extract_images_from_prompt] returned. *)
Definition prompt_refs (r : result (text * list json) * World) : list json :=
  match fst r with
  | Ok (_, image_refs) => image_refs
  | Raise _ => []
  end.

(** A line of a transcript that [get_response] passes over: blank, or an
    entry that is a dict and not of type [assistant]. *)
Definition passed_over (line : text) : Prop :=
  nonblank line = false ∨
  ∃ entry, loads line = Some (JObj entry) ∧
           is_str "assistant" (assoc_get (str "type") entry) = false.

(** A transcript of the examples: the assistant message of
    [example_transcript] followed by a user message. *)
Definition user_entry : json :=
  JObj [(str "type", JStr (str "user"));
        (str "message", JObj [(str "content", JStr (str "thanks"))])].

Definition two_entry_transcript : text := example_transcript ++ dumps user_entry ++ [nl].

(** [quote(text)]: the text as a markdown block quote. *)
Definition quote (s : text) : text :=
  join [nl] (map (fun line => str "> " ++ line) (split_nl s)).

(** What [analyze_session] reports about a gap of the events [es]: a Stop
    event at that index whose data names a transcript and which is not
    followed by an AssistantResponse. *)
Definition gap_of (w : World) (es : list json) (m : Gap) : Prop :=
  es !! gap_index m = Some (JObj (gap_stop_event m)) ∧
  is_str "Stop" (assoc_get (str "type") (gap_stop_event m)) = true ∧
  (∃ d, assoc_get (str "data") (gap_stop_event m) = Some (JObj d) ∧
        assoc_get (str "transcript_path") d = Some (JStr (gap_transcript_path m))) ∧
  gap_transcript_exists m = bool_decide (is_Some (transcripts w !! gap_transcript_path m)) ∧
  ∀ next, es !! S (gap_index m) = Some next →
          is_str "AssistantResponse" (jget "type" next) = false.

(** The events of the log a repair returned. *)
Definition repair_counts (r : result (RepairCounts * text)) : RepairCounts :=
  match r with
  | Ok (c, _) => c
  | Raise _ => {| n_missing := 0; n_repaired := 0; n_failed := 0; n_skipped := 0 |}
  end.

(** The gaps an analysis returned. *)
Definition gaps_of (r : result (list Gap)) : list Gap :=
  match r with Ok gaps => gaps | Raise _ => [] end.

(** The AssistantResponse event the hook writes after a Stop event. *)
Definition response_event (env : HookEnv) (session_id num response : json) : json :=
  JObj [(str "id", JStr (new_response_id env));
        (str "type", JStr (str "AssistantResponse"));
        (str "ts", JStr (now env));
        (str "session_id", session_id);
        (str "agent_session_num", num);
        (str "data", JObj [(str "response", response)]);
        (str "content", response)].

(** [data = stdin_data.get("data", stdin_data)] *)
Definition hook_data (stdin_data : json) : json :=
  default stdin_data (jget "data" stdin_data).

(** A Stop input of session [s1] that names the transcript of the
    examples, and a world that holds that transcript beside a log. *)
Definition stop_input : json :=
  JObj [(str "session_id", JStr (str "s1"));
        (str "transcript_path", JStr (str "/t/s1.jsonl"))].

Definition world_with_transcript (es : list json) : World :=
  {| session_files := {[ str "s1" := log_text es ]};
     image_files := ∅;
     transcripts := {[ str "/t/s1.jsonl" := example_transcript ]};
     errors_log := [] |}.

(** * Properties *)

(** ** Dictionaries *)

Lemma assoc_get_set_eq {V} (k : text) (v : V) d :
  assoc_get k (assoc_set k v d) = Some v.
Proof.
  induction d as [|[k' v'] d IH]; simpl.
  - by rewrite decide_True.
  - destruct (decide (k' = k)) as [->|Hne]; simpl.
    + by rewrite decide_True.
    + by rewrite decide_False.
Qed.

Lemma assoc_get_set_ne {V} (k k' : text) (v : V) d :
  k ≠ k' → assoc_get k' (assoc_set k v d) = assoc_get k' d.
Proof.
  intros Hne. induction d as [|[k0 v0] d IH]; simpl.
  - by rewrite decide_False.
  - destruct (decide (k0 = k)) as [->|Hne0]; simpl.
    + by rewrite !decide_False.
    + destruct (decide (k0 = k')); [done|apply IH].
Qed.

Lemma assoc_get_None {V} (k : text) (d : list (text * V)) :
  assoc_get k d = None ↔ k ∉ map fst d.
Proof.
  induction d as [|[k' v'] d IH]; simpl.
  - split; [intros _; apply not_elem_of_nil|done].
  - rewrite not_elem_of_cons. destruct (decide (k' = k)) as [->|Hne].
    + split; [done|]. intros [? _]; done.
    + rewrite IH. split; [intros ?; split; [congruence|done]|intros [_ ?]; done].
Qed.

Lemma assoc_get_Some_elem {V} (k : text) (d : list (text * V)) :
  is_Some (assoc_get k d) ↔ k ∈ map fst d.
Proof.
  destruct (assoc_get k d) as [v|] eqn:E.
  - split; [intros _|by eauto].
    destruct (decide (k ∈ map fst d)) as [|Hn]; [done|].
    apply assoc_get_None in Hn. congruence.
  - split; [intros [? ?]; done|]. intros Hin. apply assoc_get_None in E. done.
Qed.

Lemma assoc_set_keys_new {V} (k : text) (v : V) d :
  assoc_get k d = None → map fst (assoc_set k v d) = map fst d ++ [k].
Proof.
  induction d as [|[k' v'] d IH]; simpl; [done|].
  destruct (decide (k' = k)); [done|]. intros H. simpl. by rewrite IH.
Qed.

Lemma assoc_set_keys_old {V} (k : text) (v : V) d :
  is_Some (assoc_get k d) → map fst (assoc_set k v d) = map fst d.
Proof.
  induction d as [|[k' v'] d IH]; simpl; [intros [? ?]; done|].
  destruct (decide (k' = k)) as [->|]; [done|]. intros H. simpl. by rewrite IH.
Qed.

Lemma assoc_set_NoDup {V} (k : text) (v : V) d :
  NoDup (map fst d) → NoDup (map fst (assoc_set k v d)).
Proof.
  intros Hnd. destruct (assoc_get k d) as [x|] eqn:E.
  - by rewrite assoc_set_keys_old; [|eauto].
  - rewrite assoc_set_keys_new; [|done]. apply NoDup_app. split; [done|].
    split; [|apply NoDup_singleton].
    intros y Hy ->%list_elem_of_singleton. apply assoc_get_None in E. done.
Qed.

(** ** Reciprocal rank fusion *)





Lemma add_score_keys id x sc y :
  y ∈ map fst (add_score id x sc) ↔ y = id ∨ y ∈ map fst sc.
Proof.
  unfold add_score. destruct (assoc_get id sc) as [q|] eqn:E.
  - rewrite assoc_set_keys_old; [|by rewrite E; eauto].
    split; [by right|]. intros [->|?]; [|done].
    apply assoc_get_Some_elem. rewrite E; eauto.
  - rewrite assoc_set_keys_new; [|done].
    rewrite elem_of_app, list_elem_of_singleton. tauto.
Qed.

Lemma keyword_loop_inv (k : nat) rs : ∀ i st,
  fusion_inv st → fusion_inv (keyword_loop k i rs st).
Proof.
  induction rs as [|r rs IH]; intros i st (Hnd & Hmap & Hid); simpl; [done|].
  apply IH. split_and!; simpl.
  - by apply assoc_set_NoDup.
  - intros id [->|Hin]%add_score_keys.
    + rewrite assoc_get_set_eq; eauto.
    + destruct (decide (event_id r = id)) as [<-|Hne].
      * rewrite assoc_get_set_eq; eauto.
      * rewrite assoc_get_set_ne; auto.
  - intros id r'. destruct (decide (event_id r = id)) as [<-|Hne].
    + rewrite assoc_get_set_eq. congruence.
    + rewrite assoc_get_set_ne; auto.
Qed.

Lemma semantic_loop_inv (k : nat) rs : ∀ i st,
  fusion_inv st → fusion_inv (semantic_loop k i rs st).
Proof.
  induction rs as [|r rs IH]; intros i st (Hnd & Hmap & Hid); simpl; [done|].
  apply IH. split_and!; simpl.
  - by apply assoc_set_NoDup.
  - intros id Hin. destruct (assoc_get (event_id r) (result_map st)) eqn:E.
    + apply add_score_keys in Hin as [->|Hin]; [rewrite E; eauto|auto].
    + apply add_score_keys in Hin as [->|Hin].
      * rewrite assoc_get_set_eq; eauto.
      * destruct (decide (event_id r = id)) as [<-|Hne].
        -- rewrite assoc_get_set_eq; eauto.
        -- rewrite assoc_get_set_ne; auto.
  - intros id r'. destruct (assoc_get (event_id r) (result_map st)) eqn:E; [auto|].
    destruct (decide (event_id r = id)) as [<-|Hne].
    + rewrite assoc_get_set_eq. congruence.
    + rewrite assoc_get_set_ne; auto.
Qed.

Lemma keyword_loop_keys (k : nat) id rs : ∀ i st,
  id ∈ map fst (scores (keyword_loop k i rs st)) ↔
  id ∈ map fst (scores st) ∨ ranks_from i id rs ≠ [].
Proof.
  induction rs as [|r rs IH]; intros i st; simpl.
  - naive_solver.
  - rewrite IH. simpl. rewrite add_score_keys.
    destruct (decide (event_id r = id)) as [<-|Hne]; naive_solver.
Qed.

Lemma semantic_loop_keys (k : nat) id rs : ∀ i st,
  id ∈ map fst (scores (semantic_loop k i rs st)) ↔
  id ∈ map fst (scores st) ∨ ranks_from i id rs ≠ [].
Proof.
  induction rs as [|r rs IH]; intros i st; simpl.
  - naive_solver.
  - rewrite IH. simpl. rewrite add_score_keys.
    destruct (decide (event_id r = id)) as [<-|Hne]; naive_solver.
Qed.

Lemma insert_by_perm {A} (key : A → Q) x l : insert_by key x l ≡ₚ x :: l.
Proof.
  induction l as [|y l IH]; simpl; [done|].
  destruct (Qle_bool (key x) (key y)); [done|].
  rewrite IH. apply Permutation_swap.
Qed.

Lemma sorted_by_perm {A} (key : A → Q) l : sorted_by key l ≡ₚ l.
Proof.
  induction l as [|x l IH]; simpl; [done|].
  rewrite insert_by_perm. by rewrite IH.
Qed.






(** With a repeated identifier every occurrence contributes: the event at
    keyword ranks 0 and 1 gets both terms. *)
Example rrf_repeated_identifier :
  ∃ s, fused_score (str "a")
         (reciprocal_rank_fusion [example_result "a"; example_result "a"] [] 60) = Some s ∧
       (s == (1 # 61) + (1 # 62))%Q.
Proof. eexists. split; [vm_compute; reflexivity|]. reflexivity. Qed.

(** ** The agent session number *)

Lemma is_prefix_length p s : is_prefix p s = true → length p ≤ length s.
Proof.
  revert s. induction p as [|a p IH]; intros [|b s]; simpl; try done; try lia.
  intros [_ H]%andb_prop. apply IH in H. lia.
Qed.

(** A needle without newline does not see past a newline. *)
Lemma is_prefix_before_nl p a b :
  nl ∉ p → p ≠ [] → is_prefix p (a ++ nl :: b) = is_prefix p a.
Proof.
  revert a. induction p as [|c p IH]; intros a Hnl Hne; [done|].
  apply not_elem_of_cons in Hnl as [Hc Hnl].
  destruct a as [|d a]; simpl.
  - rewrite bool_decide_eq_false_2; [done|congruence].
  - destruct p as [|c' p]; [by destruct a|].
    rewrite IH; [done|done|done].
Qed.

Lemma count_from_nl needle a b : ∀ skip,
  nl ∉ needle → needle ≠ [] → skip ≤ length a →
  count_from skip needle (a ++ nl :: b) =
  count_from skip needle a + count_from 0 needle b.
Proof.
  induction a as [|c a IH]; intros skip Hnl Hne Hskip; simpl in *.
  - assert (skip = 0) as -> by lia.
    destruct needle as [|d needle]; [done|]. simpl.
    apply not_elem_of_cons in Hnl as [Hd _].
    rewrite bool_decide_eq_false_2; [done|congruence].
  - destruct skip as [|skip]; [|apply IH; [done|done|lia]].
    change (c :: a ++ nl :: b) with ((c :: a) ++ nl :: b).
    rewrite is_prefix_before_nl; [|done|done].
    destruct (is_prefix needle (c :: a)) eqn:E.
    + rewrite IH; [done|done|done|]. apply is_prefix_length in E. simpl in E. lia.
    + apply IH; [done|done|lia].
Qed.

Lemma count_text_nl needle a b :
  nl ∉ needle → needle ≠ [] →
  count_text needle (a ++ nl :: b) = count_text needle a + count_text needle b.
Proof. intros. apply count_from_nl; [done|done|lia]. Qed.

Lemma count_text_nil needle : count_text needle [] = 0.
Proof. done. Qed.

Lemma marker_texts_log_text logged :
  marker_texts (log_text logged) =
  sum_list (map (fun e => marker_texts (dumps e)) logged).
Proof.
  unfold marker_texts, log_text.
  induction logged as [|e logged IH]; simpl; [done|].
  rewrite <- IH, <- !app_assoc. simpl.
  assert (Hc : nl ∉ compact_text) by (by apply (bool_decide_unpack _); vm_compute).
  assert (Hl : nl ∉ clear_text) by (by apply (bool_decide_unpack _); vm_compute).
  rewrite !count_text_nl; [lia|done..].
Qed.

Lemma marker_faithful_sum logged :
  Forall marker_faithful logged →
  sum_list (map (fun e => marker_texts (dumps e)) logged) =
  length (filter (fun e => carries_marker e = true) logged).
Proof.
  induction 1 as [|e logged He _ IH]; simpl; [done|].
  rewrite IH, He. destruct (carries_marker e) eqn:E.
  - by rewrite filter_cons_True.
  - rewrite filter_cons_False; [done|congruence].
Qed.

(** The number computed over a log of faithful events. *)
Lemma get_agent_session_num_faithful logged source :
  Forall marker_faithful logged →
  get_agent_session_num false (log_file logged) source =
  length (filter (fun e => carries_marker e = true) logged) +
  (if source_marker source then 1 else 0).
Proof.
  intros Hf. unfold get_agent_session_num, log_file.
  destruct logged as [|e logged]; [by destruct (source_marker source)|].
  fold (marker_texts (log_text (e :: logged))).
  rewrite marker_texts_log_text, marker_faithful_sum; [|done].
  destruct (source_marker source); lia.
Qed.

Lemma finish_event_returns env ty sid sidj n data event w ev w' :
  finish_event env ty sid sidj n data event w = (Ok ev, w') →
  ev = JObj event ∨ ∃ c, ev = JObj (assoc_set (str "content") c event).
Proof.
  unfold finish_event. intros H.
  destruct (extract_content env ty data) as [content|]; [|done].
  repeat case_match; simplify_eq; eauto.
Qed.

(** The number stored in the event the hook appends is the one computed
    from the session file as it was and from the marker of that event. *)
Lemma process_event_num env ty stdin w ev w' :
  process_event env ty stdin w = (Ok ev, w') →
  jget "agent_session_num" ev =
  Some (JNum (Z.of_nat
    (get_agent_session_num (fails_read_session env)
       (session_files w !! hook_session env stdin) (event_source ev)))).
Proof.
  unfold process_event, hook_session. intros H.
  destruct stdin as [| | | | |sd]; try done. simpl.
  repeat case_match; simplify_eq;
    match goal with
    | H : finish_event _ _ _ _ _ _ _ _ = _ |- _ =>
        apply finish_event_returns in H as [->|[c ->]]
    end; try reflexivity.
  all: unfold event_source; simpl;
    rewrite ?assoc_get_set_ne by (vm_compute; congruence); try reflexivity.
Qed.

(** C2 (as amended): when the session file can be read and every logged
    event shows a marker text in its line exactly when it carries a marker,
    the number given to an appended event is the number of logged events
    with a marker, plus one if the appended event carries one; the number
    of the next event is then that of the previous one, plus one exactly
    when the next event carries a marker. *)
Theorem agent_session_num_counts_markers logged :
  Forall marker_faithful logged →
  (∀ env ty stdin w ev w',
     fails_read_session env = false →
     session_files w !! hook_session env stdin = log_file logged →
     process_event env ty stdin w = (Ok ev, w') →
     jget "agent_session_num" ev =
     Some (JNum (Z.of_nat
       (length (filter (fun e => carries_marker e = true) logged) +
        (if carries_marker ev then 1 else 0))))) ∧
  (∀ e1 e2,
     marker_faithful e1 →
     get_agent_session_num false (log_file (logged ++ [e1])) (event_source e2) =
     get_agent_session_num false (log_file logged) (event_source e1) +
     (if carries_marker e2 then 1 else 0)).
Proof.
  intros Hf. split.
  - intros env ty stdin w ev w' Hread Hfile Hrun.
    rewrite (process_event_num _ _ _ _ _ _ Hrun), Hread, Hfile.
    by rewrite get_agent_session_num_faithful.
  - intros e1 e2 He1.
    assert (Hlen : length (filter (fun e => carries_marker e = true) (logged ++ [e1])) =
                   length (filter (fun e => carries_marker e = true) logged) +
                   (if source_marker (event_source e1) then 1 else 0)).
    { rewrite filter_app, length_app. f_equal.
      fold (carries_marker e1). destruct (carries_marker e1) eqn:E.
      - by rewrite filter_cons_True.
      - rewrite filter_cons_False; [done|congruence]. }
    rewrite !get_agent_session_num_faithful; [|done|].
    + rewrite Hlen. unfold carries_marker. lia.
    + apply Forall_app. split; [done|]. by apply Forall_singleton.
Qed.

(** Three events, the first two with the sources [compact] and [clear]:
    the numbers are 1, 2, 2. *)
Example agent_session_num_sequence :
  let '(ev1, w1) := run_hook "evt_1" "SessionStart" (session_start_input "compact") empty_world in
  let '(ev2, w2) := run_hook "evt_2" "SessionStart" (session_start_input "clear") w1 in
  let '(ev3, w3) := run_hook "evt_3" "SessionStart" (session_start_input "startup") w2 in
  agent_session_num_of ev1 = Some (JNum 1) ∧
  agent_session_num_of ev2 = Some (JNum 2) ∧
  agent_session_num_of ev3 = Some (JNum 2).
Proof. vm_compute. done. Qed.

Lemma agent_session_num_counts_markers_witness :
  let env := example_env "evt_3" in
  let stdin := session_start_input "startup" in
  ∃ ev1 w1 ev2 w2 ev3 w3,
    run_hook "evt_1" "SessionStart" (session_start_input "compact") empty_world = (Some ev1, w1) ∧
    run_hook "evt_2" "SessionStart" (session_start_input "clear") w1 = (Some ev2, w2) ∧
    process_event env (str "SessionStart") stdin w2 = (Ok ev3, w3) ∧
    Forall marker_faithful [ev1; ev2] ∧
    session_files w2 !! hook_session env stdin = log_file [ev1; ev2] ∧
    jget "agent_session_num" ev3 = Some (JNum 2).
Proof.
  intros env stdin.
  destruct (run_hook "evt_1" "SessionStart" (session_start_input "compact") empty_world)
    as [[ev1|] w1] eqn:E1; [|by vm_compute in E1].
  destruct (run_hook "evt_2" "SessionStart" (session_start_input "clear") w1)
    as [[ev2|] w2] eqn:E2; [|by vm_compute in E1; simplify_eq; vm_compute in E2].
  destruct (process_event env (str "SessionStart") stdin w2) as [[ev3|] w3] eqn:E3;
    [|by vm_compute in E1; simplify_eq; vm_compute in E2; simplify_eq; vm_compute in E3].
  exists ev1, w1, ev2, w2, ev3, w3.
  assert (Hf : Forall marker_faithful [ev1; ev2]).
  { vm_compute in E1. simplify_eq. vm_compute in E2. simplify_eq.
    repeat constructor; vm_compute; reflexivity. }
  assert (Hfile : session_files w2 !! hook_session env stdin = log_file [ev1; ev2]).
  { vm_compute in E1. simplify_eq. vm_compute in E2. simplify_eq.
    vm_compute. reflexivity. }
  split_and!; try done.
  rewrite (proj1 (agent_session_num_counts_markers [ev1; ev2] Hf)
             env (str "SessionStart") stdin w2 ev3 w3 eq_refl Hfile E3).
  vm_compute in E1. simplify_eq. vm_compute in E2. simplify_eq.
  vm_compute in E3. simplify_eq. vm_compute. reflexivity.
Defined.

(** A payload with a nested field named [source]: the logged event carries
    no marker, yet the next event, which carries none either, is given 1. *)
Lemma agent_session_num_nested_source :
  ∃ ev1 w1 ev2 w2,
    run_hook "evt_1" "PreToolUse" tool_input_with_source empty_world = (Some ev1, w1) ∧
    run_hook "evt_2" "SessionStart" (session_start_input "startup") w1 = (Some ev2, w2) ∧
    session_files w1 !! str "s1" = log_file [ev1] ∧
    carries_marker ev1 = false ∧ carries_marker ev2 = false ∧
    agent_session_num_of (Some ev2) = Some (JNum 1) ∧
    agent_session_num_of (Some ev2) ≠
    Some (JNum (Z.of_nat
      (length (filter (fun e => carries_marker e = true) [ev1]) +
       (if carries_marker ev2 then 1 else 0)))).
Proof.
  do 4 eexists. split_and!.
  - vm_compute. reflexivity.
  - vm_compute. reflexivity.
  - vm_compute. reflexivity.
  - vm_compute. reflexivity.
  - vm_compute. reflexivity.
  - vm_compute. reflexivity.
  - vm_compute. congruence.
Qed.

(** ** Reading a session file *)











(** ** Synchronisation *)



(** ** Correlation of images *)



Lemma has_images_set_images rs e : is_dict e → has_images (set_images rs e) = true.
Proof.
  destruct e as [| | | | |d]; try done. intros _.
  unfold has_images, set_images, jget. by rewrite assoc_get_set_eq.
Qed.

(** The fields other than [images] of a patched event are those it had. *)
Lemma set_images_frame rs e key :
  key ≠ str "images" →
  match set_images rs e, e with
  | JObj d', JObj d => assoc_get key d' = assoc_get key d
  | e', _ => e' = e
  end.
Proof.
  intros Hne. destruct e as [| | | | |d]; try done. simpl.
  by rewrite assoc_get_set_ne.
Qed.




(** ** Repair *)

(** C5: two Stop events of one transcript lack their response.  The first
    run inserts the response after the later one and skips the earlier one
    as a duplicate; the second run, which starts with no last response,
    inserts it after the earlier one too and rewrites the file again; only
    the third run finds nothing to do. *)
Theorem repair_second_run_repairs_again :
  let run1 := repair_session two_stops_log false transcript_world in
  let run2 := repair_session (repaired_log run1) false transcript_world in
  let run3 := repair_session (repaired_log run2) false transcript_world in
  (∃ c1, run1 = Ok ({| n_missing := 2; n_repaired := 1; n_failed := 0; n_skipped := 1 |}, c1)) ∧
  (∃ c2, run2 = Ok ({| n_missing := 1; n_repaired := 1; n_failed := 0; n_skipped := 0 |}, c2)) ∧
  repaired_count run2 ≠ Some 0 ∧
  repaired_log run2 ≠ repaired_log run1 ∧
  run3 = Ok ({| n_missing := 0; n_repaired := 0; n_failed := 0; n_skipped := 0 |},
             repaired_log run2).
Proof.
  split_and!.
  - eexists. vm_compute. reflexivity.
  - eexists. vm_compute. reflexivity.
  - vm_compute. congruence.
  - vm_compute. congruence.
  - vm_compute. reflexivity.
Qed.

(** ** Image extraction *)

Lemma store_image_fresh env sid fb mt data idx name_of w bytes :
  b64decode env data = Ok bytes →
  fails_write_image env = false →
  image_files w !! (str "images/" ++ sid ++ str "/" ++
                    name_of (sha256_hex12 env bytes) (image_extension env fb mt)) = None →
  ∃ ref,
    store_image env sid fb mt data idx name_of w =
    (Ok ref,
     set_image_file
       (str "images/" ++ sid ++ str "/" ++
        name_of (sha256_hex12 env bytes) (image_extension env fb mt)) bytes w).
Proof.
  intros Hdec Hwrite Hnone. unfold store_image. rewrite Hdec, Hnone, Hwrite. eauto.
Qed.

(** Two blocks with the same data give two references and two files: the
    position of the block is part of the file name, so the second write
    never finds the file of the first. *)
Lemma same_image_twice_general env sid eid data bytes w :
  b64decode env data = Ok bytes →
  truthy data = true →
  fails_write_image env = false →
  image_files w = ∅ →
  let p0 := prompt_image_path env sid eid bytes 0 "image/png" in
  let p1 := prompt_image_path env sid eid bytes 1 "image/png" in
  ∃ ref0 ref1 w',
    extract_images_from_prompt env
      [base64_image_block "image/png" data; base64_image_block "image/png" data]
      sid eid w = (Ok ([], [ref0; ref1]), w') ∧
    p0 ≠ p1 ∧
    image_files w' = <[p1 := bytes]> (<[p0 := bytes]> ∅).
Proof.
  intros Hdec Htruthy Hwrite Hempty p0 p1.
  assert (Hne : p0 ≠ p1).
  { unfold p0, p1, prompt_image_path. intros H. do 7 apply app_inv_head in H.
    discriminate. }
  unfold extract_images_from_prompt. simpl. rewrite Htruthy.
  edestruct (store_image_fresh env sid ".jpg" (JStr (str "image/png")) data 0) as [ref0 ->];
    [done|done|by rewrite Hempty, lookup_empty|].
  edestruct (store_image_fresh env sid ".jpg" (JStr (str "image/png")) data 1) as [ref1 ->];
    [done|done| |].
  { simpl. rewrite Hempty. rewrite lookup_insert_ne; [apply lookup_empty|]. exact Hne. }
  simpl. exists ref0, ref1. eexists. split_and!; [reflexivity|done|].
  simpl. rewrite Hempty. reflexivity.
Qed.

(** C7: an event with two image blocks of identical data.  Two references
    are returned, and two files are stored, one for each position. *)
Theorem same_image_twice_stores_two_files :
  let block := base64_image_block "image/png" (JStr (str "aGVsbG8=")) in
  ∃ refs w',
    extract_images_from_prompt (example_env "evt_1") [block; block]
      (str "s1") (str "evt_1") empty_world = (Ok ([], refs), w') ∧
    length refs = 2 ∧
    size (image_files w') = 2 ∧
    is_Some (image_files w' !! str "images/s1/0123456789ab_evt_1_0.png") ∧
    is_Some (image_files w' !! str "images/s1/0123456789ab_evt_1_1.png").
Proof.
  intros block.
  destruct (same_image_twice_general (example_env "evt_1") (str "s1") (str "evt_1")
              (JStr (str "aGVsbG8=")) (str "aGVsbG8=") empty_world)
    as (ref0 & ref1 & w' & Hrun & Hne & Hfiles); [reflexivity..|].
  exists [ref0; ref1], w'. rewrite Hfiles.
  change (prompt_image_path (example_env "evt_1") (str "s1") (str "evt_1")
            (str "aGVsbG8=") 0 "image/png")
    with (str "images/s1/0123456789ab_evt_1_0.png") in *.
  change (prompt_image_path (example_env "evt_1") (str "s1") (str "evt_1")
            (str "aGVsbG8=") 1 "image/png")
    with (str "images/s1/0123456789ab_evt_1_1.png") in *.
  split_and!; [done|done| | |].
  - rewrite map_size_insert_None; [|by rewrite lookup_insert_ne; [apply lookup_empty|]].
    rewrite map_size_insert_None; [|apply lookup_empty]. by rewrite map_size_empty.
  - rewrite lookup_insert_ne; [|done]. rewrite lookup_insert_eq. eauto.
  - rewrite lookup_insert_eq. eauto.
Qed.

(** ** Embedding search *)

Lemma cosine_opposite : cosine [1%R] [(-1)%R] = (-1)%R.
Proof.
  unfold cosine, norm. simpl.
  replace (1 * 1 + 0)%R with 1%R by ring.
  replace (-1 * -1 + 0)%R with 1%R by ring.
  rewrite sqrt_1.
  destruct (Req_dec_T 1 0) as [H|_]; [lra|]. field.
Qed.

(** C8: a stored vector opposite to the query.  The fallback scan returns
    it with similarity -1; with the extension, a distance above 1 gives a
    negative similarity as well. *)
Theorem similarity_below_zero :
  (∃ h, search_brute_force [(str "e1", [(-1)%R])] {[ str "e1" := example_metadata ]}
          [1%R] 20 = [h] ∧
        hit_score h = (-1)%R ∧ ¬ (0 <= hit_score h <= 1)%R) ∧
  (∃ h, search_native [(str "e1", 2%R, example_metadata)] = [h] ∧
        hit_score h = (-1)%R ∧ ¬ (0 <= hit_score h <= 1)%R).
Proof.
  split.
  - unfold search_brute_force. simpl. rewrite cosine_opposite.
    rewrite lookup_singleton_eq. simpl. eexists. split; [reflexivity|].
    simpl. split; [done|lra].
  - unfold search_native. simpl. eexists. split; [reflexivity|].
    simpl. split; [ring|lra].
Qed.

(** ** Failures of the hook *)





(** ** The JSON codec *)

Lemma json_ind' (P : json → Prop) :
  P JNull → (∀ b, P (JBool b)) → (∀ z, P (JNum z)) → (∀ s, P (JStr s)) →
  (∀ l, Forall P l → P (JArr l)) →
  (∀ d, Forall (fun kv => P (snd kv)) d → P (JObj d)) →
  ∀ j, P j.
Proof.
  intros Hnull Hbool Hnum Hstr Harr Hobj.
  fix IH 1. intros [| b | z | s | l | d].
  - exact Hnull.
  - apply Hbool.
  - apply Hnum.
  - apply Hstr.
  - apply Harr. induction l as [|x l IHl]; constructor; [apply IH|exact IHl].
  - apply Hobj. induction d as [|kv d IHd]; constructor; [apply IH|exact IHd].
Qed.

Lemma wf_json_arr l : wf_json (JArr l) ↔ Forall wf_json l.
Proof.
  simpl. induction l as [|x l IH]; [split; [constructor|done]|].
  rewrite Forall_cons, <- IH. done.
Qed.

Lemma wf_json_obj d :
  wf_json (JObj d) ↔ NoDup (map fst d) ∧ Forall (fun kv => wf_json (snd kv)) d.
Proof.
  simpl. apply and_iff_compat_l.
  induction d as [|x l IH]; [split; [constructor|done]|].
  rewrite Forall_cons, <- IH. done.
Qed.

Lemma lex_app st p t :
  lex st (p ++ t) =
  match lex_run st p with
  | None => None
  | Some (ts, st') => (ts ++.) <$> lex st' t
  end.
Proof.
  revert st. induction p as [|c p IH]; intros st; simpl.
  - by destruct (lex st t).
  - destruct (lex_step st c) as [[ts st']|]; [|done]. rewrite IH.
    destruct (lex_run st' p) as [[ts' st'']|]; [|done].
    destruct (lex st'' t) as [ts''|]; simpl; [|done]. by rewrite app_assoc.
Qed.

Lemma lex_run_app st p q :
  lex_run st (p ++ q) =
  match lex_run st p with
  | None => None
  | Some (ts, st') =>
      match lex_run st' q with
      | None => None
      | Some (ts', st'') => Some (ts ++ ts', st'')
      end
  end.
Proof.
  revert st. induction p as [|c p IH]; intros st; simpl.
  - by destruct (lex_run st q) as [[??]|].
  - destruct (lex_step st c) as [[ts st']|]; [|done]. rewrite IH.
    destruct (lex_run st' p) as [[ts' st'']|]; [|done].
    destruct (lex_run st'' q) as [[ts'' st''']|]; [|done]. by rewrite app_assoc.
Qed.

(** *** Strings *)

Lemma lex_run_escape_char acc c :
  lex_run (LStr acc) (escape_char c) = Some ([], LStr (c :: acc)).
Proof.
  destruct c as [[] [] [] [] [] [] [] []]; reflexivity.
Qed.

Lemma lex_run_escape s : ∀ acc,
  lex_run (LStr acc) (escape s) = Some ([], LStr (reverse s ++ acc)).
Proof.
  induction s as [|c s IH]; intros acc; [done|].
  unfold escape in *. simpl. rewrite lex_run_app, lex_run_escape_char, IH. simpl.
  by rewrite reverse_cons, <- app_assoc.
Qed.

Lemma lex_run_quote_text s :
  lex_run LNormal (quote_text s) = Some ([TStr s], LNormal).
Proof.
  unfold quote_text. change (dq :: escape s ++ [dq]) with ([dq] ++ escape s ++ [dq]).
  rewrite lex_run_app. simpl. rewrite lex_run_app, lex_run_escape. simpl.
  by rewrite app_nil_r, reverse_involutive.
Qed.

(** *** Numbers *)

Lemma digits_value_snoc a ds c :
  digits_value a (ds ++ [c]) = (10 * digits_value a ds + digit_val c)%N.
Proof. unfold digits_value. by rewrite fold_left_app. Qed.

Lemma is_digit_chr n : (n < 10)%N → is_digit (chr (48 + n)) = true ∧ digit_val (chr (48 + n)) = n.
Proof.
  intros H. unfold is_digit, digit_val, code, chr.
  rewrite N_ascii_embedding by lia. split; [|lia].
  apply andb_true_intro. split; apply N.leb_le; lia.
Qed.

Lemma digits_aux_S fuel n acc :
  digits_aux (S fuel) n acc =
  if (n / 10 =? 0)%N then chr (48 + n mod 10) :: acc
  else digits_aux fuel (n / 10) (chr (48 + n mod 10) :: acc).
Proof. done. Qed.

Lemma digits_aux_spec fuel : ∀ n acc,
  (n < 2 ^ N.of_nat (S fuel))%N →
  ∃ ds, digits_aux (S fuel) n acc = ds ++ acc ∧
        Forall (fun c => is_digit c = true) ds ∧
        digits_value 0 ds = n ∧
        (∀ d, head ds = Some d → (0 < n)%N → digit_val d ≠ 0%N) ∧ ds ≠ [].
Proof.
  induction fuel as [|fuel IH]; intros n acc Hn;
    pose proof (N.mod_lt n 10 ltac:(lia)) as Hmod;
    pose proof (N.div_mod n 10 ltac:(lia)) as Hdm;
    destruct (is_digit_chr (n mod 10) Hmod) as [Hd Hv];
    rewrite digits_aux_S; destruct (n / 10 =? 0)%N eqn:E.
  1,3: apply N.eqb_eq in E; exists [chr (48 + n mod 10)]; split_and!; try done;
       [by repeat constructor
       |unfold digits_value; simpl; rewrite Hv; lia
       |intros d [= <-] Hpos; rewrite Hv; lia].
  - apply N.eqb_neq in E. change (2 ^ N.of_nat 1)%N with 2%N in Hn.
    assert (n / 10 = 0)%N; [|done]. apply N.div_small. lia.
  - apply N.eqb_neq in E.
    destruct (IH (n / 10)%N (chr (48 + n mod 10) :: acc))
      as (ds & Heq & Hall & Hval & Hhd & Hne).
    { rewrite Nat2N.inj_succ, N.pow_succ_r' in Hn.
      apply N.Div0.div_lt_upper_bound. lia. }
    exists (ds ++ [chr (48 + n mod 10)]). split_and!.
    + by rewrite Heq, <- app_assoc.
    + apply Forall_app. split; [done|]. by repeat constructor.
    + rewrite digits_value_snoc, Hval, Hv. lia.
    + intros d Hd' Hpos. apply Hhd; [|lia].
      destruct ds; [done|]. by simpl in *.
    + by destruct ds.
Qed.

Lemma digits_spec n :
  Forall (fun c => is_digit c = true) (digits n) ∧
  digits_value 0 (digits n) = n ∧
  (∀ d, head (digits n) = Some d → (0 < n)%N → digit_val d ≠ 0%N) ∧ digits n ≠ [].
Proof.
  unfold digits.
  destruct (digits_aux_spec (N.to_nat (N.size n)) n []) as (ds & Heq & H).
  - rewrite Nat2N.inj_succ, N.pow_succ_r', N2Nat.id.
    pose proof (N.size_gt n). lia.
  - rewrite Heq, app_nil_r. exact H.
Qed.

Lemma lex_run_digits neg ds : ∀ a,
  Forall (fun c => is_digit c = true) ds →
  lex_run (LNum neg a) ds = Some ([], LNum neg (digits_value a ds)).
Proof.
  induction ds as [|c ds IH]; intros a Hall; [done|].
  apply Forall_cons in Hall as [Hc Hall]. simpl. rewrite Hc.
  by rewrite IH.
Qed.

Lemma lex_step_first_digit c :
  is_digit c = true → digit_val c ≠ 0%N →
  lex_step LNormal c = Some ([], LNum false (digit_val c)) ∧
  lex_step LMinus c = Some ([], LNum true (digit_val c)).
Proof.
  destruct c as [[] [] [] [] [] [] [] []]; intros Hd Hv; try done.
Qed.

Lemma lex_num_end neg n rest :
  ends_number rest →
  lex (LNum neg n) rest = (TNum (signed neg n) ::.) <$> lex LNormal rest.
Proof.
  destruct rest as [|c r]; [done|]. intros [Hd Hf]. simpl. rewrite Hd, Hf.
  destruct (lex_start c) as [[ts st']|]; [|done].
  by destruct (lex st' r).
Qed.

Lemma lex_digits_from st neg p rest :
  (∀ c, is_digit c = true → digit_val c ≠ 0%N →
        lex_step st c = Some ([], LNum neg (digit_val c))) →
  ends_number rest →
  lex st (digits (Npos p) ++ rest) =
  (TNum (signed neg (Npos p)) ::.) <$> lex LNormal rest.
Proof.
  intros Hst Hrest.
  destruct (digits_spec (Npos p)) as (Hall & Hval & Hhd & Hne).
  destruct (digits (Npos p)) as [|d ds]; [done|].
  apply Forall_cons in Hall as [Hd Hall].
  specialize (Hhd d eq_refl ltac:(lia)).
  change ((d :: ds) ++ rest) with ([d] ++ ds ++ rest).
  rewrite lex_app. simpl. rewrite (Hst d Hd Hhd). simpl.
  rewrite lex_app, lex_run_digits; [|done]. simpl.
  rewrite lex_num_end; [|done].
  assert (digits_value (digit_val d) ds = N.pos p) as ->.
  { rewrite <- Hval. unfold digits_value. simpl. done. }
  by destruct (lex LNormal rest).
Qed.

Lemma lex_int_text z rest :
  ends_number rest →
  lex LNormal (int_text z ++ rest) = (TNum z ::.) <$> lex LNormal rest.
Proof.
  intros Hrest. destruct z as [|p|p]; simpl int_text.
  - simpl. by destruct (lex LNormal rest).
  - rewrite (lex_digits_from LNormal false); [done| |done].
    intros c Hd Hv. by apply lex_step_first_digit.
  - assert (Heq : int_text (Z.neg p) ++ rest = [chr 45] ++ digits (N.pos p) ++ rest)
      by done.
    simpl int_text in Heq. rewrite Heq, lex_app. simpl lex_run. cbv iota beta.
    rewrite (lex_digits_from LMinus true);
      [|intros c Hd Hv; by apply lex_step_first_digit|done].
    by destruct (lex LNormal rest).
Qed.

Lemma lex_quote_text s rest :
  lex LNormal (quote_text s ++ rest) = (TStr s ::.) <$> lex LNormal rest.
Proof.
  rewrite lex_app, lex_run_quote_text. by destruct (lex LNormal rest).
Qed.

(** *** Values *)

Lemma lexes_to_fixed (s : text) ts :
  lex_run LNormal s = Some (ts, LNormal) → lexes_to s ts.
Proof. intros H rest _. by rewrite lex_app, H. Qed.

Lemma lex_fixed (s : text) ts rest :
  lex_run LNormal s = Some (ts, LNormal) →
  lex LNormal (s ++ rest) = (ts ++.) <$> lex LNormal rest.
Proof. intros H. by rewrite lex_app, H. Qed.

Lemma fmap_app_app (a b : list token) (o : option (list token)) :
  (a ++.) <$> ((b ++.) <$> o) = ((a ++ b) ++.) <$> o.
Proof. destruct o; simpl; [|done]. by rewrite app_assoc. Qed.

Lemma lexes_to_join parts toks :
  Forall2 lexes_to parts toks →
  lexes_to (join (str ", ") parts) (join [TComma] toks).
Proof.
  induction 1 as [|p t parts toks Hp Hrest IH];
    [intros rest _; simpl; by destruct (lex LNormal rest)|].
  destruct Hrest as [|p' t' parts' toks' Hp' Hrest']; [done|].
  intros rest Hr.
  change (join (str ", ") (p :: p' :: parts')) with
    (p ++ str ", " ++ join (str ", ") (p' :: parts')).
  change (join [TComma] (t :: t' :: toks')) with
    (t ++ [TComma] ++ join [TComma] (t' :: toks')).
  rewrite <- !app_assoc. rewrite Hp; [|exact (conj eq_refl eq_refl)].
  rewrite (lex_fixed (str ", ") [TComma]); [|done].
  rewrite IH; [|done]. destruct (lex LNormal rest); simpl; [|done].
  by rewrite <- !app_assoc.
Qed.

Lemma lex_dumps j : lexes_to (dumps j) (tokens_of j).
Proof.
  induction j as [| b | z | s | l IH | d IH] using json_ind'.
  - by apply lexes_to_fixed.
  - destruct b; by apply lexes_to_fixed.
  - intros rest Hr. simpl. by apply lex_int_text.
  - intros rest Hr. apply lex_quote_text.
  - intros rest Hr.
    change (dumps (JArr l)) with
      (str "[" ++ join (str ", ") (map dumps l) ++ str "]").
    change (tokens_of (JArr l)) with
      ([TLBrack] ++ join [TComma] (map tokens_of l) ++ [TRBrack]).
    rewrite <- !app_assoc. rewrite (lex_fixed (str "[") [TLBrack]); [|done].
    rewrite (lexes_to_join (map dumps l) (map tokens_of l));
      [| |exact (conj eq_refl eq_refl)].
    + rewrite (lex_fixed (str "]") [TRBrack]); [|done].
      destruct (lex LNormal rest); simpl; [|done]. by rewrite <- !app_assoc.
    + apply Forall2_fmap, Forall_Forall2_diag. done.
  - intros rest Hr.
    change (dumps (JObj d)) with
      (str "{" ++
       join (str ", ")
         (map (fun kv => quote_text (fst kv) ++ str ": " ++ dumps (snd kv)) d) ++
       str "}").
    change (tokens_of (JObj d)) with
      ([TLBrace] ++
       join [TComma]
         (map (fun kv => TStr (fst kv) :: TColon :: tokens_of (snd kv)) d) ++
       [TRBrace]).
    rewrite <- !app_assoc. rewrite (lex_fixed (str "{") [TLBrace]); [|done].
    rewrite (lexes_to_join _
               (map (fun kv => TStr (fst kv) :: TColon :: tokens_of (snd kv)) d));
      [| |exact (conj eq_refl eq_refl)].
    + rewrite (lex_fixed (str "}") [TRBrace]); [|done].
      destruct (lex LNormal rest); simpl; [|done]. by rewrite <- !app_assoc.
    + apply Forall2_fmap, Forall_Forall2_diag.
      eapply Forall_impl; [exact IH|]. intros [k v] Hv rest' Hr'. cbn [fst snd] in *.
      rewrite <- !app_assoc. rewrite lex_quote_text.
      rewrite (lex_fixed (str ": ") [TColon]); [|done].
      rewrite Hv; [|done]. by destruct (lex LNormal rest').
Qed.

(** *** Parsing the tokens of a value *)

Lemma tokens_of_head j :
  ∃ t ts, tokens_of j = t :: ts ∧ starts_value t = true.
Proof. destruct j as [|[]| | | |]; simpl; eauto. Qed.

Lemma tokens_of_length j : 0 < length (tokens_of j).
Proof. destruct (tokens_of_head j) as (t & ts & -> & _). simpl. lia. Qed.

Lemma join_cons_length {A} (sep : list A) p ps :
  length p ≤ length (join sep (p :: ps)).
Proof. destruct ps; simpl; [done|]. rewrite length_app. lia. Qed.

Lemma parse_items_S f acc ts :
  parse_items (S f) acc ts =
  match parse_value f ts with
  | Some (v, TComma :: r) => parse_items f (v :: acc) r
  | Some (v, TRBrack :: r) => Some (JArr (reverse (v :: acc)), r)
  | _ => None
  end.
Proof. done. Qed.

Lemma parse_members_S f acc k r :
  parse_members (S f) acc (TStr k :: TColon :: r) =
  match parse_value f r with
  | Some (v, TComma :: r') => parse_members f (assoc_set k v acc) r'
  | Some (v, TRBrace :: r') => Some (JObj (assoc_set k v acc), r')
  | _ => None
  end.
Proof. done. Qed.

Lemma parse_items_tokens l :
  Forall parses_back l → l ≠ [] →
  ∀ fuel acc r,
    length (join [TComma] (map tokens_of l)) + 1 < fuel →
    parse_items fuel acc (join [TComma] (map tokens_of l) ++ TRBrack :: r) =
    Some (JArr (reverse acc ++ l), r).
Proof.
  induction 1 as [|x l Hx Hl IH]; [done|]. intros _ fuel acc r Hfuel.
  pose proof (tokens_of_length x) as Hlen.
  destruct fuel as [|fuel]; [lia|]. rewrite parse_items_S.
  destruct l as [|y l].
  - change (join [TComma] (map tokens_of [x])) with (tokens_of x) in *.
    rewrite Hx; [|lia]. by rewrite reverse_cons.
  - change (join [TComma] (map tokens_of (x :: y :: l))) with
      (tokens_of x ++ [TComma] ++ join [TComma] (map tokens_of (y :: l))) in *.
    rewrite <- !app_assoc. rewrite !length_app in Hfuel. cbn [length] in Hfuel.
    rewrite Hx; [|lia]. cbn [app].
    rewrite IH; [|done|lia]. by rewrite reverse_cons, <- app_assoc.
Qed.

Lemma assoc_set_fresh {V} (k : text) (v : V) d :
  k ∉ map fst d → assoc_set k v d = d ++ [(k, v)].
Proof.
  induction d as [|[k' v'] d IH]; simpl; [done|].
  intros [Hne Hnin]%not_elem_of_cons. rewrite decide_False; [|done].
  by rewrite IH.
Qed.

Lemma parse_members_tokens d :
  Forall (fun kv => parses_back (snd kv)) d → d ≠ [] →
  ∀ fuel acc r,
    NoDup (map fst (acc ++ d)) →
    length (join [TComma]
              (map (fun kv => TStr (fst kv) :: TColon :: tokens_of (snd kv)) d)) + 1
      < fuel →
    parse_members fuel acc
      (join [TComma]
         (map (fun kv => TStr (fst kv) :: TColon :: tokens_of (snd kv)) d) ++
       TRBrace :: r) =
    Some (JObj (acc ++ d), r).
Proof.
  induction 1 as [|[k v] d Hx Hl IH]; [done|]. intros _ fuel acc r Hnd Hfuel.
  destruct fuel as [|fuel]; [lia|].
  assert (Hk : k ∉ map fst acc).
  { rewrite map_app in Hnd. apply NoDup_app in Hnd as (_ & Hd & _).
    intros Hin. apply (Hd k Hin). simpl. left. }
  destruct d as [|y d].
  - change (join [TComma]
              (map (fun kv => TStr (fst kv) :: TColon :: tokens_of (snd kv)) [(k, v)]))
      with (TStr k :: TColon :: tokens_of v) in *.
    cbn [app length] in *. rewrite parse_members_S. cbn [snd] in Hx.
    rewrite Hx; [|lia]. by rewrite assoc_set_fresh.
  - change (join [TComma]
              (map (fun kv => TStr (fst kv) :: TColon :: tokens_of (snd kv))
                 ((k, v) :: y :: d))) with
      ([TStr k; TColon] ++ tokens_of v ++ [TComma] ++
       join [TComma]
         (map (fun kv => TStr (fst kv) :: TColon :: tokens_of (snd kv)) (y :: d))) in *.
    rewrite <- !app_assoc. rewrite !length_app in Hfuel. cbn [app length] in *.
    rewrite parse_members_S. cbn [snd] in Hx.
    rewrite Hx; [|lia].
    rewrite IH; [|done| |lia].
    + rewrite assoc_set_fresh; [|done]. by rewrite <- app_assoc.
    + rewrite assoc_set_fresh; [|done]. by rewrite <- app_assoc.
Qed.

Lemma parse_value_open_arr f t ts :
  starts_value t = true →
  parse_value (S f) (TLBrack :: t :: ts) = parse_items f [] (t :: ts).
Proof. by destruct t. Qed.

Lemma parse_tokens j : wf_json j → parses_back j.
Proof.
  induction j as [| b | z | s | l IH | d IH] using json_ind'; intros Hwf fuel r Hfuel;
    (destruct fuel as [|fuel]; [simpl in Hfuel; lia|]).
  - done.
  - by destruct b.
  - done.
  - done.
  - apply wf_json_arr in Hwf.
    assert (Hall : Forall parses_back l).
    { apply Forall_forall. intros x Hx.
      eapply Forall_forall in IH; [|done]. eapply Forall_forall in Hwf; [|done]. auto. }
    destruct l as [|x l]; [done|].
    pose proof (parse_items_tokens (x :: l) Hall ltac:(done) fuel [] r) as Hp.
    assert (Heq : tokens_of (JArr (x :: l)) ++ r =
                  TLBrack :: (join [TComma] (map tokens_of (x :: l)) ++ TRBrack :: r)).
    { change (tokens_of (JArr (x :: l))) with
        (TLBrack :: join [TComma] (map tokens_of (x :: l)) ++ [TRBrack]).
      by rewrite <- app_comm_cons, <- app_assoc. }
    assert (Hlen : length (tokens_of (JArr (x :: l))) =
                   S (S (length (join [TComma] (map tokens_of (x :: l)))))).
    { change (tokens_of (JArr (x :: l))) with
        (TLBrack :: join [TComma] (map tokens_of (x :: l)) ++ [TRBrack]).
      cbn [length]. rewrite length_app. simpl. lia. }
    rewrite Heq. rewrite Hlen in Hfuel.
    destruct (tokens_of_head x) as (t & ts & Hhd & Hst).
    assert (Hj : ∃ ts', join [TComma] (map tokens_of (x :: l)) = t :: ts').
    { simpl. rewrite Hhd. destruct (map tokens_of l); simpl; eauto. }
    destruct Hj as [ts' Hj]. rewrite Hj in *. cbn [app] in *.
    rewrite parse_value_open_arr; [|done]. apply Hp. lia.
  - apply wf_json_obj in Hwf as [Hnd Hwf].
    assert (Hall : Forall (fun kv => parses_back (snd kv)) d).
    { apply Forall_forall. intros x Hx.
      eapply Forall_forall in IH; [|done]. eapply Forall_forall in Hwf; [|done]. auto. }
    destruct d as [|[k v] d]; [done|].
    pose proof (parse_members_tokens ((k, v) :: d) Hall ltac:(done) fuel [] r Hnd) as Hp.
    set (J := join [TComma]
         (map (fun kv => TStr (fst kv) :: TColon :: tokens_of (snd kv)) ((k, v) :: d))) in *.
    assert (Heq : tokens_of (JObj ((k, v) :: d)) ++ r = TLBrace :: (J ++ TRBrace :: r)).
    { change (tokens_of (JObj ((k, v) :: d))) with (TLBrace :: J ++ [TRBrace]).
      by rewrite <- app_comm_cons, <- app_assoc. }
    assert (Hlen : length (tokens_of (JObj ((k, v) :: d))) = S (S (length J))).
    { change (tokens_of (JObj ((k, v) :: d))) with (TLBrace :: J ++ [TRBrace]).
      cbn [length]. rewrite length_app. simpl. lia. }
    rewrite Heq. rewrite Hlen in Hfuel.
    assert (Hj : ∃ ts', J = TStr k :: ts').
    { unfold J. simpl. destruct (map _ d); simpl; eauto. }
    destruct Hj as [ts' Hj]. rewrite Hj in *. cbn [app] in *.
    change (parse_value (S fuel) (TLBrace :: TStr k :: ts' ++ TRBrace :: r)) with
      (parse_members fuel [] (TStr k :: ts' ++ TRBrace :: r)).
    apply Hp. lia.
Qed.

(** *** Round trip *)

Theorem loads_dumps j ws :
  wf_json j → ws = [] ∨ ws = [nl] → loads (dumps j ++ ws) = Some j.
Proof.
  intros Hwf Hws. unfold loads.
  rewrite lex_dumps; [|by destruct Hws as [->| ->]].
  assert (lex LNormal ws = Some []) as -> by (by destruct Hws as [->| ->]).
  change ((tokens_of j ++.) <$> Some []) with (Some (tokens_of j ++ [])).
  rewrite app_nil_r.
  pose proof (parse_tokens j Hwf (S (length (tokens_of j))) [] ltac:(lia)) as Hp.
  rewrite app_nil_r in Hp. cbv beta iota. by rewrite Hp.
Qed.

(** *** What the parser returns is well formed *)

Lemma assoc_set_Forall {V} (P : V → Prop) (k : text) (v : V) d :
  P v → Forall (fun kv => P (snd kv)) d →
  Forall (fun kv => P (snd kv)) (assoc_set k v d).
Proof.
  intros Hv. induction 1 as [|[k' v'] d Hx Hd IH]; simpl; [by repeat constructor|].
  destruct (decide (k' = k)); constructor; done.
Qed.

Lemma parse_value_inv fuel ts j r :
  parse_value (S fuel) ts = Some (j, r) →
  (∃ t, ts = t :: r ∧ token_depth t = 0%Z ∧ wf_json j) ∨
  (ts = TLBrack :: TRBrack :: r ∧ j = JArr []) ∨
  (∃ ts', ts = TLBrack :: ts' ∧ parse_items fuel [] ts' = Some (j, r)) ∨
  (ts = TLBrace :: TRBrace :: r ∧ j = JObj []) ∨
  (∃ ts', ts = TLBrace :: ts' ∧ parse_members fuel [] ts' = Some (j, r)).
Proof.
  intros H. simpl in H. destruct ts as [|t ts]; [done|].
  destruct t; try done; simplify_eq; try (left; eexists; by split_and!).
  - destruct ts as [|t' ts']; [eauto 10|]. destruct t'; simplify_eq; eauto 10.
  - destruct ts as [|t' ts']; [eauto 10|]. destruct t'; simplify_eq; eauto 10.
Qed.

Lemma parse_wf fuel :
  (∀ ts j r, parse_value fuel ts = Some (j, r) → wf_json j) ∧
  (∀ acc ts j r, Forall wf_json acc → parse_items fuel acc ts = Some (j, r) → wf_json j) ∧
  (∀ acc ts j r, wf_json (JObj acc) → parse_members fuel acc ts = Some (j, r) → wf_json j).
Proof.
  induction fuel as [|fuel (IHv & IHi & IHm)]; [done|]. split_and!.
  - intros ts j r H.
    apply parse_value_inv in H
      as [(t & -> & _ & Hj)|[[-> ->]|[(ts' & -> & H)|[[-> ->]|(ts' & -> & H)]]]].
    + done.
    + done.
    + eapply IHi; [|done]. constructor.
    + apply wf_json_obj. split; constructor.
    + eapply IHm; [|done]. apply wf_json_obj. split; constructor.
  - intros acc ts j r Hacc H. simpl in H.
    destruct (parse_value fuel ts) as [[v [|[] r']]|] eqn:E; try done.
    + simplify_eq. apply wf_json_arr. rewrite reverse_cons.
      apply Forall_app. split; [by apply Forall_reverse|].
      repeat constructor. by eapply IHv.
    + eapply IHi; [|done]. constructor; [by eapply IHv|done].
  - intros acc ts j r Hacc H. simpl in H.
    destruct ts as [|[] [|[] ts]]; try done.
    apply wf_json_obj in Hacc as [Hnd Hacc].
    destruct (parse_value fuel ts) as [[v [|[] r']]|] eqn:E; try done.
    + simplify_eq. apply wf_json_obj. split; [by apply assoc_set_NoDup|].
      apply assoc_set_Forall; [by eapply IHv|done].
    + eapply IHm; [|done]. apply wf_json_obj. split; [by apply assoc_set_NoDup|].
      apply assoc_set_Forall; [by eapply IHv|done].
Qed.

Lemma loads_wf s j : loads s = Some j → wf_json j.
Proof.
  unfold loads. intros H. destruct (lex LNormal s) as [ts|]; [|done].
  destruct (parse_value (S (length ts)) ts) as [[v [|]]|] eqn:E; [|done..].
  simplify_eq. by eapply (proj1 (parse_wf _)).
Qed.

(** *** Bracket depth *)

Lemma depth_app a b : depth (a ++ b) = (depth a + depth b)%Z.
Proof. induction a as [|t a IH]; simpl; [done|]. rewrite IH. lia. Qed.

Lemma value_shape_scalar t : token_depth t = 0%Z → value_shape [t].
Proof.
  intros Ht. split_and!.
  - simpl. lia.
  - done.
  - intros [|t' p] q H; simpl in *; [lia|].
    simplify_eq. destruct p; [|done]. simpl. lia.
  - intros [|t' p] q H Hp Hq; [done|]. simplify_eq. by destruct p, q.
Qed.

Lemma value_shape_bracket t c :
  token_depth t = 1%Z → closes c → value_shape (t :: c).
Proof.
  intros Ht [Hd Hpre]. split_and!.
  - simpl. lia.
  - done.
  - intros [|t' p] q H; [simpl; lia|].
    injection H as <- ->. simpl.
    destruct q as [|t'' q].
    + rewrite app_nil_r in Hd. lia.
    + specialize (Hpre p (t'' :: q) eq_refl ltac:(done)). lia.
  - intros [|t' p] q H Hp Hq; [done|]. injection H as <- ->. simpl.
    specialize (Hpre p q eq_refl Hq). lia.
Qed.

Lemma closes_single t : token_depth t = (-1)%Z → closes [t].
Proof.
  intros Ht. split; [simpl; lia|].
  intros [|t' p] q H Hq; [simpl; lia|]. simplify_eq. by destruct p, q.
Qed.

Lemma closes_end v t :
  value_shape v → token_depth t = (-1)%Z → closes (v ++ [t]).
Proof.
  intros (Hd & Hne & Hpre & _) Ht. split.
  - rewrite depth_app, Hd. simpl. lia.
  - intros p q H Hq. apply app_eq_inv in H as [(m & Hv & Hm)|(m & Hp & Hm)].
    + subst. by eapply Hpre.
    + destruct m as [|t' m]; [rewrite app_nil_r in Hp; subst; lia|].
      injection Hm as <- Hm. by destruct m, q.
Qed.

Lemma closes_sep v t c :
  value_shape v → token_depth t = 0%Z → closes c → closes (v ++ t :: c).
Proof.
  intros (Hd & Hne & Hpre & _) Ht [Hc Hcp]. split.
  - rewrite depth_app, Hd. simpl. lia.
  - intros p q H Hq. apply app_eq_inv in H as [(m & Hv & Hm)|(m & Hp & Hm)].
    + subst. by eapply Hpre.
    + subst. rewrite depth_app, Hd.
      destruct m as [|t' m]; [simpl; lia|]. injection Hm as <- Hm. simpl.
      specialize (Hcp m q Hm Hq). lia.
Qed.

Lemma closes_cons t c : token_depth t = 0%Z → closes c → closes (t :: c).
Proof.
  intros Ht [Hd Hp]. split; [simpl; lia|].
  intros [|t' p] q H Hq; [simpl; lia|]. injection H as <- H. simpl.
  specialize (Hp p q H Hq). lia.
Qed.

Lemma parse_balanced fuel :
  (∀ ts j r, parse_value fuel ts = Some (j, r) → ∃ c, ts = c ++ r ∧ value_shape c) ∧
  (∀ acc ts j r, parse_items fuel acc ts = Some (j, r) → ∃ c, ts = c ++ r ∧ closes c) ∧
  (∀ acc ts j r, parse_members fuel acc ts = Some (j, r) → ∃ c, ts = c ++ r ∧ closes c).
Proof.
  induction fuel as [|fuel (IHv & IHi & IHm)]; [done|]. split_and!.
  - intros ts j r H.
    apply parse_value_inv in H
      as [(t & -> & Ht & _)|[[-> ->]|[(ts' & -> & H)|[[-> ->]|(ts' & -> & H)]]]].
    + exists [t]. split; [done|]. by apply value_shape_scalar.
    + exists [TLBrack; TRBrack]. split; [done|].
      apply value_shape_bracket; [done|]. by apply closes_single.
    + apply IHi in H as (c & -> & Hclose). exists (TLBrack :: c).
      split; [done|]. by apply value_shape_bracket.
    + exists [TLBrace; TRBrace]. split; [done|].
      apply value_shape_bracket; [done|]. by apply closes_single.
    + apply IHm in H as (c & -> & Hclose). exists (TLBrace :: c).
      split; [done|]. by apply value_shape_bracket.
  - intros acc ts j r H. simpl in H.
    destruct (parse_value fuel ts) as [[v [|t r']]|] eqn:E; try done.
    apply IHv in E as (cv & -> & Hv).
    destruct t; try done.
    + simplify_eq. exists (cv ++ [TRBrack]). split; [by rewrite <- app_assoc|].
      by apply closes_end.
    + apply IHi in H as (c & -> & Hc). exists (cv ++ TComma :: c).
      split; [by rewrite <- app_assoc|]. by apply closes_sep.
  - intros acc ts j r H. simpl in H.
    destruct ts as [|[] [|[] ts]]; try done.
    destruct (parse_value fuel ts) as [[v [|t r']]|] eqn:E; try done.
    apply IHv in E as (cv & -> & Hv).
    assert (Hkv : value_shape (cv)) by done.
    destruct t; try done.
    + simplify_eq. exists (TStr s :: TColon :: cv ++ [TRBrace]).
      split; [simpl; by rewrite <- app_assoc|].
      do 2 (apply closes_cons; [done|]). by apply closes_end.
    + apply IHm in H as (c & -> & Hc).
      exists (TStr s :: TColon :: cv ++ TComma :: c).
      split; [simpl; by rewrite <- app_assoc|].
      do 2 (apply closes_cons; [done|]). by apply closes_sep.
Qed.

(** *** A run started in the middle of a text *)

Ltac split_char c := destruct c as [[] [] [] [] [] [] [] []].

Lemma out_state_lit rest t :
  out_state (LLit rest t) = true →
  token_depth t = 0%Z ∧
  (rest = str "rue" ∨ rest = str "ue" ∨ rest = str "e" ∨ rest = str "alse" ∨
   rest = str "lse" ∨ rest = str "se" ∨ rest = str "ull" ∨ rest = str "ll" ∨
   rest = str "l").
Proof.
  simpl. intros [H Ht]%andb_prop. apply bool_decide_eq_true in H, Ht.
  split; [done|]. unfold lit_tails in H.
  repeat (apply elem_of_cons in H as [->|H]; [tauto|]). by apply elem_of_nil in H.
Qed.

Lemma lex_start_out c E st :
  lex_start c = Some (E, st) →
  (code c = 34%N ∧ E = [] ∧ st = LStr []) ∨ (code c ≠ 34%N ∧ code c ≠ 92%N ∧ out_state st = true).
Proof.
  split_char c; intros H; vm_compute in H; simplify_eq;
    (left; by split_and!) || (right; by split_and!).
Qed.

Lemma lex_step_out st c E st' :
  out_state st = true → lex_step st c = Some (E, st') →
  (code c = 34%N ∧ depth E = 0%Z ∧ st' = LStr []) ∨
  (code c ≠ 34%N ∧ code c ≠ 92%N ∧ out_state st' = true).
Proof.
  intros Hout H. destruct st as [| | | |neg n| |rest t]; try done.
  - apply lex_start_out in H as [(?&->&?)|?]; [left|right]; done.
  - simpl in H. destruct (is_digit c) eqn:Ed.
    + simplify_eq. right. split_and!; [| |done]; intros Hc;
        unfold is_digit in Ed; rewrite Hc in Ed; done.
    + destruct (starts_fraction c); [done|].
      destruct (lex_start c) as [[ts st'']|] eqn:Es; [|done]. simplify_eq.
      apply lex_start_out in Es as [(?&->&?)|?]; [left|right]; done.
  - simpl in H. split_char c; vm_compute in H; simplify_eq; right; by split_and!.
  - apply out_state_lit in Hout as [Ht Hout].
    destruct Hout as [->|[->|[->|[->|[->|[->|[->|[->| ->]]]]]]]];
      simpl in H; case_decide; simplify_eq; right; (split_and!; [done|done|]);
      simpl; by rewrite ?Ht.
Qed.

Lemma lex_step_str acc c E st' :
  lex_step (LStr acc) c = Some (E, st') →
  (code c = 34%N ∧ depth E = 0%Z ∧ st' = LNormal) ∨
  (code c = 92%N ∧ E = [] ∧ st' = LEsc acc) ∨
  (code c ≠ 34%N ∧ code c ≠ 92%N ∧ E = [] ∧ st' = LStr (c :: acc)).
Proof.
  simpl. destruct (code c =? 34)%N eqn:E1.
  { intros; simplify_eq. left. apply N.eqb_eq in E1. done. }
  destruct (code c =? 92)%N eqn:E2.
  { intros; simplify_eq. right; left. apply N.eqb_eq in E2. done. }
  destruct (code c <? 32)%N; [done|]. intros; simplify_eq.
  right; right. apply N.eqb_neq in E1, E2. done.
Qed.

Lemma doomed_step st1 st2 c E1 st1' E2 st2' :
  doomed st1 st2 = true →
  lex_step st1 c = Some (E1, st1') → lex_step st2 c = Some (E2, st2') →
  doomed st1' st2' = true.
Proof.
  intros Hd H1 H2.
  destruct st1 as [|a1| | | | |].
  2:{ (* the first run is in a string *)
      simpl in Hd.
      apply lex_step_str in H1 as [(Hc&_&->)|[(Hc&_&->)|(Hc&Hc'&_&->)]];
        apply (lex_step_out _ _ _ _ Hd) in H2 as [(Hc2&_&->)|(Hc2&Hc2'&Hout)];
        try congruence; done. }
  all: destruct st2 as [|a2| | | | |]; try done.
  all: apply lex_step_str in H2 as [(Hc&_&->)|[(Hc&_&->)|(Hc&Hc'&_&->)]];
       apply (lex_step_out _ _ _ _ Hd) in H1 as [(Hc1&_&->)|(Hc1&Hc1'&Hout)];
       try congruence; try done.
  all: by destruct st1'.
Qed.

Lemma doomed_fails t : ∀ st1 st2,
  doomed st1 st2 = true → is_Some (lex st1 t) → lex st2 t = None.
Proof.
  induction t as [|c t IH]; intros st1 st2 Hd [O H1].
  - destruct st1, st2; done.
  - simpl in *. destruct (lex_step st1 c) as [[E1 st1']|] eqn:Es1; [|done].
    destruct (lex_step st2 c) as [[E2 st2']|] eqn:Es2; [|done].
    rewrite (IH st1' st2'); [done|by eapply doomed_step|].
    destruct (lex st1' t); [eauto|done].
Qed.

Lemma synced_refl st : synced st st.
Proof. by left. Qed.

Lemma lex_step_esc a c E st :
  lex_step (LEsc a) c = Some (E, st) →
  E = [] ∧ ((∃ x, st = LStr (x :: a)) ∨ (st = LUni a 3 0%N ∧ code c = 117%N)).
Proof.
  split_char c; intros H; vm_compute in H; simplify_eq; split; eauto.
Qed.

Lemma lex_step_uni a m cp c E st :
  lex_step (LUni a m cp) c = Some (E, st) →
  E = [] ∧ is_Some (hex_val c) ∧
  ((∃ a', st = LStr a') ∨ (∃ m', m = S m' ∧ st = LUni a m' (16 * cp + default 0%N (hex_val c))%N)).
Proof.
  simpl. destruct (hex_val c) as [h|]; [|done].
  destruct m as [|m'].
  - destruct (utf8 _); [|done]. intros; simplify_eq. eauto 10.
  - intros; simplify_eq. eauto 10.
Qed.

(** Outside a string, only a bracket changes the depth. *)
Lemma lex_start_depth c E st :
  lex_start c = Some (E, st) →
  depth E = 0%Z ∨ code c = 123%N ∨ code c = 125%N ∨ code c = 91%N ∨ code c = 93%N.
Proof.
  split_char c; intros H; vm_compute in H; simplify_eq; tauto.
Qed.

Lemma lex_step_out_depth st c E st' :
  out_state st = true → lex_step st c = Some (E, st') →
  depth E = 0%Z ∨ code c = 123%N ∨ code c = 125%N ∨ code c = 91%N ∨ code c = 93%N.
Proof.
  intros Hout H. destruct st as [| | | |neg n| |rest t]; try done.
  - by apply lex_start_depth in H.
  - simpl in H. destruct (is_digit c); [simplify_eq; by left|].
    destruct (starts_fraction c); [done|].
    destruct (lex_start c) as [[ts st'']|] eqn:Es; [|done]. simplify_eq.
    apply lex_start_depth in Es. simpl. destruct Es as [->|?]; [by left|by right].
  - simpl in H. repeat case_match; simplify_eq; by left.
  - apply out_state_lit in Hout as [Ht _]. simpl in H.
    repeat case_match; simplify_eq; left; simpl; lia.
Qed.

Lemma hex_not_bracket c :
  is_Some (hex_val c) →
  code c ≠ 123%N ∧ code c ≠ 125%N ∧ code c ≠ 91%N ∧ code c ≠ 93%N ∧ code c ≠ 34%N.
Proof. split_char c; intros [h H]; vm_compute in H; by simplify_eq. Qed.

Lemma lex_start_digit c :
  is_digit c = true →
  lex_start c = Some ([TNum 0], LNormal) ∨ lex_start c = Some ([], LNum false (digit_val c)).
Proof. split_char c; intros H; vm_compute in H; try done; vm_compute; tauto. Qed.

Lemma lex_step_minus c E st :
  lex_step LMinus c = Some (E, st) →
  is_digit c = true ∧
  ((E = [TNum 0] ∧ st = LNormal ∧ lex_start c = Some ([TNum 0], LNormal)) ∨
   (E = [] ∧ st = LNum true (digit_val c) ∧
    lex_start c = Some ([], LNum false (digit_val c)))).
Proof.
  split_char c; intros H; vm_compute in H; simplify_eq; split; try done;
    (left; by split_and!) || (right; by split_and!).
Qed.

Lemma lex_step_lit_start rest t c E st :
  out_state (LLit rest t) = true →
  lex_step (LLit rest t) c = Some (E, st) → lex_start c = None.
Proof.
  intros [_ Hout]%out_state_lit H.
  destruct Hout as [->|[->|[->|[->|[->|[->|[->|[->| ->]]]]]]]];
    simpl in H; case_decide; by simplify_eq.
Qed.

Lemma lex_step_esc_pair a a' c E st E' st' :
  lex_step (LEsc a) c = Some (E, st) → lex_step (LEsc a') c = Some (E', st') →
  E = [] ∧ E' = [] ∧
  ((∃ x, st = LStr (x :: a) ∧ st' = LStr (x :: a')) ∨
   (st = LUni a 3 0%N ∧ st' = LUni a' 3 0%N)).
Proof.
  split_char c; intros H H'; vm_compute in H, H'; simplify_eq; split_and!; eauto.
Qed.

Lemma lex_step_num neg n c E st :
  lex_step (LNum neg n) c = Some (E, st) →
  (is_digit c = true ∧ E = [] ∧ st = LNum neg (10 * n + digit_val c)%N) ∨
  (is_digit c = false ∧ ∃ ts, lex_start c = Some (ts, st) ∧ E = TNum (signed neg n) :: ts).
Proof.
  simpl. destruct (is_digit c); [intros; simplify_eq; left; done|].
  destruct (starts_fraction c); [done|].
  destruct (lex_start c) as [[ts st'']|]; [|done]. intros; simplify_eq. right; eauto.
Qed.

(** One step of two runs that agree. *)
Lemma synced_step st1 st2 c E1 st1' E2 st2' :
  synced st1 st2 →
  lex_step st1 c = Some (E1, st1') → lex_step st2 c = Some (E2, st2') →
  (synced st1' st2' ∧ depth E2 = depth E1) ∨ doomed st1' st2' = true.
Proof.
  intros [->|Hs] H1 H2.
  { simplify_eq. left. split; [apply synced_refl|done]. }
  destruct st1 as [|a|a|a m cp|neg n| |rest t]; try done.
  - (* both in a string *)
    destruct st2; try done.
    apply lex_step_str in H1 as [(Hc&?&->)|[(Hc&->&->)|(Hc&Hc'&->&->)]];
      apply lex_step_str in H2 as [(Hd&?&->)|[(Hd&->&->)|(Hd&Hd'&->&->)]];
      try congruence; left; (split; [(by right) || (by left)|]); congruence.
  - (* the first run after a backslash *)
    destruct (out_state st2) eqn:Hout.
    + apply lex_step_esc in H1 as (-> & [[x ->]|[-> Hu]]).
      * apply (lex_step_out _ _ _ _ Hout) in H2 as [(?&?&->)|(?&?&Hout')];
          [left; split; [by right|done]|right; done].
      * pose proof H2 as Hd. apply (lex_step_out_depth _ _ _ _ Hout) in Hd.
        apply (lex_step_out _ _ _ _ Hout) in H2 as [(?&?&->)|(?&?&Hout')];
          [congruence|].
        left. split; [right; by destruct st2'|].
        destruct Hd as [->|Hd]; [done|]. rewrite Hu in Hd. naive_solver.
    + destruct st2 as [|a2|a2| | | |]; try done.
      destruct (lex_step_esc_pair _ _ _ _ _ _ _ H1 H2) as (->&->&[(x&->&->)|[-> ->]]);
        left; (split; [by right|done]).
  - (* the first run in a unicode escape *)
    destruct (out_state st2) eqn:Hout.
    + apply lex_step_uni in H1 as (-> & Hh & Hst).
      apply hex_not_bracket in Hh as (?&?&?&?&?).
      pose proof H2 as Hd. apply (lex_step_out_depth _ _ _ _ Hout) in Hd.
      apply (lex_step_out _ _ _ _ Hout) in H2 as [(?&?&->)|(?&?&Hout')];
          [congruence|].
      destruct Hst as [[a' ->]|(m'&->&->)]; [right; done|].
      left. split; [right; by destruct st2'|]. naive_solver.
    + destruct st2 as [|a2|a2|a2 m2 cp2| | |]; try done. destruct Hs as [<- <-].
      simpl in H1, H2. destruct (hex_val c) as [h|]; [|done].
      destruct m as [|m'].
      * destruct (utf8 _); [|done]. simplify_eq. left. split; [by right|done].
      * simplify_eq. left. split; [by right|done].
  - (* the first run in a number *)
    destruct st2 as [| | | |neg2 n2| |]; try done.
    + apply lex_step_num in H1 as [(Hd&->&->)|(Hd&ts&Hs1&->)].
      * simpl in H2. destruct (lex_start_digit _ Hd) as [Hs2|Hs2];
          rewrite Hs2 in H2; simplify_eq; left; (split; [by right|done]).
      * simpl in H2. simplify_eq. left. split; [by left|done].
    + apply lex_step_num in H1 as [(Hd&->&->)|(Hd&ts&Hs1&->)];
        apply lex_step_num in H2 as [(Hd2&->&->)|(Hd2&ts2&Hs2&->)]; try congruence.
      * left. split; [by right|done].
      * simplify_eq. left. split; [by left|done].
  - (* the first run after a minus sign *)
    destruct st2; try done.
    apply lex_step_minus in H1 as (Hd & [(->&->&Hs1)|(->&->&Hs1)]);
      simpl in H2; simplify_eq; left; (split; [(by right) || (by left)|done]).
  - (* the first run in a literal *)
    destruct st2; try done.
    apply (lex_step_lit_start _ _ _ _ _ Hs) in H1. simpl in H2. congruence.
Qed.

(** Two runs that agree emit tokens of the same depth, when both reach
    the end of the text. *)
Lemma synced_depth t : ∀ st1 st2 O F,
  synced st1 st2 → lex st1 t = Some O → lex st2 t = Some F → depth F = depth O.
Proof.
  induction t as [|c t IH]; intros st1 st2 O F Hs H1 H2.
  - destruct Hs as [->|Hs]; [congruence|].
    destruct st1, st2; simpl in *; simplify_eq; done.
  - simpl in H1, H2.
    destruct (lex_step st1 c) as [[E1 st1']|] eqn:Es1; [|done].
    destruct (lex_step st2 c) as [[E2 st2']|] eqn:Es2; [|done].
    destruct (lex st1' t) as [O'|] eqn:El1; [|done].
    destruct (lex st2' t) as [F'|] eqn:El2; [|done]. simplify_eq.
    destruct (synced_step _ _ _ _ _ _ _ Hs Es1 Es2) as [[Hs' Hd]|Hd].
    + rewrite !depth_app, Hd. f_equal. by eapply IH.
    + rewrite (doomed_fails t st1' st2') in El2; [done|done|eauto].
Qed.

(** *** The suffix of a serialized dict *)

Lemma lex_start_lit_ok c E st : lex_start c = Some (E, st) → lit_ok st.
Proof. split_char c; intros H; vm_compute in H; by simplify_eq. Qed.

Lemma lex_step_lit_ok st c E st' :
  lit_ok st → lex_step st c = Some (E, st') → lit_ok st'.
Proof.
  intros Hok H. destruct st as [|a|a|a m cp|neg n| |rest t].
  - by eapply lex_start_lit_ok.
  - apply lex_step_str in H as [(_&_&->)|[(_&_&->)|(_&_&_&->)]]; done.
  - apply lex_step_esc in H as (_ & [[x ->]|[-> _]]); done.
  - apply lex_step_uni in H as (_ & _ & [[a' ->]|(m'&_&->)]); done.
  - apply lex_step_num in H as [(_&_&->)|(_&ts&Hs&_)]; [done|].
    by eapply lex_start_lit_ok.
  - apply lex_step_minus in H as (_ & [(_&->&_)|(_&->&_)]); done.
  - simpl in Hok. pose proof Hok as Hok'. apply out_state_lit in Hok as [Ht Hr].
    destruct Hr as [->|[->|[->|[->|[->|[->|[->|[->| ->]]]]]]]];
      simpl in H; case_decide; simplify_eq; simpl; by rewrite ?Ht.
Qed.

Lemma lex_run_lit_ok s : ∀ st E st',
  lit_ok st → lex_run st s = Some (E, st') → lit_ok st'.
Proof.
  induction s as [|c s IH]; intros st E st' Hok H; simpl in H; [by simplify_eq|].
  destruct (lex_step st c) as [[E1 st1]|] eqn:Es; [|done].
  destruct (lex_run st1 s) as [[E2 st2]|] eqn:Er; [|done]. simplify_eq.
  eapply IH; [|done]. by eapply lex_step_lit_ok.
Qed.

Lemma lit_ok_start st : lit_ok st → synced st LNormal ∨ doomed st LNormal = true.
Proof.
  destruct st; intros Hok; try (left; by right); try (by right). left; by left.
Qed.

(** A run that reads a closing brace and the end of the line emits a token. *)
Lemma lex_closing_brace st O : lex st [chr 125; nl] = Some O → O ≠ [].
Proof.
  destruct st as [|a|a|a m cp|neg n| |rest t]; try (by vm_compute; intros; simplify_eq).
  all: destruct rest as [|x [|y [|z rest]]]; simpl; repeat case_decide; simpl;
    intros; simplify_eq; try done.
  all: repeat case_decide; simpl in *; by simplify_eq.
Qed.

Lemma lex_run_nonempty_brace s E st :
  lex_run LNormal (chr 123 :: s) = Some (E, st) → E ≠ [].
Proof.
  simpl. change (lex_start (chr 123)) with (Some ([TLBrace], LNormal)).
  destruct (lex_run LNormal s) as [[E' st']|]; intros; by simplify_eq.
Qed.

Lemma tokens_shape j : wf_json j → value_shape (tokens_of j).
Proof.
  intros Hwf.
  pose proof (parse_tokens j Hwf (S (length (tokens_of j))) [] ltac:(lia)) as Hp.
  apply (proj1 (parse_balanced _)) in Hp as (c & Hc & Hs).
  rewrite !app_nil_r in Hc. by subst.
Qed.

(** Read from the middle of a line that holds one bracketed value, the
    rest of the line is not a JSON document. *)
Lemma suffix_fails s W k :
  lex LNormal (s ++ [nl]) = Some W → value_shape W →
  (∃ s', s = chr 123 :: s') → (∃ s', s = s' ++ [chr 125]) →
  0 < k < length s →
  loads (drop k s ++ [nl]) = None.
Proof.
  intros Hlex (HdW & _ & _ & Hin) [s0 Hs0] [s1 Hs1] Hk.
  destruct (loads (drop k s ++ [nl])) as [v|] eqn:Hl; [exfalso|done].
  (* the run over the whole line *)
  rewrite <-(take_drop k s), <-app_assoc, lex_app in Hlex.
  destruct (lex_run LNormal (take k s)) as [[E σ]|] eqn:Hrun; [|done].
  destruct (lex σ (drop k s ++ [nl])) as [O|] eqn:HO; [|done].
  injection Hlex as HW.
  (* the run over the rest of the line *)
  unfold loads in Hl. destruct (lex LNormal (drop k s ++ [nl])) as [F|] eqn:HF; [|done].
  destruct (parse_value (S (length F)) F) as [[v' [|]]|] eqn:Hp; [|done..].
  apply (proj1 (parse_balanced _)) in Hp as (c & Hc & Hshape).
  rewrite app_nil_r in Hc. subst c. destruct Hshape as (HdF & _).
  destruct (lit_ok_start σ) as [Hs|Hd].
  { eapply lex_run_lit_ok; [|done]. done. }
  2:{ rewrite (doomed_fails _ _ _ Hd) in HF; [done|eauto]. }
  pose proof (synced_depth _ _ _ _ _ Hs HO HF) as HdO.
  (* the tokens before and after the position *)
  assert (HE : E ≠ []).
  { rewrite Hs0 in Hrun. destruct k as [|k]; [lia|].
    rewrite firstn_cons in Hrun.
    eapply (lex_run_nonempty_brace (take k s0)), Hrun. }
  assert (HOne : O ≠ []).
  { assert (Hdrop : drop k s = drop k s1 ++ [chr 125]).
    { rewrite Hs1, drop_app_le; [done|]. rewrite Hs1, length_app in Hk. simpl in Hk. lia. }
    rewrite Hdrop, <-app_assoc, lex_app in HO.
    destruct (lex_run σ (drop k s1)) as [[O1 σ']|]; [|done].
    destruct (lex σ' ([chr 125] ++ [nl])) as [O2|] eqn:H2; [|done].
    apply lex_closing_brace in H2. simpl in HO. simplify_eq.
    intros [_ ?]%app_eq_nil. done. }
  specialize (Hin E O (eq_sym HW) HE HOne).
  rewrite <-HW, depth_app in HdW. lia.
Qed.

Lemma lex_dumps_line j : lex LNormal (dumps j ++ [nl]) = Some (tokens_of j).
Proof.
  rewrite (lex_dumps j [nl] (conj eq_refl eq_refl)).
  change (lex LNormal [nl]) with (Some (@nil token)).
  cbn [fmap option_fmap option_map]. by rewrite app_nil_r.
Qed.

Lemma loads_suffix d k :
  wf_json (JObj d) → 0 < k < length (dumps (JObj d)) →
  loads (drop k (dumps (JObj d)) ++ [nl]) = None.
Proof.
  intros Hwf Hk. eapply suffix_fails; [apply lex_dumps_line|by apply tokens_shape| | |done].
  - eexists. reflexivity.
  - eexists. cbn [dumps]. rewrite app_assoc. reflexivity.
Qed.

(** ** The text of a log *)

Lemma escape_char_no_nl c : nl ∉ escape_char c.
Proof.
  split_char c; intros H;
    repeat (apply elem_of_cons in H as [H|H]; [done|]); by apply elem_of_nil in H.
Qed.

Lemma escape_no_nl s : nl ∉ escape s.
Proof.
  unfold escape. induction s as [|c s IH]; simpl; [apply not_elem_of_nil|].
  rewrite elem_of_app. intros [H|H]; [by apply escape_char_no_nl in H|done].
Qed.

Lemma quote_text_no_nl s : nl ∉ quote_text s.
Proof.
  unfold quote_text. rewrite not_elem_of_cons, elem_of_app, list_elem_of_singleton.
  split; [done|]. intros [H|H]; [by apply escape_no_nl in H|done].
Qed.

Lemma digits_no_nl n : nl ∉ digits n.
Proof.
  destruct (digits_spec n) as (Hd & _). intros H.
  rewrite Forall_forall in Hd. by apply Hd in H.
Qed.

Lemma int_text_no_nl z : nl ∉ int_text z.
Proof.
  destruct z as [|p|p]; cbn [int_text].
  - intros H. repeat (apply elem_of_cons in H as [H|H]; [done|]). by apply elem_of_nil in H.
  - apply digits_no_nl.
  - apply not_elem_of_cons. split; [done|apply digits_no_nl].
Qed.

Lemma join_no_nl (sep : text) parts :
  nl ∉ sep → Forall (fun p => nl ∉ p) parts → nl ∉ join sep parts.
Proof.
  intros Hsep. induction 1 as [|p ps Hp Hps IH]; [apply not_elem_of_nil|].
  destruct ps as [|q ps]; [done|].
  change (join sep (p :: q :: ps)) with (p ++ sep ++ join sep (q :: ps)).
  rewrite !elem_of_app. tauto.
Qed.

Lemma dumps_no_nl j : nl ∉ dumps j.
Proof.
  assert (Hsep : nl ∉ str ", ").
  { intros H. repeat (apply elem_of_cons in H as [H|H]; [done|]). by apply elem_of_nil in H. }
  induction j as [| b | z | s | l IH | d IH] using json_ind'.
  - intros H. repeat (apply elem_of_cons in H as [H|H]; [done|]). by apply elem_of_nil in H.
  - destruct b; intros H;
      repeat (apply elem_of_cons in H as [H|H]; [done|]); by apply elem_of_nil in H.
  - apply int_text_no_nl.
  - apply quote_text_no_nl.
  - cbn [dumps]. rewrite !elem_of_app. intros [H|[H|H]].
    + apply list_elem_of_singleton in H. done.
    + revert H. apply join_no_nl; [done|]. by rewrite Forall_fmap.
    + apply list_elem_of_singleton in H. done.
  - cbn [dumps]. rewrite !elem_of_app. intros [H|[H|H]].
    + apply list_elem_of_singleton in H. done.
    + revert H. apply join_no_nl; [done|]. rewrite Forall_fmap.
      eapply Forall_impl; [exact IH|]. intros [k v] Hv. unfold compose. cbn [fst snd] in *.
      rewrite !elem_of_app. intros [H|[H|H]]; [by apply quote_text_no_nl in H| |done].
      repeat (apply elem_of_cons in H as [H|H]; [done|]). by apply elem_of_nil in H.
    + apply list_elem_of_singleton in H. done.
Qed.

Lemma log_text_cons e es : log_text (e :: es) = dumps e ++ nl :: log_text es.
Proof. unfold log_text. simpl. by rewrite <-app_assoc. Qed.

Lemma log_text_app es es' : log_text (es ++ es') = log_text es ++ log_text es'.
Proof. unfold log_text. by rewrite fmap_app, concat_app. Qed.

Lemma file_lines_line a r :
  nl ∉ a → file_lines (a ++ nl :: r) = (a ++ [nl]) :: file_lines r.
Proof.
  induction a as [|c a IH]; intros Ha; cbn [app file_lines split_nl].
  - by rewrite decide_True.
  - apply not_elem_of_cons in Ha as [Hc Ha].
    rewrite decide_False by done. by rewrite IH.
Qed.

Lemma file_lines_log_text es :
  file_lines (log_text es) = map (fun e => dumps e ++ [nl]) es.
Proof.
  induction es as [|e es IH]; [done|].
  rewrite log_text_cons, file_lines_line by apply dumps_no_nl. by rewrite IH.
Qed.

Lemma nonblank_dict d rest : nonblank (dumps (JObj d) ++ rest) = true.
Proof. done. Qed.

Lemma loads_blank_line : loads [nl] = None.
Proof. done. Qed.

(** Whatever the position, a line read from it either is a whole line of
    the log or does not parse. *)
Lemma file_lines_drop es : ∀ k,
  Forall wf_dict es →
  Forall (fun l => ∀ j, loads l = Some j → j ∈ es) (file_lines (drop k (log_text es))).
Proof.
  induction es as [|e es IH]; intros k Hes.
  { unfold log_text. simpl. by rewrite drop_nil. }
  apply Forall_cons in Hes as [[Hd Hwf] Hes].
  assert (Hrest : ∀ k', Forall (fun l => ∀ j, loads l = Some j → j ∈ e :: es)
                          (file_lines (drop k' (log_text es)))).
  { intros k'. eapply Forall_impl; [by apply IH|]. simpl. intros l Hl j Hj.
    apply elem_of_cons. right. by apply Hl. }
  rewrite log_text_cons.
  destruct (decide (k ≤ length (dumps e))) as [Hk|Hk].
  - rewrite drop_app_le by done.
    rewrite file_lines_line.
    2:{ intros H. apply (dumps_no_nl e).
        rewrite <-(take_drop k (dumps e)). apply elem_of_app. by right. }
    apply Forall_cons. split; [|apply (Hrest 0)].
    intros j Hj. destruct (decide (k = 0)) as [->|Hk0].
    + rewrite drop_0, (loads_dumps e [nl]) in Hj by auto. simplify_eq. by left.
    + destruct (decide (k = length (dumps e))) as [->|Hk1].
      * by rewrite drop_all in Hj.
      * destruct e as [| | | | |d]; try done.
        rewrite loads_suffix in Hj; [done|done|lia].
  - rewrite drop_app_ge by lia.
    destruct (k - length (dumps e)) as [|k'] eqn:Ek; [lia|]. simpl. apply Hrest.
Qed.

(** *** Splitting the stripped text *)

Lemma split_nl_single a : nl ∉ a → split_nl a = [a].
Proof.
  induction a as [|c a IH]; [done|]. intros [Hc Ha]%not_elem_of_cons. simpl.
  rewrite decide_False by done. by rewrite IH.
Qed.

Lemma split_nl_line a r : nl ∉ a → split_nl (a ++ nl :: r) = a :: split_nl r.
Proof.
  induction a as [|c a IH]; intros Ha; cbn [app file_lines split_nl].
  - by rewrite decide_True.
  - apply not_elem_of_cons in Ha as [Hc Ha].
    rewrite decide_False by done. by rewrite IH.
Qed.

Lemma split_nl_log_text es e :
  split_nl (log_text es ++ dumps e) = map dumps es ++ [dumps e].
Proof.
  induction es as [|e' es IH]; simpl.
  - apply split_nl_single, dumps_no_nl.
  - rewrite log_text_cons, <-app_assoc. simpl.
    rewrite split_nl_line by apply dumps_no_nl. by rewrite IH.
Qed.

Lemma strip_line s c s0 s1 c' :
  s = c :: s0 → is_space c = false → s = s1 ++ [c'] → is_space c' = false →
  strip (s ++ [nl]) = s.
Proof.
  intros Hs Hc Hs' Hc'. unfold strip.
  assert (H1 : lstrip (s ++ [nl]) = s ++ [nl]).
  { rewrite Hs. simpl. by rewrite Hc. }
  rewrite H1, reverse_snoc.
  assert (H2 : lstrip (nl :: reverse s) = reverse s).
  { rewrite Hs', reverse_snoc. simpl. by rewrite Hc'. }
  by rewrite H2, reverse_involutive.
Qed.

Lemma log_text_snoc es e : log_text (es ++ [e]) = (log_text es ++ dumps e) ++ [nl].
Proof. rewrite log_text_app. unfold log_text at 2. simpl. by rewrite app_nil_r, app_assoc. Qed.

Lemma strip_log_text es d :
  Forall is_dict es →
  strip (log_text (es ++ [JObj d])) = log_text es ++ dumps (JObj d).
Proof.
  intros Hes. rewrite log_text_snoc.
  assert (Hhead : ∃ s, log_text es ++ dumps (JObj d) = chr 123 :: s).
  { destruct es as [|[| | | | |d0] es]; try (by inversion Hes); eexists.
    - reflexivity.
    - rewrite log_text_cons. reflexivity. }
  assert (Hlast : ∃ s, log_text es ++ dumps (JObj d) = s ++ [chr 125]).
  { eexists. cbn [dumps]. rewrite !app_assoc. reflexivity. }
  destruct Hhead as [s0 Hs0], Hlast as [s1 Hs1].
  by eapply strip_line.
Qed.

Lemma read_events_dumps es :
  Forall wf_dict es → read_events (map dumps es) = Ok es.
Proof.
  induction 1 as [|e es [Hd Hwf] Hes IH]; [done|].
  destruct e as [| | | | |d]; try done.
  cbn [map read_events].
  rewrite <-(app_nil_r (dumps (JObj d))) at 1. rewrite nonblank_dict.
  rewrite <-(app_nil_r (dumps (JObj d))), (loads_dumps (JObj d) []) by auto.
  by rewrite IH.
Qed.

(** The events a rewrite reads back are the events of the log. *)
Lemma read_events_log_text es :
  Forall wf_dict es → read_events (split_nl (strip (log_text es))) = Ok es.
Proof.
  intros Hes. destruct es as [|e0 es0] using rev_ind; [done|]. clear IHes0.
  pose proof Hes as Hes'. apply Forall_app in Hes' as [Hes0 [[Hd Hwf] _]%Forall_cons].
  destruct e0 as [| | | | |d]; try done.
  rewrite strip_log_text.
  2:{ eapply Forall_impl; [exact Hes0|]. by intros ? []. }
  rewrite split_nl_log_text.
  change [dumps (JObj d)] with (map dumps [JObj d]). rewrite <-map_app.
  by apply read_events_dumps.
Qed.

Lemma parse_lines_log_text es :
  Forall wf_dict es → parse_lines (file_lines (log_text es)) = Ok es.
Proof.
  rewrite file_lines_log_text.
  induction 1 as [|e es [Hd Hwf] Hes IH]; [done|].
  destruct e as [| | | | |d]; try done.
  cbn [map parse_lines]. rewrite nonblank_dict, (loads_dumps (JObj d) [nl]) by auto.
  by rewrite IH.
Qed.


(** ** Values built by the hook *)

Lemma assoc_get_elem {V} (k : text) (v : V) d : assoc_get k d = Some v → (k, v) ∈ d.
Proof.
  induction d as [|[k' v'] d IH]; simpl; [done|].
  destruct (decide (k' = k)) as [->|]; intros H.
  - simplify_eq. by left.
  - right. by apply IH.
Qed.

Lemma wf_assoc_get d k v : wf_json (JObj d) → assoc_get k d = Some v → wf_json v.
Proof.
  intros [_ Hd]%wf_json_obj Hk%assoc_get_elem.
  rewrite Forall_forall in Hd. by apply Hd in Hk.
Qed.

Lemma wf_assoc_set d k v :
  wf_json (JObj d) → wf_json v → wf_json (JObj (assoc_set k v d)).
Proof.
  intros [Hnd Hd]%wf_json_obj Hv. apply wf_json_obj. split.
  - by apply assoc_set_NoDup.
  - by apply assoc_set_Forall.
Qed.

Lemma wf_default d k v0 :
  wf_json (JObj d) → wf_json v0 → wf_json (default v0 (assoc_get k d)).
Proof.
  intros Hd Hv. destruct (assoc_get k d) as [v|] eqn:E; simpl; [|done].
  by eapply wf_assoc_get.
Qed.

Lemma wf_nil_obj : wf_json (JObj []).
Proof. apply wf_json_obj. split; constructor. Qed.

(** A dict written with literal keys. *)
Ltac wf_literal :=
  apply wf_json_obj; split;
  [apply (bool_decide_unpack _); vm_compute; reflexivity
  |repeat (apply Forall_cons; split; [cbn [snd]; try done; try exact I|]);
   try (by apply Forall_nil)].

Lemma source_of_wf b source : wf_json (JObj b) → source_of b = Ok source → wf_json (JObj source).
Proof.
  intros Hb. unfold source_of.
  destruct (assoc_get (str "source") b) as [[| | | | |s]|] eqn:E; intros; simplify_eq.
  - by eapply wf_assoc_get.
  - apply wf_nil_obj.
Qed.

Lemma normalize_media_type_wf fb m mt : normalize_media_type fb m = Ok mt → wf_json mt.
Proof.
  unfold normalize_media_type. destruct m as [[| | |t| |]|]; try case_bool_decide;
    intros; by simplify_eq.
Qed.

Lemma url_ref_wf source url idx :
  wf_json (JObj source) → wf_json url → wf_json (url_ref source url idx).
Proof. intros Hs Hu. unfold url_ref. wf_literal. by apply wf_default. Qed.

Lemma log_error_files env e ty w : session_files (log_error env e ty w) = session_files w.
Proof. unfold log_error. by destruct (fails_error_log env). Qed.

Lemma store_image_ok env sid fb mt data idx name_of w r w' :
  wf_json mt → store_image env sid fb mt data idx name_of w = (r, w') →
  session_files w' = session_files w ∧ ∀ ref, r = Ok ref → wf_json ref.
Proof.
  intros Hmt. unfold store_image. destruct (b64decode env data) as [bytes|e].
  2:{ intros; simplify_eq. done. }
  assert (Hwf : ∀ path,
    wf_json (JObj [(str "type", JStr (str "image")); (str "path", JStr path);
                   (str "media_type", mt);
                   (str "size", JNum (Z.of_nat (length bytes)));
                   (str "index", JNum (Z.of_nat idx))])) by (intros; wf_literal).
  destruct (image_files w !! _).
  - intros; simplify_eq. split; [done|]. intros; simplify_eq. apply Hwf.
  - destruct (fails_write_image env); intros; simplify_eq; [done|].
    split; [done|]. intros; simplify_eq. apply Hwf.
Qed.

(** The image references collected from a prompt or a transcript are well
    formed, and collecting them leaves the session files alone. *)
Lemma prompt_blocks_ok env sid eid blocks : ∀ idx tp ir w r w',
  Forall wf_json blocks → Forall wf_json ir →
  prompt_blocks env sid eid idx blocks tp ir w = (r, w') →
  session_files w' = session_files w ∧
  ∀ tps irs, r = Ok (tps, irs) → Forall wf_json irs.
Proof.
  induction blocks as [|block rest IH]; intros idx tp ir w r w' Hbs Hir H.
  { simpl in H. simplify_eq. split; [done|]. intros; by simplify_eq. }
  apply Forall_cons in Hbs as [Hb Hrest]. cbn [prompt_blocks] in H.
  destruct block as [| | | | |b]; try (by eapply IH).
  destruct (is_str "text" _); [by eapply IH|].
  destruct (is_str "image" _); [|by eapply IH].
  destruct (source_of b) as [source|e] eqn:Es; [|by simplify_eq].
  pose proof (source_of_wf _ _ Hb Es) as Hsrc.
  destruct (is_str "base64" _).
  - destruct (normalize_media_type _ _) as [mt|e] eqn:Em; [|by simplify_eq].
    apply normalize_media_type_wf in Em.
    destruct (truthy _); [|by eapply IH].
    destruct (store_image _ _ _ _ _ _ _ _) as [[ref|e] w1] eqn:Est;
      destruct (store_image_ok _ _ _ _ _ _ _ _ _ _ Em Est) as [Hf Hr].
    + apply IH in H as [Hf' Hr']; [|done|].
      * split; [congruence|done].
      * apply Forall_app. split; [done|]. apply Forall_singleton. by apply Hr.
    + apply IH in H as [Hf' Hr']; [|done|done].
      split; [|done]. by rewrite Hf', log_error_files.
  - destruct (is_str "url" _); [|by eapply IH].
    destruct (truthy _); [|by eapply IH].
    eapply IH; [done| |done].
    apply Forall_app. split; [done|]. apply Forall_singleton.
    apply url_ref_wf; [done|]. by apply wf_default.
Qed.

Lemma extract_images_from_prompt_ok env blocks sid eid w r w' :
  Forall wf_json blocks →
  extract_images_from_prompt env blocks sid eid w = (r, w') →
  session_files w' = session_files w ∧
  ∀ t irs, r = Ok (t, irs) → Forall wf_json irs.
Proof.
  intros Hbs. unfold extract_images_from_prompt.
  destruct (prompt_blocks _ _ _ _ _ _ _ _) as [[[tps irs]|e] w1] eqn:E;
    apply prompt_blocks_ok in E as [Hf Hr]; try done.
  - destruct (join_parts tps); intros; simplify_eq; (split; [done|]);
      intros; simplify_eq. by eapply Hr.
  - intros; simplify_eq. done.
Qed.

Lemma transcript_blocks_ok env sid um blocks : ∀ bi im w r w',
  Forall wf_json blocks → Forall wf_json im →
  transcript_blocks env sid um bi blocks im w = (r, w') →
  session_files w' = session_files w ∧ ∀ ims, r = Ok ims → Forall wf_json ims.
Proof.
  induction blocks as [|block rest IH]; intros bi im w r w' Hbs Him H.
  { simpl in H. simplify_eq. split; [done|]. intros; by simplify_eq. }
  apply Forall_cons in Hbs as [Hb Hrest]. cbn [transcript_blocks] in H.
  destruct block as [| | | | |b]; try (by eapply IH).
  destruct (negb (is_str "image" _)); [by eapply IH|].
  destruct (source_of b) as [source|e] eqn:Es; [|by simplify_eq].
  pose proof (source_of_wf _ _ Hb Es) as Hsrc.
  destruct (is_str "base64" _).
  - destruct (negb (truthy _)); [by eapply IH|].
    destruct (normalize_media_type _ _) as [mt|e] eqn:Em; [|by simplify_eq].
    apply normalize_media_type_wf in Em.
    destruct (store_image _ _ _ _ _ _ _ _) as [[ref|e] w1] eqn:Est;
      destruct (store_image_ok _ _ _ _ _ _ _ _ _ _ Em Est) as [Hf Hr].
    + apply IH in H as [Hf' Hr']; [|done|].
      * split; [congruence|done].
      * apply Forall_app. split; [done|]. apply Forall_singleton. by apply Hr.
    + apply IH in H as [Hf' Hr']; [|done|done].
      split; [|done]. by rewrite Hf', log_error_files.
  - destruct (is_str "url" _); [|by eapply IH].
    destruct (truthy _); [|by eapply IH].
    eapply IH; [done| |done].
    apply Forall_app. split; [done|]. apply Forall_singleton.
    apply url_ref_wf; [done|]. by apply wf_default.
Qed.

Lemma message_content_wf entry c :
  wf_json (JObj entry) → message_content entry = Ok c → wf_json c.
Proof.
  intros He. unfold message_content.
  destruct (assoc_get (str "message") entry) as [[| | | | |m]|] eqn:E; intros; simplify_eq.
  - apply wf_default; [|done]. by eapply wf_assoc_get.
  - done.
Qed.

Lemma transcript_lines_ok env sid lines : ∀ um acc w refs w',
  wf_refs acc →
  transcript_lines env sid lines um acc w = (refs, w') →
  session_files w' = session_files w ∧ wf_refs refs.
Proof.
  induction lines as [|line rest IH]; intros um acc w refs w' Hacc H.
  { simpl in H. by simplify_eq. }
  cbn [transcript_lines] in H.
  destruct (negb (nonblank line)); [by eapply IH|].
  destruct (loads line) as [entry|] eqn:El; [|by eapply IH].
  apply loads_wf in El.
  destruct entry as [| | | | |entry];
    try (simplify_eq; split; [apply log_error_files|done]).
  destruct (negb (is_str "user" _)); [by eapply IH|].
  destruct (message_content entry) as [c|e] eqn:Ec.
  2:{ simplify_eq. split; [apply log_error_files|done]. }
  apply (message_content_wf _ _ El) in Ec.
  destruct c as [| | | |blocks|]; try (by eapply IH).
  destruct (transcript_blocks _ _ _ _ _ _ _) as [[ims|e] w1] eqn:Eb;
    apply transcript_blocks_ok in Eb as [Hf Hr]; try done;
    try (by apply wf_json_arr).
  - apply IH in H as [Hf' Hr']; [split; [congruence|done]|].
    destruct ims; [done|]. apply Forall_app. split; [done|].
    apply Forall_singleton. by apply Hr.
  - simplify_eq. split; [|done]. by rewrite log_error_files.
Qed.

Lemma extract_images_from_transcript_ok env tp sid w refs w' :
  extract_images_from_transcript env tp sid w = (refs, w') →
  session_files w' = session_files w ∧ wf_refs refs.
Proof.
  unfold extract_images_from_transcript.
  destruct tp as [| | |p| |]; try (intros; simplify_eq; split;
    [apply log_error_files|by apply Forall_nil]).
  destruct (transcripts w !! p).
  - apply transcript_lines_ok. by apply Forall_nil.
  - intros; simplify_eq. split; [done|by apply Forall_nil].
Qed.

(** The response taken from a transcript is well formed. *)
Lemma first_text_block_wf blocks t :
  Forall wf_json blocks → first_text_block blocks = Ok (Some t) → wf_json t.
Proof.
  induction 1 as [|b blocks Hb Hbs IH]; [done|]. simpl.
  destruct b as [| | | | |b]; try done.
  destruct (is_str "text" _); [|done]. intros; simplify_eq. by apply wf_default.
Qed.

Lemma scan_response_wf lines : wf_json (scan_response lines).
Proof.
  induction lines as [|line rest IH]; [done|]. simpl.
  destruct (nonblank line); [|done].
  destruct (loads line) as [[| | | | |entry]|] eqn:El; try done.
  apply loads_wf in El. destruct (is_str "assistant" _); [|done].
  destruct (message_content entry) as [c|e] eqn:Ec; [|done].
  apply (message_content_wf _ _ El) in Ec.
  destruct c as [| | |[|]|blocks|[|]]; try done.
  destruct (first_text_block blocks) as [[t|]|] eqn:Et; try done.
  eapply first_text_block_wf; [|done]. by apply wf_json_arr.
Qed.

Lemma get_response_wf tp w : wf_json (get_response tp w).
Proof.
  unfold get_response. destruct tp; try done.
  destruct (transcripts w !! s); [apply scan_response_wf|done].
Qed.

(** ** The session files stay logs of events *)

Lemma grows_refl L : grows L L.
Proof. intros sid es H. eauto. Qed.

Lemma grows_trans L1 L2 L3 : grows L1 L2 → grows L2 L3 → grows L1 L3.
Proof.
  intros H12 H23 sid es H. destruct (H12 _ _ H) as (es2 & H2 & Hs2).
  destruct (H23 _ _ H2) as (es3 & H3 & Hs3). exists es3. split; [done|].
  by etrans.
Qed.

Lemma grows_insert L sid es' :
  (∀ es, L !! sid = Some es → omap logged_id es ⊆ omap logged_id es') →
  grows L (<[sid := es']> L).
Proof.
  intros Hsub sid' es H. destruct (decide (sid' = sid)) as [->|Hne].
  - exists es'. rewrite lookup_insert_eq. split; [done|by apply Hsub].
  - exists es. by rewrite lookup_insert_ne.
Qed.

Lemma logs_ok_files w w' L :
  session_files w' = session_files w → logs_ok w L → logs_ok w' L.
Proof. intros Hf [H1 H2]. split; [congruence|done]. Qed.

Lemma logs_ok_lookup w L sid content :
  logs_ok w L → session_files w !! sid = Some content →
  ∃ es, L !! sid = Some es ∧ content = log_text es ∧ Forall (ok_event sid) es.
Proof.
  intros [Hf Hok] H. rewrite Hf, lookup_fmap in H.
  destruct (L !! sid) as [es|] eqn:E; [|done]. simpl in H. simplify_eq. eauto.
Qed.

Lemma logs_ok_lookup_None w L sid :
  logs_ok w L → session_files w !! sid = None → L !! sid = None.
Proof.
  intros [Hf Hok] H. rewrite Hf, lookup_fmap in H.
  by destruct (L !! sid).
Qed.

Lemma logs_ok_set w L sid es :
  logs_ok w L → Forall (ok_event sid) es →
  logs_ok (set_session_file sid (log_text es) w) (<[sid := es]> L).
Proof.
  intros [Hf Hok] Hes. split.
  - simpl. by rewrite Hf, fmap_insert.
  - intros sid' es' H. destruct (decide (sid' = sid)) as [->|Hne].
    + rewrite lookup_insert_eq in H. by simplify_eq.
    + rewrite lookup_insert_ne in H by done. by eapply Hok.
Qed.

Lemma ok_event_wf_dict sid es : Forall (ok_event sid) es → Forall wf_dict es.
Proof. intros H. eapply Forall_impl; [exact H|]. by intros e [? _]. Qed.


(** [append_events] *)
Lemma append_events_logs env sid new w L r w' :
  logs_ok w L → Forall (ok_event sid) new →
  append_events env sid new w = (r, w') →
  ∃ L', logs_ok w' L' ∧ grows L L'.
Proof.
  intros Hl Hnew. unfold append_events.
  destruct (fails_append env); intros; simplify_eq.
  { exists L. split; [done|apply grows_refl]. }
  exists (<[sid := default [] (L !! sid) ++ new]> L).
  destruct (session_files w !! sid) as [content|] eqn:E.
  - destruct (logs_ok_lookup _ _ _ _ Hl E) as (es & HL & -> & Hes).
    rewrite HL. simpl. rewrite <-log_text_app. split.
    + apply logs_ok_set; [done|]. apply Forall_app. done.
    + apply grows_insert. intros es0 H0. simplify_eq.
      rewrite omap_app. intros x Hx. apply elem_of_app. by left.
  - rewrite (logs_ok_lookup_None _ _ _ Hl E). simpl. split.
    + by apply logs_ok_set.
    + apply grows_insert. intros es0 H0.
      rewrite (logs_ok_lookup_None _ _ _ Hl E) in H0. done.
Qed.

(** [update_session_with_images] *)
Lemma ok_event_set_images sid refs e :
  Forall wf_json refs → ok_event sid e → ok_event sid (set_images refs e).
Proof.
  intros Hrefs ([Hd Hwf] & [i Hi] & Hs). destruct e as [| | | | |d]; try done.
  unfold ok_event, wf_dict, jget in *. cbn [set_images]. split_and!.
  - done.
  - apply wf_assoc_set; [done|]. by apply wf_json_arr.
  - exists i. by rewrite assoc_get_set_ne.
  - by rewrite assoc_get_set_ne.
Qed.

Lemma logged_id_set_images refs e : logged_id (set_images refs e) = logged_id e.
Proof.
  destruct e as [| | | | |d]; try done. unfold logged_id. simpl.
  by rewrite assoc_get_set_ne.
Qed.

Lemma omap_logged_id_insert (es : list json) : ∀ (i : nat) e e',
  es !! i = Some e → logged_id e' = logged_id e →
  omap logged_id (<[i := e']> es) = omap logged_id es.
Proof.
  induction es as [|x es IH]; intros i e e' Hi He; [done|].
  destruct i as [|i]; simpl in *.
  - simplify_eq. by rewrite He.
  - by erewrite IH.
Qed.

Lemma patch_images_ok sid indices refs : ∀ es u es' u',
  wf_refs refs → Forall (ok_event sid) es →
  patch_images indices refs es u = (es', u') →
  Forall (ok_event sid) es' ∧ omap logged_id es' = omap logged_id es.
Proof.
  induction refs as [|[msg_idx image_refs] refs IH]; intros es u es' u' Hrefs Hes H.
  { simpl in H. by simplify_eq. }
  apply Forall_cons in Hrefs as [Hr Hrefs]. cbn [patch_images] in H.
  destruct (indices !! msg_idx) as [event_idx|]; [|by eapply IH].
  destruct (es !! event_idx) as [event|] eqn:Ee; [|by eapply IH].
  destruct (has_images event); [by eapply IH|].
  apply IH in H as [H1 H2]; [|done|].
  - split; [done|]. rewrite H2. eapply omap_logged_id_insert; [done|].
    apply logged_id_set_images.
  - apply Forall_insert; [done|]. apply ok_event_set_images; [done|].
    rewrite Forall_forall in Hes. eapply Hes, list_elem_of_lookup_2, Ee.
Qed.

Lemma update_session_with_images_logs env sid refs w L :
  logs_ok w L → wf_refs refs →
  ∃ L', logs_ok (update_session_with_images env sid refs w) L' ∧ grows L L'.
Proof.
  intros Hl Hrefs. unfold update_session_with_images.
  destruct refs as [|p refs]; [exists L; split; [done|apply grows_refl]|].
  destruct (session_files w !! sid) as [content|] eqn:E;
    [|exists L; split; [done|apply grows_refl]].
  destruct (logs_ok_lookup _ _ _ _ Hl E) as (es & HL & -> & Hes).
  rewrite read_events_log_text by by eapply ok_event_wf_dict.
  destruct (patch_images _ _ _ _) as [es' [|]] eqn:Ep;
    [|exists L; split; [done|apply grows_refl]].
  destruct (fails_rewrite_session env).
  { exists L. split; [|apply grows_refl].
    eapply logs_ok_files; [apply log_error_files|done]. }
  apply (patch_images_ok sid) in Ep as [Hes' Hids]; [|done|done].
  exists (<[sid := es']> L). split; [by apply logs_ok_set|].
  apply grows_insert. intros es0 H0. simplify_eq. by rewrite Hids.
Qed.

(** [process_event] *)
Lemma ok_event_set sid d k v :
  ok_event sid (JObj d) → wf_json v → k ≠ str "id" → k ≠ str "session_id" →
  ok_event sid (JObj (assoc_set k v d)).
Proof.
  intros ([Hd Hwf] & [i Hi] & Hs) Hv Hk1 Hk2.
  unfold ok_event, wf_dict, jget in *. split_and!.
  - done.
  - by apply wf_assoc_set.
  - exists i. by rewrite assoc_get_set_ne.
  - by rewrite assoc_get_set_ne.
Qed.

Lemma ok_event_literal sid i rest :
  wf_json (JObj ((str "id", JStr i) :: rest)) →
  assoc_get (str "session_id") ((str "id", JStr i) :: rest) = Some (JStr sid) →
  ok_event sid (JObj ((str "id", JStr i) :: rest)).
Proof.
  intros Hwf Hs. split; [by split|]. split; [|exact Hs].
  exists i. reflexivity.
Qed.

Lemma finish_event_logs env ty sid n data event w L r w' :
  env_ok env → logs_ok w L → ok_event sid (JObj event) →
  finish_event env ty sid (JStr sid) n data event w = (r, w') →
  ∃ L', logs_ok w' L' ∧ grows L L'.
Proof.
  intros Henv Hl Hev H. unfold finish_event in H.
  destruct (extract_content env ty data) as [content|e] eqn:Ec.
  2:{ simplify_eq. exists L. split; [done|apply grows_refl]. }
  assert (Hev1 : ok_event sid (JObj
            match content with
            | Some c => if truthy c then assoc_set (str "content") c event else event
            | None => event
            end)).
  { destruct content as [c|]; [|done]. destruct (truthy c); [|done].
    apply ok_event_set; [done|by eapply Henv|done|done]. }
  revert H Hev1.
  generalize (match content with
              | Some c => if truthy c then assoc_set (str "content") c event else event
              | None => event
              end).
  intros event1 H Hev1. cbv zeta in H.
  assert (Hw : ∀ written : result unit * World,
            (∃ L', logs_ok written.2 L' ∧ grows L L') →
            match written with
            | (Raise e, w1) => (Raise e, w1)
            | (Ok _, w1) =>
                if bool_decide (ty ∈ markdown_events) then
                  match generate_markdown env sid with
                  | Ok _ => (Ok (JObj event1), w1)
                  | Raise _ => (Ok (JObj event1), w1)
                  end
                else (Ok (JObj event1), w1)
            end = (r, w') →
            ∃ L', logs_ok w' L' ∧ grows L L').
  { intros [[[]|e] w1] HL Hr; simpl in HL; repeat case_match; by simplify_eq. }
  eapply Hw; [|exact H]. clear H Hw.
  destruct (bool_decide (ty = str "Stop") && truthy_opt _).
  2:{ destruct (append_events env sid [JObj event1] w) as [r1 w1] eqn:Ea.
      eapply append_events_logs; [done| |done]. by apply Forall_singleton. }
  match goal with |- context [append_events env sid ?evs w] =>
    assert (Hevs : Forall (ok_event sid) evs); [|
    destruct (append_events env sid evs w) as [[[]|e] w1] eqn:Ea;
    (apply (append_events_logs _ _ _ _ L) in Ea as (L1 & Hl1 & Hg1); [|done|done])] end.
  { destruct (truthy _); [|by apply Forall_singleton].
    apply Forall_cons. split; [done|]. apply Forall_singleton.
    apply ok_event_literal; [|done].
    wf_literal; try apply get_response_wf. wf_literal. apply get_response_wf. }
  - destruct (extract_images_from_transcript _ _ _ _) as [refs w2] eqn:Ex.
    apply extract_images_from_transcript_ok in Ex as [Hf Hrefs].
    destruct (update_session_with_images_logs env sid refs w2 L1) as (L2 & Hl2 & Hg2);
      [by eapply logs_ok_files|done|].
    exists L2. split; [done|]. by eapply grows_trans.
  - eauto.
Qed.

Lemma process_event_logs env ty stdin_data w L r w' :
  env_ok env → logs_ok w L → wf_json stdin_data → session_id_is_text stdin_data →
  process_event env ty stdin_data w = (r, w') →
  ∃ L', logs_ok w' L' ∧ grows L L'.
Proof.
  intros Henv Hl Hwf Hsid H. unfold process_event in H.
  destruct stdin_data as [| | | | |sd];
    try (simplify_eq; exists L; split; [done|apply grows_refl]).
  match type of H with (if ?b then _ else _) = _ => destruct b end.
  { simplify_eq; exists L; split; [done|apply grows_refl]. }
  unfold session_id_is_text in Hsid.
  assert (Hs : ∃ s, default (JStr (str "unknown")) (assoc_get (str "session_id") sd) = JStr s).
  { revert Hsid.
    destruct (assoc_get (str "session_id") sd) as [[| | |s| |]|]; try done; simpl; eauto. }
  destruct Hs as [s Hs]. rewrite Hs in H. cbn [session_key] in H. cbv zeta in H.
  assert (Hdata : wf_json (default (JObj sd) (assoc_get (str "data") sd))).
  { by apply wf_default. }
  revert H Hdata. generalize (default (JObj sd) (assoc_get (str "data") sd)).
  intros data H Hdata.
  assert (Hev : ∀ n, ok_event s
            (JObj [(str "id", JStr (new_event_id env)); (str "type", JStr ty);
                   (str "ts", JStr (now env)); (str "session_id", JStr s);
                   (str "agent_session_num", JNum n); (str "data", data)])).
  { intros n. apply ok_event_literal; [|done]. wf_literal. }
  destruct data as [| | | | |d]; try (by eapply finish_event_logs).
  destruct (bool_decide (ty = str "UserPromptSubmit")); [|by eapply finish_event_logs].
  destruct (assoc_get (str "prompt") d) as [[| | | |blocks|]|] eqn:Ep;
    try (by eapply finish_event_logs).
  destruct (extract_images_from_prompt _ _ _ _ _) as [[[t irs]|e] w1] eqn:Ex;
    apply extract_images_from_prompt_ok in Ex as [Hf Hirs];
    try (apply wf_json_arr; by eapply wf_assoc_get).
  2:{ simplify_eq. exists L. split; [by eapply logs_ok_files|apply grows_refl]. }
  eapply finish_event_logs in H; [done|done|by eapply logs_ok_files|].
  assert (Hev' : ok_event s (JObj (assoc_set (str "data")
             (JObj (assoc_set (str "prompt") (JStr t) d))
             [(str "id", JStr (new_event_id env)); (str "type", JStr ty);
              (str "ts", JStr (now env)); (str "session_id", JStr s);
              (str "agent_session_num",
               JNum (Z.of_nat (get_agent_session_num (fails_read_session env)
                                 (session_files w !! s)
                                 (assoc_get (str "source") d))));
              (str "data", JObj d)]))).
  { apply ok_event_set; [apply Hev| |done|done]. by apply wf_assoc_set. }
  destruct irs as [|ir irs]; [exact Hev'|].
  apply ok_event_set; [exact Hev'| |done|done].
  apply wf_json_arr. by eapply Hirs.
Qed.

Lemma main_logs env usage event stdin_text w L :
  env_ok env → logs_ok w L →
  (∀ j, loads stdin_text = Some j → session_id_is_text j) →
  ∃ L', logs_ok (world (main env usage event stdin_text w)) L' ∧ grows L L'.
Proof.
  intros Henv Hl Hsid. unfold main.
  destruct event as [ty|]; [|exists L; split; [done|apply grows_refl]].
  destruct (loads stdin_text) as [stdin_data|] eqn:El.
  2:{ exists L. split; [|apply grows_refl].
      eapply logs_ok_files; [apply log_error_files|done]. }
  destruct (process_event env ty stdin_data w) as [[ev|e] w1] eqn:Ep;
    eapply process_event_logs in Ep as (L1 & Hl1 & Hg1); eauto using loads_wf.
  exists L1. split; [|done]. eapply logs_ok_files; [apply log_error_files|done].
Qed.

(** [repair_session] *)
Lemma find_gaps_events w evs : ∀ i gaps,
  find_gaps w i evs = Ok gaps →
  Forall (fun m => JObj (gap_stop_event m) ∈ evs) gaps.
Proof.
  induction evs as [|ev rest IH]; intros i gaps H.
  { simpl in H. simplify_eq. constructor. }
  assert (Hrest : ∀ i gs, find_gaps w i rest = Ok gs →
                    Forall (fun m => JObj (gap_stop_event m) ∈ ev :: rest) gs).
  { intros i' gs Hgs. eapply Forall_impl; [by eapply IH|].
    intros m Hm. simpl in Hm. by right. }
  cbn [find_gaps] in H. destruct ev as [| | | | |event]; try done.
  destruct (is_str "Stop" _); [|by eapply Hrest].
  destruct (assoc_get (str "data") event) as [[| | | | |d]|]; try done.
  - destruct rest as [|[| | | | |next] rest']; try done;
      (destruct (_ && _); [|by eapply Hrest]);
      (destruct (assoc_get (str "transcript_path") d) as [[| | |p| |]|]; try done);
      (destruct (find_gaps w (S i) _) as [gs|] eqn:Eg; [|done]); simplify_eq;
      (apply Forall_cons; split; [by left|by eapply Hrest]).
  - destruct rest as [|[| | | | |next] rest']; try done;
      (destruct (_ && _); [|by eapply Hrest]); done.
Qed.

Lemma omap_logged_id_insert_at i x (l : list json) :
  omap logged_id l ⊆ omap logged_id (list_insert_at i x l).
Proof.
  unfold list_insert_at. rewrite <-(take_drop i l) at 1.
  rewrite !omap_app. intros y [Hy|Hy]%elem_of_app; apply elem_of_app; [by left|].
  right. simpl. destruct (logged_id x); [by right|done].
Qed.

Lemma repair_gap_ok sid w m st st' :
  Forall (ok_event sid) (rs_events st) → ok_event sid (JObj (gap_stop_event m)) →
  repair_gap w m st = Ok st' →
  Forall (ok_event sid) (rs_events st') ∧
  omap logged_id (rs_events st) ⊆ omap logged_id (rs_events st').
Proof.
  intros Hes ([_ Hwf] & _ & Hs) H. unfold repair_gap in H. unfold jget in Hs.
  destruct (negb (gap_transcript_exists m)); [by simplify_eq|].
  destruct (negb (truthy _)); [by simplify_eq|].
  destruct (from_option _ _ _); [by simplify_eq|].
  destruct (assoc_get (str "ts") (gap_stop_event m)) as [ts|] eqn:Ets; [|done].
  rewrite Hs in H. simplify_eq. cbn [rs_events]. split; [|apply omap_logged_id_insert_at].
  unfold list_insert_at. apply Forall_app. split; [by apply Forall_take|].
  apply Forall_cons. split; [|by apply Forall_drop].
  apply ok_event_literal; [|done].
  pose proof (get_response_wf (JStr (gap_transcript_path m)) w) as Hresp.
  wf_literal; try exact Hresp.
  - exact (wf_assoc_get _ _ _ Hwf Ets).
  - by apply wf_default.
  - wf_literal.
Qed.

Lemma repair_gaps_ok sid w es0 gaps : ∀ st st',
  Forall (ok_event sid) es0 →
  Forall (fun m => JObj (gap_stop_event m) ∈ es0) gaps →
  Forall (ok_event sid) (rs_events st) →
  repair_gaps w gaps st = Ok st' →
  Forall (ok_event sid) (rs_events st') ∧
  omap logged_id (rs_events st) ⊆ omap logged_id (rs_events st').
Proof.
  induction gaps as [|m gaps IH]; intros st st' Hes0 Hgaps Hst H.
  { simpl in H. by simplify_eq. }
  apply Forall_cons in Hgaps as [Hm Hgaps]. simpl in H.
  destruct (repair_gap w m st) as [st1|] eqn:Eg; [|done].
  apply (repair_gap_ok sid) in Eg as [H1 H2]; [|done|].
  2:{ rewrite Forall_forall in Hes0. by apply Hes0. }
  apply IH in H as [H3 H4]; [|done..]. split; [done|]. by etrans.
Qed.

Lemma repair_session_logs sid content dry_run counts content' w L :
  logs_ok w L → session_files w !! sid = Some content →
  repair_session content dry_run w = Ok (counts, content') →
  ∃ L', logs_ok (set_session_file sid content' w) L' ∧ grows L L'.
Proof.
  intros Hl Hfile H.
  destruct (logs_ok_lookup _ _ _ _ Hl Hfile) as (es & HL & -> & Hes).
  assert (Hsame : logs_ok (set_session_file sid (log_text es) w) L).
  { destruct Hl as [Hf Hok]. split; [|done]. simpl. by rewrite insert_id. }
  unfold repair_session, analyze_session in H.
  rewrite parse_lines_log_text in H by by eapply ok_event_wf_dict.
  destruct (find_gaps w 0 es) as [gaps|] eqn:Eg; [|done].
  destruct gaps as [|g gaps].
  { simplify_eq. exists L. split; [done|apply grows_refl]. }
  apply find_gaps_events in Eg.
  destruct (repair_gaps _ _ _) as [st|] eqn:Er; [|done].
  apply (repair_gaps_ok sid _ es) in Er as [H1 H2]; [|done| |done].
  2:{ by apply Forall_reverse. }
  simpl in H2. simplify_eq.
  destruct (negb dry_run && _); [|exists L; split; [done|apply grows_refl]].
  exists (<[sid := rs_events st]> L). split; [by apply logs_ok_set|].
  apply grows_insert. intros es0 H0. by simplify_eq.
Qed.

(** ** The rows of the index *)

Lemma rows_ok_grows L L' ix : grows L L' → rows_ok L ix → rows_ok L' ix.
Proof.
  intros Hg [Hnd Hrows]. split; [done|]. intros r Hr.
  destruct (Hrows r Hr) as (i & Hi & Hs). exists i. split; [done|].
  intros sid Hsid. destruct (Hs sid Hsid) as (es & HL & Hin).
  destruct (Hg _ _ HL) as (es' & HL' & Hsub). exists es'. split; [done|].
  by apply Hsub.
Qed.

Lemma rows_ok_events L ix ix' : events ix' = events ix → rows_ok L ix → rows_ok L ix'.
Proof. intros He [Hnd Hrows]. split; rewrite He; done. Qed.

Lemma make_Event_ids sid e ev :
  ok_event sid e → make_Event e = Ok ev →
  ∃ i, ev_id ev = Some (JStr i) ∧ ev_session_id ev = Some (JStr sid) ∧
       logged_id e = Some i.
Proof.
  intros (_ & [i Hi] & Hs) H. destruct e as [| | | | |d]; try done.
  unfold jget in Hi, Hs. unfold make_Event in H.
  destruct (_ && _); [|done]. simplify_eq. exists i. cbn [ev_id ev_session_id].
  split_and!; [done|done|]. unfold logged_id, jget. by rewrite Hi.
Qed.

Lemma insert_event_row ev ix r ix' i sid :
  ev_id ev = Some (JStr i) → ev_session_id ev = Some (JStr sid) →
  insert_event ev ix = (r, ix') →
  ix' = ix ∨
  ∃ row, row_id row = SText i ∧ row_session_id row = SText sid ∧
         events ix' = replace_row row (events ix).
Proof.
  intros Hi Hs H. unfold insert_event, bind4 in H. rewrite Hi, Hs in H.
  cbn [bind_param] in H.
  destruct (bind_param (ev_type ev)) as [ty|]; [|simplify_eq; by left].
  destruct (bind_param (ev_ts ev)) as [ts|]; [|simplify_eq; by left].
  destruct (bind_param (ev_agent_session_num ev)) as [num|]; [|simplify_eq; by left].
  destruct (bind_param (ev_content ev)) as [content|]; [|simplify_eq; by left].
  destruct (_ || _); [simplify_eq; by left|]. simplify_eq.
  right. eexists. split_and!; [| |reflexivity]; done.
Qed.

Lemma rows_ok_replace L ix ix' row i sid es :
  rows_ok L ix → row_id row = SText i → row_session_id row = SText sid →
  L !! sid = Some es → i ∈ omap logged_id es →
  events ix' = replace_row row (events ix) →
  rows_ok L ix'.
Proof.
  intros [Hnd Hrows] Hi Hs HL Hin He. unfold replace_row in He. rewrite Hi in He.
  split; rewrite He.
  - rewrite map_app. apply NoDup_app. split_and!.
    + eapply sublist_NoDup; [exact Hnd|apply fmap_sublist, sublist_filter].
    + intros x Hx Hx'. apply list_elem_of_singleton in Hx'. subst x.
      apply list_elem_of_fmap in Hx as (r' & Hr' & Hin').
      apply list_elem_of_filter in Hin' as [Hne _]. congruence.
    + apply NoDup_singleton.
  - intros r [Hr|Hr]%elem_of_app.
    + apply list_elem_of_filter in Hr as [_ Hr]. by apply Hrows.
    + apply list_elem_of_singleton in Hr. subst r. exists i. split; [done|].
      intros sid' Hsid'. rewrite Hs in Hsid'. simplify_eq. eauto.
Qed.

Lemma sync_lines_rows L sid es lines : ∀ n ix,
  L !! sid = Some es → Forall (ok_event sid) es →
  Forall (fun l => ∀ j, loads l = Some j → j ∈ es) lines →
  rows_ok L ix → rows_ok L (snd (sync_lines lines n ix)).
Proof.
  induction lines as [|line rest IH]; intros n ix HL Hes Hlines Hix; [done|].
  apply Forall_cons in Hlines as [Hline Hrest]. cbn [sync_lines].
  destruct (nonblank line); [|by apply IH].
  destruct (loads line) as [data|] eqn:El; [|done].
  specialize (Hline _ eq_refl).
  destruct (make_Event data) as [event|] eqn:Em; [|done].
  rewrite Forall_forall in Hes.
  destruct (make_Event_ids sid _ _ (Hes _ Hline) Em) as (i & Hi & Hs & Hid).
  destruct (insert_event event ix) as [r ix1] eqn:Ei.
  assert (Hix1 : rows_ok L ix1).
  { destruct (insert_event_row _ _ _ _ _ _ Hi Hs Ei) as [->|(row & Hr1 & Hr2 & He)];
      [done|].
    eapply rows_ok_replace; [done..| |done].
    apply list_elem_of_omap. eauto. }
  destruct r as [[]|e]; [|done]. apply IH; [done| |done|done].
  by apply Forall_forall.
Qed.

Lemma sync_session_rows w L sid ix :
  logs_ok w L → rows_ok L ix →
  rows_ok L (snd (sync_session sid (session_files w !! sid) ix)).
Proof.
  intros Hl Hix. unfold sync_session. case_bool_decide; [done|].
  destruct (session_files w !! sid) as [content|] eqn:E.
  - destruct (logs_ok_lookup _ _ _ _ Hl E) as (es & HL & -> & Hes).
    pose proof (sync_lines_rows L sid es
                  (file_lines (drop (get_sync_position sid ix) (log_text es))) 0 ix
                  HL Hes) as Hs.
    cbn [default]. destruct (sync_lines _ 0 ix) as [[n|e] ix1]; simpl in *.
    + eapply rows_ok_events; [|apply Hs; [|done]]; [done|].
      apply file_lines_drop. by eapply ok_event_wf_dict.
    + apply Hs; [|done]. apply file_lines_drop. by eapply ok_event_wf_dict.
  - simpl. rewrite drop_nil. done.
Qed.

(** ** The invariant of the storage *)

Lemma reachable_inv w ix : reachable w ix → storage_inv w ix.
Proof.
  induction 1 as [|env usage event stdin_text w ix _ (L & Hl & Hr) Henv Hsid
                  |sid w ix _ (L & Hl & Hr)
                  |sid content dry_run counts content' w ix _ (L & Hl & Hr) Hf Hrep
                  |env sid refs w ix _ (L & Hl & Hr) Hrefs
                  |w w' ix _ (L & Hl & Hr) Hf].
  - exists ∅. split; [split|split].
    + simpl. by rewrite fmap_empty.
    + intros sid es H. by rewrite lookup_empty in H.
    + constructor.
    + intros r Hr. by apply elem_of_nil in Hr.
  - destruct (main_logs env usage event stdin_text w L) as (L' & Hl' & Hg); [done..|].
    exists L'. split; [done|]. by eapply rows_ok_grows.
  - exists L. split; [done|]. by apply sync_session_rows.
  - destruct (repair_session_logs _ _ _ _ _ _ _ Hl Hf Hrep) as (L' & Hl' & Hg).
    exists L'. split; [done|]. by eapply rows_ok_grows.
  - destruct (update_session_with_images_logs env sid refs w L) as (L' & Hl' & Hg);
      [done..|].
    exists L'. split; [done|]. by eapply rows_ok_grows.
  - exists L. split; [by eapply logs_ok_files|done].
Qed.

Lemma omap_length_le {A B} (f : A → option B) l : length (omap f l) ≤ length l.
Proof.
  induction l as [|x l IH]; [done|].
  change (x :: l) with ([x] ++ l). rewrite omap_app, !length_app.
  simpl. destruct (f x); simpl; lia.
Qed.




(** In that storage the session has one event in the log and one in the
    index. *)
Example one_event_logged_and_indexed :
  log_event_count (session_files logged_world !! str "s1") = 1 ∧
  index_event_count (str "s1") synced_index = 1.
Proof. split; vm_compute; reflexivity. Qed.

(** ** Reading back what was appended *)

Lemma read_lines_log_text es :
  Forall wf_dict es →
  read_lines (map (fun e => dumps e ++ [nl]) es) = (es, None).
Proof.
  induction 1 as [|e es [Hd Hwf] Hes IH]; [done|].
  destruct e as [| | | | |d]; try done.
  cbn [map read_lines]. rewrite nonblank_dict, (loads_dumps (JObj d) [nl]) by auto.
  by rewrite IH.
Qed.

(** X1: what [append_events] writes, [read_session] reads back.  On a log
    that holds the events [es], after the dicts [new] have been appended,
    reading the session yields [es ++ new] and no exception. *)
Theorem read_session_after_append env sid es new w :
  Forall wf_dict es → Forall wf_dict new →
  fails_append env = false →
  session_files w !! sid = Some (log_text es) →
  read_session (session_files (snd (append_events env sid new w)) !! sid) =
    (es ++ new, None).
Proof.
  intros Hes Hnew Hok Hfile. unfold append_events. rewrite Hok.
  unfold text in *. rewrite Hfile.
  cbn [snd set_session_file session_files default]. rewrite lookup_insert_eq.
  cbn [read_session]. unfold Datatypes.id.
  rewrite <-log_text_app, file_lines_log_text.
  apply read_lines_log_text. by apply Forall_app.
Qed.

Lemma read_session_after_append_witness :
  read_session
    (session_files
       (snd (append_events (example_env "evt_2") (str "s1")
               [example_event "evt_2" "UserPromptSubmit"]
               (example_world (log_text [example_event "evt_1" "SessionStart"]))))
     !! str "s1") =
  ([example_event "evt_1" "SessionStart"; example_event "evt_2" "UserPromptSubmit"],
   None).
Proof.
  apply (read_session_after_append (example_env "evt_2") (str "s1")
           [example_event "evt_1" "SessionStart"]
           [example_event "evt_2" "UserPromptSubmit"]).
  - repeat constructor; apply (bool_decide_unpack _); vm_compute; reflexivity.
  - repeat constructor; apply (bool_decide_unpack _); vm_compute; reflexivity.
  - reflexivity.
  - reflexivity.
Defined.

(** ** Inserting into the index *)

Lemma replace_row_ids row rows k :
  row_id row = k → k ≠ SNull →
  map row_id (replace_row row rows) =
  map row_id (filter (fun r => row_id r ≠ k) rows) ++ [k].
Proof.
  intros Hk Hn. unfold replace_row. rewrite Hk.
  destruct k; [done| |]; by rewrite map_app, <-Hk.
Qed.

Lemma filter_other_ids (rows : list EventRow) k k' :
  k' ≠ k →
  k' ∈ map row_id (filter (fun r => row_id r ≠ k) rows) ↔ k' ∈ map row_id rows.
Proof.
  intros Hne. rewrite !list_elem_of_fmap. split.
  - intros (r & -> & Hr). apply list_elem_of_filter in Hr as [_ Hr]. eauto.
  - intros (r & -> & Hr). exists r. split; [done|]. by apply list_elem_of_filter.
Qed.

Lemma filter_absent_id (rows : list EventRow) k :
  k ∉ map row_id rows → filter (fun r => row_id r ≠ k) rows = rows.
Proof.
  induction rows as [|r rows IH]; [done|]. simpl.
  intros [Hr Hrows]%not_elem_of_cons.
  rewrite filter_cons_True by done. by rewrite IH.
Qed.

Lemma filter_present_id (rows : list EventRow) k :
  NoDup (map row_id rows) → k ∈ map row_id rows →
  S (length (filter (fun r => row_id r ≠ k) rows)) = length rows.
Proof.
  induction rows as [|r rows IH]; simpl; [intros _ []%elem_of_nil|].
  intros [Hr Hnd]%NoDup_cons Hin.
  destruct (decide (row_id r = k)) as [Heq|Hne].
  - rewrite filter_cons_False by naive_solver.
    rewrite filter_absent_id; [done|]. by rewrite <-Heq.
  - rewrite filter_cons_True by done. simpl.
    apply elem_of_cons in Hin as [?|Hin]; [congruence|]. by rewrite IH.
Qed.

(** What a successful [insert_event] does to the table [events]. *)
Lemma insert_event_returns ev ix ix' i :
  ev_id ev = Some (JStr i) → insert_event ev ix = (Ok tt, ix') →
  sync_state ix' = sync_state ix ∧
  ∃ row, row_id row = SText i ∧ events ix' = replace_row row (events ix).
Proof.
  intros Hi H. unfold insert_event, bind4 in H. rewrite Hi in H.
  cbn [bind_param] in H.
  destruct (bind_param (ev_session_id ev)) as [sid|]; [|by simplify_eq].
  destruct (bind_param (ev_type ev)) as [ty|]; [|by simplify_eq].
  destruct (bind_param (ev_ts ev)) as [ts|]; [|by simplify_eq].
  destruct (bind_param (ev_agent_session_num ev)) as [num|]; [|by simplify_eq].
  destruct (bind_param (ev_content ev)) as [content|]; [|by simplify_eq].
  destruct (_ || _); [by simplify_eq|]. simplify_eq.
  split; [done|]. eexists. split; [|reflexivity]. done.
Qed.

Lemma insert_event_fails_keeps ev ix e ix' :
  insert_event ev ix = (Raise e, ix') → ix' = ix.
Proof.
  unfold insert_event. repeat case_match; intros; by simplify_eq.
Qed.

(** X2: [INSERT OR REPLACE] on the primary key.  When the identifiers of
    the table [events] are distinct and an event with a text identifier is
    inserted, they stay distinct, the identifier is in the table, the
    other identifiers are those that were there, and the table grows by
    one row exactly when the identifier is new. *)
Theorem insert_event_upsert ev ix ix' i :
  NoDup (row_ids ix) → ev_id ev = Some (JStr i) →
  insert_event ev ix = (Ok tt, ix') →
  NoDup (row_ids ix') ∧ SText i ∈ row_ids ix' ∧
  (∀ k, k ≠ SText i → k ∈ row_ids ix' ↔ k ∈ row_ids ix) ∧
  length (events ix') =
    if bool_decide (SText i ∈ row_ids ix) then length (events ix)
    else S (length (events ix)).
Proof.
  intros Hnd Hi H. apply (insert_event_returns _ _ _ _ Hi) in H as (_ & row & Hrow & He).
  unfold row_ids. rewrite He, (replace_row_ids row _ (SText i)) by done.
  split_and!.
  - apply NoDup_app. split_and!.
    + eapply sublist_NoDup; [exact Hnd|apply fmap_sublist, sublist_filter].
    + intros x Hx Hx'. apply list_elem_of_singleton in Hx'. subst x.
      apply list_elem_of_fmap in Hx as (r' & Hr' & Hin').
      apply list_elem_of_filter in Hin' as [Hne _]. congruence.
    + apply NoDup_singleton.
  - apply elem_of_app. right. by apply list_elem_of_singleton.
  - intros k Hk. rewrite elem_of_app, list_elem_of_singleton, filter_other_ids by done.
    naive_solver.
  - unfold replace_row. rewrite Hrow, length_app. simpl. case_bool_decide as Hin.
    + rewrite <-(filter_present_id (events ix) (SText i)) by done. lia.
    + rewrite filter_absent_id by done. lia.
Qed.

Lemma insert_event_upsert_witness :
  let ev := example_Event "evt_1" "SessionStart" in
  let ix := index_with ["evt_1"; "evt_2"] in
  let ix' := snd (insert_event ev ix) in
  NoDup (row_ids ix') ∧ SText (str "evt_1") ∈ row_ids ix' ∧
  (∀ k, k ≠ SText (str "evt_1") → k ∈ row_ids ix' ↔ k ∈ row_ids ix) ∧
  length (events ix') =
    if bool_decide (SText (str "evt_1") ∈ row_ids ix) then length (events ix)
    else S (length (events ix)).
Proof.
  intros ev ix ix'.
  apply (insert_event_upsert ev ix ix' (str "evt_1")).
  - apply (bool_decide_unpack _). vm_compute. reflexivity.
  - reflexivity.
  - vm_compute. reflexivity.
Defined.

(** ** Synchronising what was appended *)







(** ** A position inside a line *)

Lemma nonblank_elem c s : c ∈ s → is_space c = false → nonblank s = true.
Proof.
  unfold nonblank. induction s as [|x s IH]; [by intros ?%elem_of_nil|].
  intros [->|Hin]%elem_of_cons Hc; simpl.
  - by rewrite Hc.
  - destruct (is_space x); [by apply IH|done].
Qed.

Lemma log_text_middle es e es' :
  log_text (es ++ e :: es') = log_text es ++ dumps e ++ nl :: log_text es'.
Proof. by rewrite log_text_app, log_text_cons. Qed.

(** X4: when the position of a session lies strictly inside the line of
    an event (as it can after the file was rewritten), [sync_session]
    raises the decode error at once: nothing is inserted and the position
    stays where it was. *)
Theorem sync_session_inside_line sid es d es' k ix :
  wf_json (JObj d) → 0 < k < length (dumps (JObj d)) →
  get_sync_position sid ix = length (log_text es) + k →
  sync_session sid (Some (log_text (es ++ JObj d :: es'))) ix =
    (Raise "JSONDecodeError", ix).
Proof.
  intros Hwf Hk Hpos. unfold sync_session. rewrite Hpos.
  cbn [get_last_position default]. unfold Datatypes.id.
  rewrite log_text_middle, !length_app. rewrite bool_decide_eq_false_2.
  2:{ cbn [length]. lia. }
  rewrite drop_app_ge, Nat.add_comm, Nat.add_sub by lia.
  rewrite drop_app_le by lia.
  assert (Hsplit : ∃ s1, drop k (dumps (JObj d)) = s1 ++ [chr 125]).
  { exists (drop k (str "{" ++ join (str ", ")
              (map (fun kv => quote_text (fst kv) ++ str ": " ++ dumps (snd kv)) d))).
    cbn [dumps]. rewrite app_assoc, drop_app_le; [done|].
    cbn [dumps] in Hk. rewrite app_assoc, length_app in Hk. simpl in Hk. simpl. lia. }
  destruct Hsplit as [s1 Hs1].
  rewrite file_lines_line.
  2:{ intros H. apply (dumps_no_nl (JObj d)).
      rewrite <-(take_drop k (dumps (JObj d))). apply elem_of_app. by right. }
  cbn [sync_lines].
  rewrite (nonblank_elem (chr 125)); [|rewrite Hs1, !elem_of_app|done].
  2:{ left. right. by apply list_elem_of_singleton. }
  by rewrite loads_suffix.
Qed.

Lemma sync_session_inside_line_witness :
  sync_session (str "s1")
    (Some (log_text ([example_event "evt_1" "SessionStart"] ++
                     example_event "evt_2" "Stop" :: [])))
    (update_sync_position (str "s1")
       (length (log_text [example_event "evt_1" "SessionStart"]) + 5) empty_index) =
  (Raise "JSONDecodeError",
   update_sync_position (str "s1")
     (length (log_text [example_event "evt_1" "SessionStart"]) + 5) empty_index).
Proof.
  apply (sync_session_inside_line (str "s1") [example_event "evt_1" "SessionStart"]
           _ [] 5).
  - wf_literal. apply wf_nil_obj.
  - vm_compute. split; lia.
  - vm_compute. reflexivity.
Defined.

(** ** Synchronising all sessions *)

Lemma insert_event_sync_state ev ix r ix' :
  insert_event ev ix = (r, ix') → sync_state ix' = sync_state ix.
Proof. unfold insert_event. repeat case_match; intros; by simplify_eq. Qed.

Lemma sync_lines_sync_state lines : ∀ n ix r ix',
  sync_lines lines n ix = (r, ix') → sync_state ix' = sync_state ix.
Proof.
  induction lines as [|l lines IH]; intros n ix r ix' H; simpl in H; [by simplify_eq|].
  destruct (nonblank l); [|by eapply IH].
  destruct (loads l); [|by simplify_eq].
  destruct (make_Event _); [|by simplify_eq].
  destruct (insert_event _ _) as [[[]|e] ix1] eqn:Ei;
    apply insert_event_sync_state in Ei; [|by simplify_eq].
  apply IH in H. congruence.
Qed.

(** After a sync, a position that had reached the end of its file still
    has, and the position of the session synced has when the sync
    returned. *)
Lemma sync_session_positions sid w ix r ix' sid' :
  sync_session sid (session_files w !! sid) ix = (r, ix') →
  (get_last_position (session_files w !! sid') ≤ get_sync_position sid' ix ∨
   (sid' = sid ∧ ∃ n, r = Ok n)) →
  get_last_position (session_files w !! sid') ≤ get_sync_position sid' ix'.
Proof.
  unfold sync_session. case_bool_decide as Hle.
  { intros ? [?|[-> _]]; by simplify_eq. }
  destruct (sync_lines _ 0 ix) as [[n|e] ix1] eqn:El;
    apply sync_lines_sync_state in El; intros ? Hor; simplify_eq.
  - unfold get_sync_position, update_sync_position. simpl.
    destruct (decide (sid' = sid)) as [->|Hne].
    + by rewrite lookup_insert_eq.
    + rewrite lookup_insert_ne by done. rewrite El. naive_solver.
  - unfold get_sync_position. rewrite El. naive_solver.
Qed.

Lemma sync_all_from_positions sessions w : ∀ total ix n ix' sid',
  sync_all_from sessions w total ix = (Ok n, ix') →
  (get_last_position (session_files w !! sid') ≤ get_sync_position sid' ix ∨
   sid' ∈ sessions) →
  get_last_position (session_files w !! sid') ≤ get_sync_position sid' ix'.
Proof.
  induction sessions as [|sid rest IH]; intros total ix n ix' sid' H Hor; simpl in H.
  { simplify_eq. destruct Hor as [?|[]%elem_of_nil]. done. }
  destruct (sync_session sid _ ix) as [[m|e] ix1] eqn:Es; [|done].
  eapply IH; [exact H|].
  destruct Hor as [Hle|[->|Hin]%elem_of_cons].
  - left. eapply sync_session_positions; [exact Es|by left].
  - left. eapply sync_session_positions; [exact Es|]. right. eauto.
  - by right.
Qed.

Lemma sync_all_from_done sessions w ix : ∀ total,
  (∀ sid, sid ∈ sessions →
     get_last_position (session_files w !! sid) ≤ get_sync_position sid ix) →
  sync_all_from sessions w total ix = (Ok total, ix).
Proof.
  induction sessions as [|sid rest IH]; intros total Hall; [done|]. simpl.
  unfold sync_session at 1. rewrite bool_decide_eq_true_2 by (apply Hall; by left).
  rewrite Nat.add_0_r. apply IH. intros s Hs. apply Hall. by right.
Qed.

(** X5: a second [sync_all] finds nothing to do.  When [sync_all] has
    returned and no file has changed since, calling it again on the same
    sessions returns 0 and leaves the index, positions included, as it
    is. *)
Theorem sync_all_twice sessions w ix n ix' :
  sync_all sessions w ix = (Ok n, ix') →
  sync_all sessions w ix' = (Ok 0, ix').
Proof.
  intros H. apply sync_all_from_done. intros sid Hsid.
  eapply sync_all_from_positions; [exact H|by right].
Qed.

(** ** The order and the content of the fused results *)

Lemma insert_by_non_increasing {A} (key g : A → Q) x l :
  (∀ a b, Qle_bool (key a) (key b) = true ↔ (g b <= g a)%Q) →
  non_increasing (map g l) → non_increasing (map g (insert_by key x l)).
Proof.
  intros Hkey. induction l as [|y l IH]; simpl; [by split|].
  intros [Hy Hl]. destruct (Qle_bool (key x) (key y)) eqn:E; simpl.
  - apply Hkey in E. split_and!; [|done|done].
    apply Forall_cons. split; [done|].
    eapply Forall_impl; [exact Hy|]. intros z Hz. simpl in Hz. by eapply Qle_trans.
  - split; [|by apply IH].
    rewrite Forall_fmap, insert_by_perm. apply Forall_cons. split.
    + assert (Hn : ¬ (g y <= g x)%Q).
      { intros H. apply Hkey in H. congruence. }
      apply Qnot_le_lt in Hn. by apply Qlt_le_weak.
    + by rewrite <-Forall_fmap.
Qed.

Lemma sorted_by_non_increasing {A} (key g : A → Q) l :
  (∀ a b, Qle_bool (key a) (key b) = true ↔ (g b <= g a)%Q) →
  non_increasing (map g (sorted_by key l)).
Proof.
  intros Hkey. induction l as [|x l IH]; simpl; [done|].
  by apply insert_by_non_increasing.
Qed.

Lemma fused_state_inv kw sem k : fusion_inv (fused_state kw sem k).
Proof.
  apply semantic_loop_inv, keyword_loop_inv. split_and!; simpl.
  - apply NoDup_nil_2.
  - intros ? []%elem_of_nil.
  - done.
Qed.

Lemma ranks_from_elem id l : ∀ i, ranks_from i id l ≠ [] ↔ id ∈ map event_id l.
Proof.
  induction l as [|r l IH]; intros i; simpl.
  - split; [done|by intros ?%elem_of_nil].
  - rewrite elem_of_cons. destruct (decide (event_id r = id)) as [->|Hne].
    + split; [by left|done].
    + rewrite IH. naive_solver.
Qed.

Lemma fused_state_keys kw sem k id :
  id ∈ map fst (scores (fused_state kw sem k)) ↔
  id ∈ map event_id kw ∨ id ∈ map event_id sem.
Proof.
  unfold fused_state. rewrite semantic_loop_keys, keyword_loop_keys, !ranks_from_elem.
  simpl. rewrite elem_of_nil. tauto.
Qed.

(** The results built from the sorted identifiers. *)
Lemma fusion_results_fields (st : fusion_state) ids :
  (∀ id, id ∈ ids → is_Some (assoc_get id (result_map st))) →
  (∀ id r, assoc_get id (result_map st) = Some r → event_id r = id) →
  let out := omap (fun id =>
          match assoc_get id (result_map st) with
          | None => None
          | Some result =>
              Some {| event_id := event_id result;
                      session_id := session_id result;
                      event_type := event_type result;
                      content := content result;
                      score := default 0%Q (assoc_get id (scores st));
                      timestamp := timestamp result;
                      source := str "hybrid";
                      cosine_similarity :=
                        default 0%Q (assoc_get id (cosine_scores st)) |}
          end) ids in
  map event_id out = ids ∧
  map score out = map (fun id => score_of id (scores st)) ids ∧
  Forall (fun r => source r = str "hybrid" ∧
                   cosine_similarity r =
                     default 0%Q (assoc_get (event_id r) (cosine_scores st)) ∧
                   ∃ q, assoc_get (event_id r) (result_map st) = Some q ∧
                        session_id r = session_id q ∧ event_type r = event_type q ∧
                        content r = content q ∧ timestamp r = timestamp q) out.
Proof.
  intros Hmap Hid. induction ids as [|id ids IH]; [by split_and!|].
  destruct IH as (IH1 & IH2 & IH3); [intros; apply Hmap; by right|].
  destruct (Hmap id) as [q Hq]; [by left|]. cbn zeta in *.
  cbn [omap list_omap]. rewrite Hq. cbn [map event_id score].
  pose proof (Hid _ _ Hq) as Hidq. split_and!.
  - by rewrite IH1, Hidq.
  - by rewrite IH2.
  - apply Forall_cons. split; [|done]. cbn [source cosine_similarity event_id
      session_id event_type content timestamp]. rewrite Hidq. eauto 10.
Qed.

Lemma rrf_unfold kw sem k :
  reciprocal_rank_fusion kw sem k =
  omap (fun id =>
          match assoc_get id (result_map (fused_state kw sem k)) with
          | None => None
          | Some result =>
              Some {| event_id := event_id result;
                      session_id := session_id result;
                      event_type := event_type result;
                      content := content result;
                      score := default 0%Q (assoc_get id (scores (fused_state kw sem k)));
                      timestamp := timestamp result;
                      source := str "hybrid";
                      cosine_similarity :=
                        default 0%Q (assoc_get id (cosine_scores (fused_state kw sem k))) |}
          end)
       (sorted_by (fun x => - default 0%Q (assoc_get x (scores (fused_state kw sem k))))%Q
          (map fst (scores (fused_state kw sem k)))).
Proof. reflexivity. Qed.

Lemma rrf_fields kw sem k :
  let st := fused_state kw sem k in
  let out := reciprocal_rank_fusion kw sem k in
  map event_id out ≡ₚ map fst (scores st) ∧
  non_increasing (map score out) ∧
  Forall (fun r => source r = str "hybrid" ∧
                   cosine_similarity r =
                     default 0%Q (assoc_get (event_id r) (cosine_scores st)) ∧
                   ∃ q, assoc_get (event_id r) (result_map st) = Some q ∧
                        session_id r = session_id q ∧ event_type r = event_type q ∧
                        content r = content q ∧ timestamp r = timestamp q) out.
Proof.
  intros st out. unfold out. rewrite rrf_unfold. fold st.
  destruct (fused_state_inv kw sem k) as (Hnd & Hmap & Hid). fold st in Hnd, Hmap, Hid.
  edestruct (fusion_results_fields st
               (sorted_by (fun x => - default 0%Q (assoc_get x (scores st)))%Q
                  (map fst (scores st)))) as (H1 & H2 & H3); [|exact Hid|].
  { intros id Hin. apply Hmap. by rewrite sorted_by_perm in Hin. }
  cbn zeta in *. split_and!.
  - rewrite H1. apply sorted_by_perm.
  - rewrite H2. apply sorted_by_non_increasing. intros a b.
    rewrite Qle_bool_iff. unfold score_of. split; intros H.
    + apply Qopp_le_compat in H. by rewrite !Qopp_involutive in H.
    + by apply Qopp_le_compat.
  - exact H3.
Qed.

(** X6: the fused results are ordered by fused score, largest first. *)
Theorem rrf_sorted_by_score kw sem k :
  non_increasing (map score (reciprocal_rank_fusion kw sem k)).
Proof. apply (rrf_fields kw sem k). Qed.

(** X7: the fused results hold every event of the two lists once: their
    identifiers are distinct, and an identifier is among them exactly
    when it is in the keyword list or in the semantic list. *)
Theorem rrf_each_event_once kw sem k :
  NoDup (map event_id (reciprocal_rank_fusion kw sem k)) ∧
  ∀ id, id ∈ map event_id (reciprocal_rank_fusion kw sem k) ↔
        id ∈ map event_id kw ∨ id ∈ map event_id sem.
Proof.
  destruct (rrf_fields kw sem k) as (Hperm & _). cbn zeta in Hperm.
  destruct (fused_state_inv kw sem k) as (Hnd & _). split.
  - by rewrite Hperm.
  - intros id. rewrite Hperm. apply fused_state_keys.
Qed.

Lemma keyword_loop_cosine k rs : ∀ i st,
  cosine_scores (keyword_loop k i rs st) = cosine_scores st.
Proof. induction rs as [|r rs IH]; intros i st; simpl; [done|]. by rewrite IH. Qed.

Lemma keyword_loop_result_map k id rs : ∀ i st,
  NoDup (map event_id rs) →
  (∀ q, q ∈ rs → event_id q = id →
     assoc_get id (result_map (keyword_loop k i rs st)) = Some q) ∧
  (id ∉ map event_id rs →
     assoc_get id (result_map (keyword_loop k i rs st)) = assoc_get id (result_map st)).
Proof.
  induction rs as [|r rs IH]; intros i st Hnd; simpl.
  { split; [by intros q ?%elem_of_nil|done]. }
  apply NoDup_cons in Hnd as [Hr Hnd].
  edestruct (IH (S i)) as [IH1 IH2]; [exact Hnd|]. split.
  - intros q [->|Hq]%elem_of_cons Hid.
    + rewrite IH2 by (by rewrite <-Hid). simpl. by rewrite <-Hid, assoc_get_set_eq.
    + by apply IH1.
  - intros [Hne Hnin]%not_elem_of_cons. rewrite IH2 by done. simpl.
    by rewrite assoc_get_set_ne.
Qed.

Lemma semantic_loop_result_map k id rs : ∀ i st,
  (∀ q, assoc_get id (result_map st) = Some q →
     assoc_get id (result_map (semantic_loop k i rs st)) = Some q) ∧
  (assoc_get id (result_map st) = None → NoDup (map event_id rs) →
   ∀ q, q ∈ rs → event_id q = id →
     assoc_get id (result_map (semantic_loop k i rs st)) = Some q).
Proof.
  induction rs as [|r rs IH]; intros i st; simpl.
  { split; [done|]. by intros _ _ q ?%elem_of_nil. }
  edestruct (IH (S i)) as [IH1 IH2]. split.
  - intros q Hq. apply IH1. simpl.
    destruct (assoc_get (event_id r) (result_map st)) eqn:E; [done|].
    rewrite assoc_get_set_ne; [done|]. intros Heq. rewrite Heq in E. congruence.
  - intros Hnone [Hr Hnd]%NoDup_cons q [->|Hq]%elem_of_cons Hid.
    + apply IH1. simpl. rewrite Hid, Hnone. by rewrite assoc_get_set_eq.
    + apply IH2; [|done|done|done]. simpl.
      assert (Hne : event_id r ≠ id).
      { intros Heq. apply Hr. rewrite Heq, <-Hid. apply list_elem_of_fmap. eauto. }
      destruct (assoc_get (event_id r) (result_map st)); [done|].
      by rewrite assoc_get_set_ne.
Qed.

Lemma semantic_loop_cosine k id rs : ∀ i st,
  NoDup (map event_id rs) →
  (∀ q, q ∈ rs → event_id q = id →
     assoc_get id (cosine_scores (semantic_loop k i rs st)) = Some (cosine_similarity q)) ∧
  (id ∉ map event_id rs →
     assoc_get id (cosine_scores (semantic_loop k i rs st)) =
     assoc_get id (cosine_scores st)).
Proof.
  induction rs as [|r rs IH]; intros i st Hnd; simpl.
  { split; [by intros q ?%elem_of_nil|done]. }
  apply NoDup_cons in Hnd as [Hr Hnd].
  edestruct (IH (S i)) as [IH1 IH2]; [exact Hnd|]. split.
  - intros q [->|Hq]%elem_of_cons Hid.
    + rewrite IH2 by (by rewrite <-Hid). simpl. by rewrite <-Hid, assoc_get_set_eq.
    + by apply IH1.
  - intros [Hne Hnin]%not_elem_of_cons. rewrite IH2 by done. simpl.
    by rewrite assoc_get_set_ne.
Qed.

Lemma semantic_loop_cosine_absent k id rs : ∀ i st,
  id ∉ map event_id rs →
  assoc_get id (cosine_scores (semantic_loop k i rs st)) = assoc_get id (cosine_scores st).
Proof.
  induction rs as [|r rs IH]; intros i st; simpl; [done|].
  intros [Hne Hnin]%not_elem_of_cons. rewrite IH by done. simpl.
  by rewrite assoc_get_set_ne.
Qed.

(** X8: what a fused result shows besides its score.  Its source is
    [hybrid].  Its cosine similarity is that of the semantic result of the
    event, and 0 for an event that only the keyword search found.  Its
    session, type, content and timestamp are those of the keyword result
    of the event, and those of the semantic result when the keyword search
    did not find it.  (The identifiers of each list are taken distinct, so
    that the result of an event in a list is one.) *)
Theorem rrf_result_fields kw sem k r :
  NoDup (map event_id kw) → NoDup (map event_id sem) →
  r ∈ reciprocal_rank_fusion kw sem k →
  source r = str "hybrid" ∧
  (event_id r ∉ map event_id sem → cosine_similarity r = 0%Q) ∧
  (∀ s, s ∈ sem → event_id s = event_id r →
     cosine_similarity r = cosine_similarity s) ∧
  (∀ q, q ∈ kw → event_id q = event_id r →
     session_id r = session_id q ∧ event_type r = event_type q ∧
     content r = content q ∧ timestamp r = timestamp q) ∧
  (∀ s, s ∈ sem → event_id s = event_id r → event_id r ∉ map event_id kw →
     session_id r = session_id s ∧ event_type r = event_type s ∧
     content r = content s ∧ timestamp r = timestamp s).
Proof.
  intros Hkw Hsem Hr.
  destruct (rrf_fields kw sem k) as (_ & _ & Hall). cbn zeta in Hall.
  rewrite Forall_forall in Hall.
  destruct (Hall r Hr) as (Hsrc & Hcos & q0 & Hq0 & Hf1 & Hf2 & Hf3 & Hf4).
  unfold fused_state in Hcos, Hq0.
  set (e0 := {| scores := []; result_map := []; cosine_scores := [] |}) in *.
  set (st1 := keyword_loop k 0 kw e0) in *.
  destruct (keyword_loop_result_map k (event_id r) kw 0 e0 Hkw) as [Hk1 Hk2].
  fold st1 in Hk1, Hk2.
  destruct (semantic_loop_result_map k (event_id r) sem 0 st1) as [Hs1 Hs2].
  destruct (semantic_loop_cosine k (event_id r) sem 0 st1 Hsem) as [Hc1 _].
  split_and!; [done| | | |].
  - intros Hnin. rewrite Hcos, semantic_loop_cosine_absent by done.
    unfold st1. by rewrite keyword_loop_cosine.
  - intros s Hs Hid. rewrite Hcos. by rewrite (Hc1 s Hs Hid).
  - intros q Hq Hid. rewrite (Hs1 q) in Hq0 by by apply Hk1. by simplify_eq.
  - intros s Hs Hid Hnin. rewrite (Hs2 ltac:(by rewrite Hk2) Hsem s Hs Hid) in Hq0.
    by simplify_eq.
Qed.

Lemma rrf_result_fields_witness :
  let kw := [example_result "a"; example_result "b"] in
  let sem := [example_result "c"; example_result "b"] in
  let r := {| event_id := str "b"; session_id := str "s"; event_type := str "Stop";
              content := str "text"; score := (1 # 62) + (1 # 62);
              timestamp := str "t"; source := str "hybrid";
              cosine_similarity := 0 |} in
  source r = str "hybrid" ∧
  (event_id r ∉ map event_id sem → cosine_similarity r = 0%Q) ∧
  (∀ s, s ∈ sem → event_id s = event_id r →
     cosine_similarity r = cosine_similarity s) ∧
  (∀ q, q ∈ kw → event_id q = event_id r →
     session_id r = session_id q ∧ event_type r = event_type q ∧
     content r = content q ∧ timestamp r = timestamp q) ∧
  (∀ s, s ∈ sem → event_id s = event_id r → event_id r ∉ map event_id kw →
     session_id r = session_id s ∧ event_type r = event_type s ∧
     content r = content s ∧ timestamp r = timestamp s).
Proof.
  intros kw sem r. apply (rrf_result_fields kw sem 60 r).
  - apply (bool_decide_unpack _). vm_compute. reflexivity.
  - apply (bool_decide_unpack _). vm_compute. reflexivity.
  - vm_compute. constructor.
Defined.

(** ** Hybrid search *)

Lemma non_increasing_take n l : non_increasing l → non_increasing (take n l).
Proof.
  revert n. induction l as [|x l IH]; intros [|n]; simpl; try done.
  intros [Hx Hl]. split; [by apply Forall_take|by apply IH].
Qed.

(** X9: [hybrid_search] with a limit that is not negative returns at most
    [limit] results.  When the semantic search gave nothing (no embedding
    service, semantic search switched off, or no hit) they are the first
    keyword results as the keyword search returned them; otherwise they
    are fused results, largest fused score first. *)
Theorem hybrid_search_results keyword_search semantic_search limit use_semantic :
  (0 ≤ limit)%Z →
  let out := hybrid_search keyword_search semantic_search limit use_semantic in
  let sem := semantic_results_of semantic_search limit use_semantic in
  length out ≤ Z.to_nat limit ∧
  (sem = [] → out = take (Z.to_nat limit) (keyword_search (limit * 2)%Z)) ∧
  (sem ≠ [] →
   out = take (Z.to_nat limit)
           (reciprocal_rank_fusion (keyword_search (limit * 2)%Z) sem 60) ∧
   non_increasing (map score out)).
Proof.
  intros Hlimit out sem. unfold out, hybrid_search. fold (semantic_results_of
    semantic_search limit use_semantic). fold sem.
  unfold py_take. rewrite (proj2 (Z.leb_le 0 limit) Hlimit). split_and!.
  - rewrite length_take. lia.
  - by intros ->.
  - intros Hne. destruct sem as [|s sem'] eqn:E; [done|]. split; [done|].
    rewrite <-firstn_map. apply non_increasing_take, (rrf_fields _ _ 60).
Qed.

Lemma hybrid_search_results_witness :
  let ks := fun _ : Z => [example_result "a"; example_result "b"] in
  let ss := Some (fun _ : Z => [example_result "c"; example_result "b"]) in
  let out := hybrid_search ks ss 1 true in
  let sem := semantic_results_of ss 1 true in
  length out ≤ Z.to_nat 1 ∧
  (sem = [] → out = take (Z.to_nat 1) (ks (1 * 2)%Z)) ∧
  (sem ≠ [] →
   out = take (Z.to_nat 1) (reciprocal_rank_fusion (ks (1 * 2)%Z) sem 60) ∧
   non_increasing (map score out)).
Proof.
  intros ks ss. apply (hybrid_search_results ks ss 1 true). lia.
Defined.

(** ** The similarity of the brute-force search *)

Open Scope R_scope.






Lemma insert_desc_perm x l : insert_desc x l ≡ₚ x :: l.
Proof.
  induction l as [|y l IH]; simpl; [done|].
  destruct (Rle_dec _ _); [done|]. rewrite IH. apply Permutation_swap.
Qed.

Lemma sort_desc_perm l : sort_desc l ≡ₚ l.
Proof.
  induction l as [|x l IH]; simpl; [done|]. by rewrite insert_desc_perm, IH.
Qed.

Lemma insert_desc_sorted x l :
  non_increasing_R (map snd l) → non_increasing_R (map snd (insert_desc x l)).
Proof.
  induction l as [|y l IH]; simpl; [by split|].
  intros [Hy Hl]. destruct (Rle_dec _ _) as [Hle|Hgt]; simpl.
  - split_and!; [|done|done]. apply Forall_cons. split; [lra|].
    eapply Forall_impl; [exact Hy|]. intros z Hz. simpl in Hz. lra.
  - split; [|by apply IH].
    rewrite Forall_fmap, insert_desc_perm. apply Forall_cons. split.
    + simpl. lra.
    + by rewrite <-Forall_fmap.
Qed.

Lemma sort_desc_sorted l : non_increasing_R (map snd (sort_desc l)).
Proof. induction l as [|x l IH]; simpl; [done|]. by apply insert_desc_sorted. Qed.

Lemma non_increasing_R_take n l : non_increasing_R l → non_increasing_R (take n l).
Proof.
  revert n. induction l as [|x l IH]; intros [|n]; simpl; try done.
  intros [Hx Hl]. split; [by apply Forall_take|by apply IH].
Qed.

Lemma hits_scores (metadata : gmap text Metadata) (P : R → Prop) results :
  Forall P (map snd results) →
  Forall P (map hit_score
              (omap (fun r => make_hit (fst r) (snd r) <$> metadata !! fst r) results)).
Proof.
  induction results as [|r results IH]; simpl; [done|].
  intros [Hr Hrest]%Forall_cons. destruct (metadata !! r.1); simpl; [|by apply IH].
  apply Forall_cons. split; [done|by apply IH].
Qed.

Lemma hits_sorted (metadata : gmap text Metadata) results :
  non_increasing_R (map snd results) →
  non_increasing_R
    (map hit_score
       (omap (fun r => make_hit (fst r) (snd r) <$> metadata !! fst r) results)).
Proof.
  induction results as [|r results IH]; simpl; [done|].
  intros [Hr Hrest]. destruct (metadata !! r.1); simpl; [|by apply IH].
  split; [by apply hits_scores|by apply IH].
Qed.

(** X11: the brute-force search returns at most [limit] hits, most
    similar first; every hit is a stored embedding that has metadata, and
    its score is the similarity of that embedding to the query. *)
Theorem search_brute_force_results embeddings metadata query_embedding limit :
  let hits := search_brute_force embeddings metadata query_embedding limit in
  length hits ≤ limit ∧
  non_increasing_R (map hit_score hits) ∧
  Forall (fun h => ∃ e m, (hit_event_id h, e) ∈ embeddings ∧
                          metadata !! hit_event_id h = Some m ∧
                          h = make_hit (hit_event_id h) (cosine query_embedding e) m)
         hits.
Proof.
  intros hits. unfold hits, search_brute_force.
  set (results := map (fun row => (row.1, cosine query_embedding row.2)) embeddings).
  split_and!.
  - etrans; [apply omap_length_le|]. rewrite length_take. lia.
  - apply hits_sorted. rewrite <-firstn_map.
    apply non_increasing_R_take, sort_desc_sorted.
  - apply Forall_forall. intros h Hh.
    apply list_elem_of_omap in Hh as ([id s] & Hin & Hm).
    apply elem_of_take in Hin as (i & Hin%list_elem_of_lookup_2 & _).
    rewrite sort_desc_perm in Hin. unfold results in Hin.
    apply list_elem_of_fmap in Hin as ([id' e] & Heq & Hin). simpl in Heq.
    injection Heq as -> ->. simpl in Hm.
    destruct (metadata !! id') as [m|] eqn:Em; [|done]. simpl in Hm.
    injection Hm as <-. simpl. eauto.
Qed.

Close Scope R_scope.

Lemma sync_all_twice_witness :
  let w := example_world (log_text [example_event "evt_1" "SessionStart"]) in
  ∃ ix', sync_all [str "s1"] w empty_index = (Ok 1, ix') ∧
         sync_all [str "s1"] w ix' = (Ok 0, ix').
Proof.
  intros w.
  destruct (sync_all [str "s1"] w empty_index) as [r ix'] eqn:E.
  assert (r = Ok 1) as ->.
  { apply (f_equal fst) in E. vm_compute in E. congruence. }
  exists ix'. split; [done|].
  exact (sync_all_twice [str "s1"] w empty_index 1 ix' E).
Defined.

(** ** What holds in every reachable storage *)



(** X13: in every reachable storage the primary keys of the table
    [events] are texts and are distinct. *)
Theorem reachable_index_keys w ix :
  reachable w ix →
  NoDup (row_ids ix) ∧ ∀ k, k ∈ row_ids ix → ∃ i, k = SText i.
Proof.
  intros (L & _ & Hnd & Hrows)%reachable_inv. split; [done|].
  intros k (r & -> & Hr)%list_elem_of_fmap.
  destruct (Hrows r Hr) as (i & Hi & _). eauto.
Qed.

Lemma reachable_index_keys_witness :
  NoDup (row_ids synced_index) ∧ ∀ k, k ∈ row_ids synced_index → ∃ i, k = SText i.
Proof.
  apply (reachable_index_keys logged_world synced_index).
  apply (reach_sync (str "s1") logged_world empty_index).
  apply (reach_hook (example_env "evt_1") [] (Some (str "SessionStart"))
           (dumps (session_start_input "startup")) empty_world empty_index).
  - apply reach_empty.
  - intros ty data c H. discriminate H.
  - intros j H.
    assert (Hl : loads (dumps (session_start_input "startup")) =
                 Some (session_start_input "startup")) by (vm_compute; reflexivity).
    rewrite Hl in H. injection H as <-. exact I.
Defined.

(** ** What the hook leaves alone *)

Lemma images_only_refl w : images_only w w.
Proof. by split_and!. Qed.

Lemma images_only_trans w1 w2 w3 :
  images_only w1 w2 → images_only w2 w3 → images_only w1 w3.
Proof.
  intros (H1 & H2 & H3) (H4 & H5 & H6). split_and!; [congruence..|by etrans].
Qed.

Lemma log_error_images_only env e ty w : images_only w (log_error env e ty w).
Proof. unfold log_error. destruct (fails_error_log env); by split_and!. Qed.

Lemma store_image_images_only env sid fb mt data idx name_of w r w' :
  store_image env sid fb mt data idx name_of w = (r, w') → images_only w w'.
Proof.
  unfold store_image. destruct (b64decode env data) as [bytes|e].
  2:{ intros; simplify_eq. apply images_only_refl. }
  destruct (image_files w !! _) eqn:E.
  - intros; simplify_eq. apply images_only_refl.
  - destruct (fails_write_image env); intros; simplify_eq; [apply images_only_refl|].
    split_and!; [done|done|]. simpl. by apply insert_subseteq.
Qed.

Lemma prompt_blocks_images_only env sid eid blocks : ∀ idx tp ir w r w',
  prompt_blocks env sid eid idx blocks tp ir w = (r, w') → images_only w w'.
Proof.
  induction blocks as [|block rest IH]; intros idx tp ir w r w' H.
  { simpl in H. simplify_eq. apply images_only_refl. }
  cbn [prompt_blocks] in H.
  destruct block as [| | | | |b]; try (by eapply IH).
  destruct (is_str "text" _); [by eapply IH|].
  destruct (is_str "image" _); [|by eapply IH].
  destruct (source_of b) as [source|e]; [|simplify_eq; apply images_only_refl].
  destruct (is_str "base64" _).
  - destruct (normalize_media_type _ _) as [mt|e];
      [|simplify_eq; apply images_only_refl].
    destruct (truthy _); [|by eapply IH].
    destruct (store_image _ _ _ _ _ _ _ _) as [[ref|e] w1] eqn:Est;
      apply store_image_images_only in Est; apply IH in H.
    + by eapply images_only_trans.
    + eapply images_only_trans; [exact Est|].
      eapply images_only_trans; [apply log_error_images_only|exact H].
  - destruct (is_str "url" _); [|by eapply IH].
    destruct (truthy _); by eapply IH.
Qed.

Lemma extract_images_from_prompt_images_only env blocks sid eid w r w' :
  extract_images_from_prompt env blocks sid eid w = (r, w') → images_only w w'.
Proof.
  unfold extract_images_from_prompt.
  destruct (prompt_blocks _ _ _ _ _ _ _ _) as [[[tps irs]|e] w1] eqn:E;
    apply prompt_blocks_images_only in E.
  - destruct (join_parts tps); intros; by simplify_eq.
  - intros; by simplify_eq.
Qed.

Lemma transcript_blocks_images_only env sid um blocks : ∀ bi im w r w',
  transcript_blocks env sid um bi blocks im w = (r, w') → images_only w w'.
Proof.
  induction blocks as [|block rest IH]; intros bi im w r w' H.
  { simpl in H. simplify_eq. apply images_only_refl. }
  cbn [transcript_blocks] in H.
  destruct block as [| | | | |b]; try (by eapply IH).
  destruct (negb (is_str "image" _)); [by eapply IH|].
  destruct (source_of b) as [source|e]; [|simplify_eq; apply images_only_refl].
  destruct (is_str "base64" _).
  - destruct (negb (truthy _)); [by eapply IH|].
    destruct (normalize_media_type _ _) as [mt|e];
      [|simplify_eq; apply images_only_refl].
    destruct (store_image _ _ _ _ _ _ _ _) as [[ref|e] w1] eqn:Est;
      apply store_image_images_only in Est; apply IH in H.
    + by eapply images_only_trans.
    + eapply images_only_trans; [exact Est|].
      eapply images_only_trans; [apply log_error_images_only|exact H].
  - destruct (is_str "url" _); [|by eapply IH].
    destruct (truthy _); by eapply IH.
Qed.

Lemma transcript_lines_images_only env sid lines : ∀ um acc w refs w',
  transcript_lines env sid lines um acc w = (refs, w') → images_only w w'.
Proof.
  induction lines as [|line rest IH]; intros um acc w refs w' H.
  { simpl in H. simplify_eq. apply images_only_refl. }
  cbn [transcript_lines] in H.
  destruct (negb (nonblank line)); [by eapply IH|].
  destruct (loads line) as [entry|]; [|by eapply IH].
  destruct entry as [| | | | |entry];
    try (simplify_eq; apply log_error_images_only).
  destruct (negb (is_str "user" _)); [by eapply IH|].
  destruct (message_content entry) as [c|e];
    [|simplify_eq; apply log_error_images_only].
  destruct c as [| | | |blocks|]; try (by eapply IH).
  destruct (transcript_blocks _ _ _ _ _ _ _) as [[ims|e] w1] eqn:Eb;
    apply transcript_blocks_images_only in Eb.
  - apply IH in H. by eapply images_only_trans.
  - simplify_eq. eapply images_only_trans; [exact Eb|apply log_error_images_only].
Qed.

Lemma extract_images_from_transcript_images_only env tp sid w refs w' :
  extract_images_from_transcript env tp sid w = (refs, w') → images_only w w'.
Proof.
  unfold extract_images_from_transcript.
  destruct tp as [| | |p| |];
    try (intros; simplify_eq; apply log_error_images_only).
  destruct (transcripts w !! p).
  - apply transcript_lines_images_only.
  - intros; simplify_eq. apply images_only_refl.
Qed.










(** ** What the hook appends *)

Lemma finish_event_appends env ty sid sidj n data event w ev w' :
  ty ≠ str "Stop" →
  finish_event env ty sid sidj n data event w = (Ok ev, w') →
  session_files w' !! sid =
    Some (default [] (session_files w !! sid) ++ dumps ev ++ [nl]).
Proof.
  intros Hty H. unfold finish_event in H.
  destruct (extract_content env ty data) as [content|e]; [|done].
  revert H.
  generalize (match content with
              | Some c => if truthy c then assoc_set (str "content") c event else event
              | None => event
              end).
  intros event1 H. cbv zeta in H.
  rewrite (bool_decide_eq_false_2 _ Hty) in H. cbn [andb] in H.
  unfold append_events in H. destruct (fails_append env); [done|].
  assert (ev = JObj event1) as -> by (repeat case_match; by simplify_eq).
  assert (w' = set_session_file sid
                 (default [] (session_files w !! sid) ++ log_text [JObj event1]) w) as ->
    by (repeat case_match; by simplify_eq).
  simpl. rewrite lookup_insert_eq. unfold log_text. simpl. by rewrite app_nil_r.
Qed.

(** X15: for an event that is not a Stop, a run of [process_event] that
    returns has appended one line to the log of the session, the
    serialization of the event it returns; what the file held before is
    still its beginning. *)
Theorem process_event_appends_one_line env ty stdin_data w ev w' :
  ty ≠ str "Stop" →
  process_event env ty stdin_data w = (Ok ev, w') →
  session_files w' !! hook_session env stdin_data =
    Some (default [] (session_files w !! hook_session env stdin_data) ++
          dumps ev ++ [nl]).
Proof.
  intros Hty H. unfold process_event in H. unfold hook_session.
  destruct stdin_data as [| | | | |sd]; try done. cbn [jget].
  match type of H with (if ?b then _ else _) = _ => destruct b end; [done|].
  cbv zeta in H.
  destruct (default (JObj sd) (assoc_get (str "data") sd)) as [| | | | |d];
    try (by eapply finish_event_appends).
  destruct (bool_decide (ty = str "UserPromptSubmit")); [|by eapply finish_event_appends].
  destruct (assoc_get (str "prompt") d) as [[| | | |blocks|]|];
    try (by eapply finish_event_appends).
  destruct (extract_images_from_prompt _ _ _ _ _) as [[[t irs]|e] w1] eqn:Ex; [|done].
  apply extract_images_from_prompt_images_only in Ex as (Hf & _).
  apply (finish_event_appends _ _ _ _ _ _ _ _ _ _ Hty) in H.
  by rewrite <-Hf.
Qed.

Lemma process_event_appends_one_line_witness :
  session_files (snd (process_event (example_env "evt_2") (str "SessionStart")
                        (session_start_input "startup")
                        (example_world (log_text [example_event "evt_1" "SessionStart"]))))
    !! hook_session (example_env "evt_2") (session_start_input "startup") =
  Some (default []
          (session_files (example_world (log_text [example_event "evt_1" "SessionStart"]))
           !! hook_session (example_env "evt_2") (session_start_input "startup")) ++
        dumps (built_event "evt_2" "SessionStart" 0 (session_start_input "startup")) ++
        [nl]).
Proof.
  apply (process_event_appends_one_line (example_env "evt_2") (str "SessionStart")).
  - vm_compute. congruence.
  - vm_compute. reflexivity.
Defined.

(** ** Prompts made of content blocks *)

Lemma prompt_blocks_texts env sid eid texts : ∀ idx tp ir w,
  prompt_blocks env sid eid idx (map text_block texts) tp ir w =
    (Ok (tp ++ map JStr texts, ir), w).
Proof.
  induction texts as [|t texts IH]; intros idx tp ir w; simpl.
  - by rewrite app_nil_r.
  - rewrite IH. by rewrite <-app_assoc.
Qed.

Lemma join_parts_texts texts : join_parts (map JStr texts) = Ok texts.
Proof. induction texts as [|t texts IH]; simpl; [done|]. by rewrite IH. Qed.

(** X16: a prompt that consists of text blocks yields their texts joined
    by newlines and no image reference, and nothing is written. *)
Theorem extract_images_text_only env texts sid eid w :
  extract_images_from_prompt env (map text_block texts) sid eid w =
    (Ok (join [nl] texts, []), w).
Proof.
  unfold extract_images_from_prompt. rewrite prompt_blocks_texts. simpl.
  by rewrite join_parts_texts.
Qed.

(** The media type of a stored image. *)
Lemma normalize_media_type_allowed fb m mt :
  str fb ∈ ALLOWED_IMAGE_TYPES →
  normalize_media_type fb m = Ok mt → ∃ t, mt = JStr t ∧ t ∈ ALLOWED_IMAGE_TYPES.
Proof.
  intros Hfb. unfold normalize_media_type.
  destruct m as [[| | |t| |]|]; try case_bool_decide; intros; simplify_eq; eauto.
Qed.

Lemma store_image_media_type env sid fb mt data idx name_of w ref w' :
  store_image env sid fb mt data idx name_of w = (Ok ref, w') →
  is_Some (jget "path" ref) ∧ jget "media_type" ref = Some mt ∧
  jget "index" ref = Some (JNum (Z.of_nat idx)).
Proof.
  unfold store_image. destruct (b64decode env data) as [bytes|e]; [|done].
  destruct (image_files w !! _).
  - intros; simplify_eq. split_and!; [by eexists|done|done].
  - destruct (fails_write_image env); intros; simplify_eq.
    split_and!; [by eexists|done|done].
Qed.

Lemma prompt_blocks_media_types env sid eid blocks : ∀ idx tp ir w tps irs w',
  prompt_blocks env sid eid idx blocks tp ir w = (Ok (tps, irs), w') →
  Forall (fun ref => is_Some (jget "path" ref) →
            ∃ t, jget "media_type" ref = Some (JStr t) ∧ t ∈ ALLOWED_IMAGE_TYPES) ir →
  Forall (fun ref => is_Some (jget "path" ref) →
            ∃ t, jget "media_type" ref = Some (JStr t) ∧ t ∈ ALLOWED_IMAGE_TYPES) irs.
Proof.
  induction blocks as [|block rest IH]; intros idx tp ir w tps irs w' H Hir.
  { simpl in H. by simplify_eq. }
  cbn [prompt_blocks] in H.
  destruct block as [| | | | |b]; try (by eapply IH).
  destruct (is_str "text" _); [by eapply IH|].
  destruct (is_str "image" _); [|by eapply IH].
  destruct (source_of b) as [source|e]; [|done].
  destruct (is_str "base64" _).
  - destruct (normalize_media_type _ _) as [mt|e] eqn:Em; [|done].
    apply normalize_media_type_allowed in Em as (t & -> & Ht);
      [|apply (bool_decide_unpack _); vm_compute; reflexivity].
    destruct (truthy _); [|by eapply IH].
    destruct (store_image _ _ _ _ _ _ _ _) as [[ref|e] w1] eqn:Est; [|by eapply IH].
    apply store_image_media_type in Est as (_ & Hmt & _).
    eapply IH; [exact H|]. apply Forall_app. split; [done|].
    apply Forall_singleton. eauto.
  - destruct (is_str "url" _); [|by eapply IH].
    destruct (truthy _); [|by eapply IH].
    eapply IH; [exact H|]. apply Forall_app. split; [done|].
    apply Forall_singleton. intros [x Hx]. unfold url_ref in Hx. done.
Qed.

(** X17: every reference to an image that [extract_images_from_prompt]
    stored (a reference with a path) carries one of the allowed media
    types: a type that is not allowed is recorded as [image/jpeg]. *)
Theorem stored_images_have_allowed_type env blocks sid eid w t irs w' :
  extract_images_from_prompt env blocks sid eid w = (Ok (t, irs), w') →
  Forall (fun ref => is_Some (jget "path" ref) →
            ∃ t, jget "media_type" ref = Some (JStr t) ∧ t ∈ ALLOWED_IMAGE_TYPES) irs.
Proof.
  unfold extract_images_from_prompt.
  destruct (prompt_blocks _ _ _ _ _ _ _ _) as [[[tps irs']|e] w1] eqn:E; [|done].
  destruct (join_parts tps); [|done]. intros; simplify_eq.
  eapply prompt_blocks_media_types; [exact E|constructor].
Qed.

Lemma stored_images_have_allowed_type_witness :
  let run := extract_images_from_prompt (example_env "evt_1")
               [base64_image_block "image/bmp" (JStr (str "aGVsbG8="))]
               (str "s1") (str "evt_1") empty_world in
  Forall (fun ref => is_Some (jget "path" ref) →
            ∃ t, jget "media_type" ref = Some (JStr t) ∧ t ∈ ALLOWED_IMAGE_TYPES)
         (prompt_refs run).
Proof.
  intros run.
  apply (stored_images_have_allowed_type (example_env "evt_1")
           [base64_image_block "image/bmp" (JStr (str "aGVsbG8="))]
           (str "s1") (str "evt_1") empty_world [] (prompt_refs run) (snd run)).
  vm_compute. reflexivity.
Defined.

(** ** Correlating the images twice *)

Lemma patch_images_length indices refs : ∀ (es : list json) u es' u',
  patch_images indices refs es u = (es', u') → length es' = length es.
Proof.
  induction refs as [|[k r] refs IH]; intros es u es' u' H; simpl in H;
    [by simplify_eq|].
  destruct (indices !! k) as [i|]; [|by eapply IH].
  destruct (es !! i) as [event|]; [|by eapply IH].
  destruct (has_images event); [by eapply IH|].
  apply IH in H. by rewrite H, length_insert.
Qed.

Lemma patch_images_keeps indices refs : ∀ (es : list json) u es' u' i e,
  patch_images indices refs es u = (es', u') →
  es !! i = Some e → has_images e = true → es' !! i = Some e.
Proof.
  induction refs as [|[k r] refs IH]; intros es u es' u' i e H Hi He; simpl in H;
    [by simplify_eq|].
  destruct (indices !! k) as [j|]; [|by eapply IH].
  destruct (es !! j) as [event|] eqn:Ej; [|by eapply IH].
  destruct (has_images event) eqn:Eh; [by eapply IH|].
  eapply IH; [exact H| |done].
  destruct (decide (i = j)) as [->|Hne]; [congruence|].
  by rewrite list_lookup_insert_ne.
Qed.

Lemma patch_images_covers indices refs : ∀ (es : list json) u es' u',
  Forall is_dict es →
  patch_images indices refs es u = (es', u') →
  ∀ k r i e, (k, r) ∈ refs → indices !! k = Some i → es' !! i = Some e →
    has_images e = true.
Proof.
  induction refs as [|[k0 r0] refs IH]; intros es u es' u' Hd H k r i e Hin Hk He;
    [by apply elem_of_nil in Hin|].
  simpl in H. apply elem_of_cons in Hin as [Heq|Hin].
  - injection Heq as -> ->. rewrite Hk in H.
    destruct (es !! i) as [event|] eqn:Ei.
    + destruct (has_images event) eqn:Eh.
      * assert (Hsame : es' !! i = Some event)
          by (eapply patch_images_keeps; [exact H|exact Ei|done]).
        rewrite Hsame in He. by injection He as <-.
      * assert (Hev : is_dict event).
        { rewrite Forall_forall in Hd. eapply Hd, list_elem_of_lookup_2, Ei. }
        assert (Hset : es' !! i = Some (set_images r0 event)).
        { eapply patch_images_keeps; [exact H| |by apply has_images_set_images].
          apply list_lookup_insert_eq. by eapply lookup_lt_Some. }
        rewrite Hset in He. injection He as <-. by apply has_images_set_images.
    + apply patch_images_length in H. apply lookup_lt_Some in He.
      apply lookup_ge_None in Ei. lia.
  - destruct (indices !! k0) as [j|]; [|by eapply IH].
    destruct (es !! j) as [event|] eqn:Ej; [|by eapply IH].
    destruct (has_images event); [by eapply IH|].
    eapply IH; [|exact H|done..].
    apply Forall_insert; [done|].
    assert (Hev : is_dict event).
    { rewrite Forall_forall in Hd. eapply Hd, list_elem_of_lookup_2, Ej. }
    by destruct event.
Qed.

Lemma patch_images_noop indices refs (es : list json) u :
  (∀ k r i e, (k, r) ∈ refs → indices !! k = Some i → es !! i = Some e →
     has_images e = true) →
  patch_images indices refs es u = (es, u).
Proof.
  induction refs as [|[k r] refs IH]; intros Hall; simpl; [done|].
  assert (Hrest : patch_images indices refs es u = (es, u)).
  { apply IH. intros k' r' i e Hin. apply (Hall k' r'). by right. }
  destruct (indices !! k) as [i|] eqn:Ek; [|done].
  destruct (es !! i) as [event|] eqn:Ei; [|done].
  rewrite (Hall k r i event); [done|by left|done|done].
Qed.

Lemma is_user_prompt_set_images rs e :
  is_user_prompt (set_images rs e) = is_user_prompt e.
Proof.
  destruct e as [| | | | |d]; try done. unfold is_user_prompt, jget. simpl.
  by rewrite assoc_get_set_ne.
Qed.

Lemma patch_images_types indices refs : ∀ (es : list json) u es' u',
  patch_images indices refs es u = (es', u') →
  map is_user_prompt es' = map is_user_prompt es.
Proof.
  induction refs as [|[k r] refs IH]; intros es u es' u' H; simpl in H;
    [by simplify_eq|].
  destruct (indices !! k) as [i|]; [|by eapply IH].
  destruct (es !! i) as [event|] eqn:Ei; [|by eapply IH].
  destruct (has_images event); [by eapply IH|].
  apply IH in H. rewrite H. rewrite (list_fmap_insert is_user_prompt es i).
  rewrite is_user_prompt_set_images. apply list_insert_id.
  by rewrite list_lookup_fmap, Ei.
Qed.

Lemma user_prompt_indices_types es : ∀ es' i,
  map is_user_prompt es' = map is_user_prompt es →
  user_prompt_indices_from i es' = user_prompt_indices_from i es.
Proof.
  induction es as [|e es IH]; intros [|e' es'] i H; try done.
  simpl in H. injection H as He Hes. simpl. rewrite He, (IH es' (S i) Hes). done.
Qed.

Lemma patch_images_wf_dict indices refs : ∀ (es : list json) u es' u',
  wf_refs refs → Forall wf_dict es →
  patch_images indices refs es u = (es', u') → Forall wf_dict es'.
Proof.
  induction refs as [|[k r] refs IH]; intros es u es' u' Hrefs Hes H; simpl in H;
    [by simplify_eq|].
  apply Forall_cons in Hrefs as [Hr Hrefs].
  destruct (indices !! k) as [i|]; [|by eapply IH].
  destruct (es !! i) as [event|] eqn:Ei; [|by eapply IH].
  destruct (has_images event); [by eapply IH|].
  eapply IH; [done| |exact H]. apply Forall_insert; [done|].
  assert (Hev : wf_dict event).
  { rewrite Forall_forall in Hes. eapply Hes, list_elem_of_lookup_2, Ei. }
  destruct event as [| | | | |d]; try (by destruct Hev).
  split; [done|]. apply wf_assoc_set; [by destruct Hev|by apply wf_json_arr].
Qed.

Lemma update_session_with_images_unfold env sid refs w es :
  session_files w !! sid = Some (log_text es) → Forall wf_dict es →
  update_session_with_images env sid refs w =
  match refs with
  | [] => w
  | _ :: _ =>
      match patch_images (user_prompt_indices_from 0 es) refs es false with
      | (es', true) =>
          if fails_rewrite_session env
          then log_error env "OSError" (str "UpdateSessionImages") w
          else set_session_file sid (log_text es') w
      | (_, false) => w
      end
  end.
Proof.
  intros Hfile Hes. unfold update_session_with_images. rewrite Hfile.
  destruct refs as [|p refs]; [done|]. by rewrite read_events_log_text.
Qed.

(** X18: correlating the same images a second time changes nothing.  On
    a log of well-formed dicts, once [update_session_with_images] has run
    (and could write the file if it had to), a run with the same
    references leaves every file as it is: the prompts it would patch have
    their images. *)
Theorem update_session_with_images_idempotent env env' sid refs w es :
  session_files w !! sid = Some (log_text es) →
  Forall wf_dict es → wf_refs refs →
  fails_rewrite_session env = false →
  update_session_with_images env' sid refs
    (update_session_with_images env sid refs w) =
  update_session_with_images env sid refs w.
Proof.
  intros Hfile Hes Hrefs Hwrite.
  rewrite (update_session_with_images_unfold env sid refs w es) by done.
  destruct refs as [|p refs].
  { by rewrite (update_session_with_images_unfold env' sid [] w es). }
  set (indices := user_prompt_indices_from 0 es).
  destruct (patch_images indices (p :: refs) es false) as [es' [|]] eqn:Ep.
  2:{ rewrite (update_session_with_images_unfold env' sid _ w es) by done.
      fold indices. by rewrite Ep. }
  rewrite Hwrite.
  rewrite (update_session_with_images_unfold env' sid _ _ es').
  - rewrite (user_prompt_indices_types es es' 0) by (by eapply patch_images_types).
    fold indices. rewrite patch_images_noop; [done|].
    eapply patch_images_covers; [|exact Ep].
    eapply Forall_impl; [exact Hes|]. by intros e [].
  - simpl. by rewrite lookup_insert_eq.
  - by eapply patch_images_wf_dict.
Qed.

Lemma update_session_with_images_idempotent_witness :
  let env := example_env "evt_1" in
  let refs := [(0, [example_image_ref])] in
  let w := example_world (log_text [example_event "evt_1" "UserPromptSubmit"]) in
  update_session_with_images env (str "s1") refs
    (update_session_with_images env (str "s1") refs w) =
  update_session_with_images env (str "s1") refs w.
Proof.
  intros env refs w.
  apply (update_session_with_images_idempotent env env (str "s1") refs w
           [example_event "evt_1" "UserPromptSubmit"]).
  - reflexivity.
  - apply Forall_singleton. split; [exact I|]. wf_literal. apply wf_nil_obj.
  - apply Forall_singleton. apply Forall_singleton. wf_literal.
  - reflexivity.
Defined.

(** ** The response taken from a transcript *)

Lemma scan_response_passed_over after rest :
  Forall passed_over after → scan_response (after ++ rest) = scan_response rest.
Proof.
  induction 1 as [|l after Hl Hafter IH]; [done|].
  rewrite <-app_comm_cons. cbn [scan_response].
  destruct Hl as [->|(entry & -> & ->)]; [done|].
  by destruct (nonblank l).
Qed.

(** X19: [get_response] returns the first text block of the last
    assistant entry of the transcript: the lines after that entry, blank
    or of another type, are passed over, and the lines before it are not
    looked at. *)
Theorem get_response_last_assistant p w c before line after entry blocks t :
  transcripts w !! p = Some c →
  split_nl (strip c) = before ++ line :: after →
  Forall passed_over after →
  nonblank line = true → loads line = Some (JObj entry) →
  is_str "assistant" (assoc_get (str "type") entry) = true →
  message_content entry = Ok (JArr blocks) →
  first_text_block blocks = Ok (Some t) →
  get_response (JStr p) w = t.
Proof.
  intros Hp Hlines Hafter Hnb Hload Hty Hmsg Htext.
  unfold get_response. rewrite Hp, Hlines.
  rewrite reverse_app, reverse_cons, <-app_assoc.
  rewrite scan_response_passed_over by (by apply Forall_reverse).
  cbn [app scan_response]. by rewrite Hnb, Hload, Hty, Hmsg, Htext.
Qed.

Lemma get_response_last_assistant_witness :
  get_response (JStr (str "/t/s1.jsonl"))
    {| session_files := ∅; image_files := ∅;
       transcripts := {[ str "/t/s1.jsonl" := two_entry_transcript ]};
       errors_log := [] |} =
  JStr (str "hi there").
Proof.
  apply (get_response_last_assistant (str "/t/s1.jsonl") _ two_entry_transcript []
           (strip example_transcript) [dumps user_entry]
           [(str "type", JStr (str "assistant"));
            (str "message",
             JObj [(str "content",
                    JArr [JObj [(str "type", JStr (str "text"));
                                (str "text", JStr (str "hi there"))]])])]
           [JObj [(str "type", JStr (str "text"));
                  (str "text", JStr (str "hi there"))]]).
  - reflexivity.
  - vm_compute. reflexivity.
  - apply Forall_singleton. right. eexists. split; vm_compute; reflexivity.
  - vm_compute. reflexivity.
  - vm_compute. reflexivity.
  - vm_compute. reflexivity.
  - vm_compute. reflexivity.
  - vm_compute. reflexivity.
Defined.

(** ** Block quotes *)

Lemma split_nl_nonempty s : split_nl s ≠ [].
Proof.
  destruct s as [|c s]; simpl; [done|].
  destruct (decide (c = nl)); [done|]. by destruct (split_nl s).
Qed.

Lemma split_nl_no_nl s : Forall (fun l => nl ∉ l) (split_nl s).
Proof.
  induction s as [|c s IH]; simpl.
  - apply Forall_singleton, not_elem_of_nil.
  - destruct (decide (c = nl)) as [->|Hne].
    + apply Forall_cons. split; [apply not_elem_of_nil|done].
    + destruct (split_nl s) as [|l ls] eqn:E; [by apply split_nl_nonempty in E|].
      apply Forall_cons in IH as [Hl Hls]. apply Forall_cons. split; [|done].
      apply not_elem_of_cons. split; [congruence|done].
Qed.

Lemma split_nl_join parts :
  Forall (fun l => nl ∉ l) parts → parts ≠ [] → split_nl (join [nl] parts) = parts.
Proof.
  induction 1 as [|p ps Hp Hps IH]; [done|]. intros _.
  destruct ps as [|q ps].
  - simpl. by apply split_nl_single.
  - change (join [nl] (p :: q :: ps)) with (p ++ nl :: join [nl] (q :: ps)).
    rewrite split_nl_line by done. by rewrite IH.
Qed.

(** X20: [quote] puts the mark of a block quote before every line of the
    text, blank lines included, and changes nothing else: the lines of the
    quoted text are the lines of the text, each after [> ]. *)
Theorem quote_lines s :
  split_nl (quote s) = map (fun line => str "> " ++ line) (split_nl s).
Proof.
  unfold quote. apply split_nl_join.
  - rewrite Forall_fmap. eapply Forall_impl; [apply split_nl_no_nl|].
    intros l Hl. simpl. intros H.
    repeat (apply elem_of_cons in H as [H|H]; [done|]). done.
  - intros H. apply fmap_nil_inv in H. by apply split_nl_nonempty in H.
Qed.

(** ** The repair tool *)

Lemma repair_gap_step w m st st' :
  repair_gap w m st = Ok st' →
  rs_repaired st' + rs_failed st' + rs_skipped st' =
    S (rs_repaired st + rs_failed st + rs_skipped st) ∧
  length (rs_events st') + rs_repaired st = length (rs_events st) + rs_repaired st' ∧
  rs_events st `sublist_of` rs_events st'.
Proof.
  unfold repair_gap. intros H.
  destruct (negb (gap_transcript_exists m)); [simplify_eq; simpl; split_and!; [lia|lia|done]|].
  destruct (negb (truthy _)); [simplify_eq; simpl; split_and!; [lia|lia|done]|].
  destruct (from_option _ _ _); [simplify_eq; simpl; split_and!; [lia|lia|done]|].
  destruct (assoc_get (str "ts") (gap_stop_event m)); [|done].
  destruct (assoc_get (str "session_id") (gap_stop_event m)); [|done].
  simplify_eq. cbn [rs_events rs_repaired rs_failed rs_skipped]. split_and!.
  - lia.
  - unfold list_insert_at. rewrite length_app. cbn [length].
    rewrite <-(take_drop (S (gap_index m)) (rs_events st)) at 3.
    rewrite length_app. lia.
  - unfold list_insert_at.
    rewrite <-(take_drop (S (gap_index m)) (rs_events st)) at 1.
    apply sublist_app; [done|]. by apply sublist_cons.
Qed.

Lemma repair_gaps_steps w gaps : ∀ st st',
  repair_gaps w gaps st = Ok st' →
  rs_repaired st' + rs_failed st' + rs_skipped st' =
    length gaps + (rs_repaired st + rs_failed st + rs_skipped st) ∧
  length (rs_events st') + rs_repaired st = length (rs_events st) + rs_repaired st' ∧
  rs_events st `sublist_of` rs_events st'.
Proof.
  induction gaps as [|m gaps IH]; intros st st' H; simpl in H.
  { simplify_eq. split_and!; [simpl; lia|lia|done]. }
  destruct (repair_gap w m st) as [st1|] eqn:Eg; [|done].
  apply repair_gap_step in Eg as (H1 & H2 & H3).
  apply IH in H as (H4 & H5 & H6). split_and!; [simpl; lia|lia|by etrans].
Qed.

(** X21: every gap a repair finds is counted once: the numbers of
    repaired, failed and skipped gaps [repair_session] returns add up to
    the number of missing responses. *)
Theorem repair_session_counts content dry_run w c content' :
  repair_session content dry_run w = Ok (c, content') →
  n_repaired c + n_failed c + n_skipped c = n_missing c.
Proof.
  unfold repair_session. intros H.
  destruct (analyze_session content w) as [[|g gaps]|]; [by simplify_eq| |done].
  destruct (parse_lines _) as [evs|]; [|done].
  destruct (repair_gaps _ _ _) as [st|] eqn:Er; [|done].
  apply repair_gaps_steps in Er as (Hsum & _). simplify_eq.
  cbn [n_repaired n_failed n_skipped n_missing]. rewrite Hsum, length_reverse.
  simpl. lia.
Qed.

Lemma repair_session_counts_witness :
  let c := repair_counts (repair_session two_stops_log false transcript_world) in
  n_repaired c + n_failed c + n_skipped c = n_missing c.
Proof.
  intros c.
  apply (repair_session_counts two_stops_log false transcript_world c
           (repaired_log (repair_session two_stops_log false transcript_world))).
  vm_compute. reflexivity.
Defined.

(** X22: a repair only inserts.  On a log of well-formed dicts the file
    [repair_session] leaves is again a log; the events it held are all
    there, in their order, and the log has grown by the number of
    repaired gaps, by nothing in a dry run. *)
Theorem repair_session_only_inserts es dry_run w c content' :
  Forall wf_dict es →
  repair_session (log_text es) dry_run w = Ok (c, content') →
  ∃ es', content' = log_text es' ∧ es `sublist_of` es' ∧
         length es' = length es + (if dry_run then 0 else n_repaired c).
Proof.
  intros Hes H. unfold repair_session, analyze_session in H.
  rewrite parse_lines_log_text in H by done.
  assert (Hsame : ∀ n, n = 0 ∨ dry_run = true →
            ∃ es', log_text es = log_text es' ∧ es `sublist_of` es' ∧
                   length es' = length es + (if dry_run then 0 else n)).
  { intros n Hn. exists es. split_and!; [done|done|].
    destruct Hn as [->| ->]; [destruct dry_run|]; lia. }
  destruct (find_gaps w 0 es) as [[|g gaps]|]; [| |done].
  { simplify_eq. apply (Hsame 0). by left. }
  destruct (repair_gaps _ _ _) as [st|] eqn:Er; [|done].
  apply repair_gaps_steps in Er as (_ & Hlen & Hsub). simpl in Hlen, Hsub.
  simplify_eq. cbn [n_repaired].
  destruct dry_run; cbn [negb andb]; [apply (Hsame 0); by right|].
  case_bool_decide as Hrep.
  - exists (rs_events st). split_and!; [done|done|lia].
  - apply (Hsame (rs_repaired st)). left. lia.
Qed.

Lemma repair_session_only_inserts_witness :
  let es := [stop_event "evt_1"; stop_event "evt_2"] in
  let r := repair_session (log_text es) false transcript_world in
  ∃ es', repaired_log r = log_text es' ∧ es `sublist_of` es' ∧
         length es' = length es + (if false then 0 else n_repaired (repair_counts r)).
Proof.
  intros es r.
  apply (repair_session_only_inserts es false transcript_world (repair_counts r)
           (repaired_log r)).
  - repeat (apply Forall_cons; split; [split; [exact I|wf_literal; wf_literal]|]).
    by apply Forall_nil.
  - vm_compute. reflexivity.
Defined.

(** ** What the analysis reports *)

Lemma find_gaps_sound w evs : ∀ i gaps,
  find_gaps w i evs = Ok gaps →
  Forall (fun m =>
    i ≤ gap_index m ∧
    gap_of w evs {| gap_index := gap_index m - i;
                    gap_stop_event := gap_stop_event m;
                    gap_transcript_path := gap_transcript_path m;
                    gap_transcript_exists := gap_transcript_exists m |}) gaps.
Proof.
  induction evs as [|ev rest IH]; intros i gaps H.
  { simpl in H. simplify_eq. constructor. }
  assert (Hrest : ∀ gs, find_gaps w (S i) rest = Ok gs →
    Forall (fun m =>
      i ≤ gap_index m ∧
      gap_of w (ev :: rest) {| gap_index := gap_index m - i;
                      gap_stop_event := gap_stop_event m;
                      gap_transcript_path := gap_transcript_path m;
                      gap_transcript_exists := gap_transcript_exists m |}) gs).
  { intros gs Hgs. eapply Forall_impl; [by eapply IH|].
    intros m (Hle & H1 & H2 & H3 & H4 & H5). cbn [gap_index gap_stop_event
      gap_transcript_path gap_transcript_exists] in *.
    split; [lia|]. unfold gap_of. cbn [gap_index gap_stop_event
      gap_transcript_path gap_transcript_exists].
    replace (gap_index m - i) with (S (gap_index m - S i)) by lia.
    split_and!; done. }
  cbn [find_gaps] in H. destruct ev as [| | | | |event]; try done.
  destruct (is_str "Stop" _) eqn:Estop; [|by eapply Hrest].
  destruct (assoc_get (str "data") event) as [[| | | | |d]|] eqn:Edata; try done.
  - assert (Hnext : ∀ hr, match rest with
                          | [] => Ok false
                          | JObj next :: _ =>
                              Ok (is_str "AssistantResponse" (assoc_get (str "type") next))
                          | _ :: _ => Raise "AttributeError"
                          end = Ok hr → negb hr = true →
              ∀ next, (JObj event :: rest) !! 1 = Some next →
                      is_str "AssistantResponse" (jget "type" next) = false).
    { intros hr Hhr Hneg next Hn. destruct rest as [|[| | | | |nx] rest']; try done.
      simpl in Hn. simplify_eq. unfold jget. by apply negb_true_iff in Hneg. }
    destruct (match rest with [] => Ok false | _ => _ end) as [hr|] eqn:Ehr; [|done].
    destruct (negb hr) eqn:Eneg; [|by eapply Hrest].
    destruct (truthy_opt _); [|by eapply Hrest]. cbn [andb] in H.
    destruct (assoc_get (str "transcript_path") d) as [[| | |p| |]|] eqn:Ep; try done.
    destruct (find_gaps w (S i) rest) as [gs|] eqn:Eg; [|done]. simplify_eq.
    apply Forall_cons. split; [|by apply Hrest].
    cbn [gap_index gap_stop_event gap_transcript_path gap_transcript_exists].
    split; [lia|]. unfold gap_of. cbn [gap_index gap_stop_event
      gap_transcript_path gap_transcript_exists]. rewrite Nat.sub_diag.
    split_and!; [done|done|eauto|done|by eapply Hnext].
  - destruct (match rest with [] => Ok false | _ => _ end) as [hr|]; [|done].
    destruct (negb hr); [|by eapply Hrest]. cbn [truthy_opt andb] in H.
    by eapply Hrest.
Qed.

(** X23: every gap [analyze_session] reports on a log of well-formed
    dicts is a Stop event of the log, at the index reported, whose data
    names the transcript reported and which is not followed by an
    AssistantResponse; the flag tells whether that transcript exists. *)
Theorem analyze_session_sound es w gaps :
  Forall wf_dict es →
  analyze_session (log_text es) w = Ok gaps →
  Forall (gap_of w es) gaps.
Proof.
  intros Hes H. unfold analyze_session in H.
  rewrite parse_lines_log_text in H by done.
  apply find_gaps_sound in H. eapply Forall_impl; [exact H|].
  intros [i ev p ex] [_ Hgap]. cbn [gap_index gap_stop_event gap_transcript_path
    gap_transcript_exists] in Hgap. by rewrite Nat.sub_0_r in Hgap.
Qed.

Lemma analyze_session_sound_witness :
  let es := [stop_event "evt_1"; stop_event "evt_2"] in
  Forall (gap_of transcript_world es)
         (gaps_of (analyze_session (log_text es) transcript_world)).
Proof.
  intros es.
  apply (analyze_session_sound es transcript_world).
  - repeat (apply Forall_cons; split; [split; [exact I|wf_literal; wf_literal]|]).
    by apply Forall_nil.
  - vm_compute. reflexivity.
Defined.

(** ** The Stop event and the response *)

Lemma user_prompt_indices_app es tail : ∀ i,
  user_prompt_indices_from i (es ++ tail) =
  user_prompt_indices_from i es ++ user_prompt_indices_from (i + length es) tail.
Proof.
  induction es as [|e es IH]; intros i; simpl.
  - by rewrite Nat.add_0_r.
  - rewrite IH. replace (S i + length es) with (i + S (length es)) by lia.
    by destruct (is_user_prompt e).
Qed.

Lemma user_prompt_indices_bound es : ∀ i k j,
  user_prompt_indices_from i es !! k = Some j → i ≤ j < i + length es.
Proof.
  induction es as [|e es IH]; intros i k j H; simpl in H; [done|].
  destruct (is_user_prompt e).
  - destruct k as [|k]; simpl in H.
    + simplify_eq. simpl. lia.
    + apply IH in H. simpl. lia.
  - apply IH in H. simpl. lia.
Qed.

Lemma patch_images_prefix indices refs tail : ∀ (es : list json) u,
  (∀ k j, indices !! k = Some j → j < length es) →
  patch_images indices refs (es ++ tail) u =
  ((patch_images indices refs es u).1 ++ tail, (patch_images indices refs es u).2).
Proof.
  induction refs as [|[k r] refs IH]; intros es u Hidx; simpl; [done|].
  destruct (indices !! k) as [j|] eqn:Ek; [|by apply IH].
  pose proof (Hidx _ _ Ek) as Hj.
  rewrite lookup_app_l by done.
  destruct (es !! j) as [event|] eqn:Ej; [|by apply IH].
  destruct (has_images event); [by apply IH|].
  rewrite insert_app_l by done. apply IH.
  intros k' j' Hk'. rewrite length_insert. by eapply Hidx.
Qed.

Lemma finish_event_stop env sid sid_j n data event w es ev w' tp :
  env_ok env → wf_json (JObj event) → wf_json sid_j →
  is_user_prompt (JObj event) = false →
  Forall wf_dict es →
  default [] (session_files w !! sid) = log_text es →
  match data with
  | JObj d => assoc_get (str "transcript_path") d
  | _ => None
  end = Some tp →
  truthy tp = true → truthy (get_response tp w) = true →
  finish_event env (str "Stop") sid sid_j n data event w = (Ok ev, w') →
  ∃ es', length es' = length es ∧
    (ev = JObj event ∨ ∃ c, ev = JObj (assoc_set (str "content") c event)) ∧
    session_files w' !! sid =
      Some (log_text (es' ++ [ev; response_event env sid_j (JNum (Z.of_nat n))
                                    (get_response tp w)])).
Proof.
  intros Henv Hwf Hsid Hup Hes Hfile Htp Htruthy Hresp H. unfold finish_event in H.
  destruct (extract_content env (str "Stop") data) as [content|e] eqn:Ec; [|done].
  assert (Hev1 : wf_json (JObj
            match content with
            | Some c => if truthy c then assoc_set (str "content") c event else event
            | None => event
            end) ∧
          is_user_prompt (JObj
            match content with
            | Some c => if truthy c then assoc_set (str "content") c event else event
            | None => event
            end) = false ∧
          (JObj match content with
            | Some c => if truthy c then assoc_set (str "content") c event else event
            | None => event
            end = JObj event ∨
           ∃ c, JObj match content with
            | Some c => if truthy c then assoc_set (str "content") c event else event
            | None => event
            end = JObj (assoc_set (str "content") c event))).
  { destruct content as [c|]; [|by split_and!; [..|left]].
    destruct (truthy c); [|by split_and!; [..|left]]. split_and!.
    - apply wf_assoc_set; [done|]. by eapply Henv.
    - unfold is_user_prompt, jget in *. by rewrite assoc_get_set_ne.
    - right. eauto. }
  revert H Hev1.
  generalize (match content with
              | Some c => if truthy c then assoc_set (str "content") c event else event
              | None => event
              end).
  intros event1 H (Hwf1 & Hup1 & Hform). cbv zeta in H.
  rewrite Htp in H. cbn [truthy_opt default] in H. unfold Datatypes.id in H.
  rewrite bool_decide_eq_true_2, Htruthy, Hresp in H by done. cbn [andb] in H.
  unfold append_events in H. destruct (fails_append env); [done|].
  cbv beta iota zeta in H.
  fold (response_event env sid_j (JNum (Z.of_nat n)) (get_response tp w)) in H.
  set (resp := response_event env sid_j (JNum (Z.of_nat n)) (get_response tp w)) in *. rewrite Hfile, <-log_text_app in H.
  set (w1 := set_session_file sid (log_text (es ++ [JObj event1; resp])) w) in H.
  destruct (extract_images_from_transcript env tp sid w1) as [refs w2] eqn:Ex.
  apply extract_images_from_transcript_images_only in Ex as (Hf2 & _).
  assert (Hfile2 : session_files w2 !! sid = Some (log_text (es ++ [JObj event1; resp]))).
  { rewrite Hf2. unfold w1. simpl. by rewrite lookup_insert_eq. }
  assert (Hall : Forall wf_dict (es ++ [JObj event1; resp])).
  { apply Forall_app. split; [done|]. apply Forall_cons. split; [by split|].
    apply Forall_singleton. split; [done|]. unfold resp, response_event.
    pose proof (get_response_wf tp w) as Hr. wf_literal. wf_literal. }
  assert (ev = JObj event1 ∧ w' = update_session_with_images env sid refs w2)
    as [-> ->].
  { repeat case_match; by simplify_eq. }
  clear H. rewrite (update_session_with_images_unfold env sid refs w2 _ Hfile2 Hall).
  assert (Hdone : ∃ es', length es' = length es ∧
            session_files w2 !! sid = Some (log_text (es' ++ [JObj event1; resp]))).
  { by exists es. }
  assert (Hgoal : ∀ w3, (∃ es', length es' = length es ∧
            session_files w3 !! sid = Some (log_text (es' ++ [JObj event1; resp]))) →
            ∃ es', length es' = length es ∧
              (JObj event1 = JObj event ∨
               ∃ c, JObj event1 = JObj (assoc_set (str "content") c event)) ∧
              session_files w3 !! sid = Some (log_text (es' ++ [JObj event1; resp]))).
  { intros w3 (es' & Hl & Hf). exists es'. by split_and!. }
  apply Hgoal. destruct refs as [|p refs]; [done|].
  rewrite user_prompt_indices_app. cbn [user_prompt_indices_from].
  rewrite Hup1. change (is_user_prompt resp) with false. cbv iota.
  rewrite app_nil_r, patch_images_prefix.
  2:{ intros k j Hk. apply user_prompt_indices_bound in Hk. simpl in Hk. lia. }
  destruct (patch_images (user_prompt_indices_from 0 es) (p :: refs) es false)
    as [es1 b] eqn:Ep. cbn [fst snd].
  destruct b; [|done].
  destruct (fails_rewrite_session env).
  - by rewrite log_error_files.
  - exists es1. split; [by eapply patch_images_length|].
    simpl. by rewrite lookup_insert_eq.
Qed.

(** X24: a Stop event and the response it captured are written together.
    When the input of a Stop hook names a transcript (a truthy
    [transcript_path]) from which [get_response] reads a non-empty
    response, and the session file is a log of [es] well-formed dicts,
    then a successful [process_event] leaves a log that ends with the Stop
    event it returns followed by an AssistantResponse event: the response
    is both its content and its [data.response], and its session
    identifier and agent session number are those of the Stop event.  The
    correlation of images that runs afterwards keeps the number of earlier
    events and leaves these two in place. *)
Theorem stop_appends_event_and_response env stdin_data w es tp ev w' :
  env_ok env → wf_json stdin_data → Forall wf_dict es →
  default [] (session_files w !! hook_session env stdin_data) = log_text es →
  jget "transcript_path" (hook_data stdin_data) = Some tp →
  truthy tp = true → truthy (get_response tp w) = true →
  process_event env (str "Stop") stdin_data w = (Ok ev, w') →
  ∃ es' session_id num,
    length es' = length es ∧
    jget "session_id" ev = Some session_id ∧
    jget "agent_session_num" ev = Some num ∧
    session_files w' !! hook_session env stdin_data =
      Some (log_text (es' ++ [ev; response_event env session_id num (get_response tp w)])).
Proof.
  intros Henv Hwf Hes Hfile Htp Htruthy Hresp H.
  unfold process_event in H. destruct stdin_data as [| | | | |sd]; try done.
  unfold hook_session, hook_data, jget in *.
  destruct (if truthy_opt (assoc_get (str "cwd") sd) then false
            else match assoc_get (str "data") sd with
                 | None | Some (JObj _) => false
                 | Some _ => true
                 end); [done|].
  cbv zeta in H.
  set (session_id := default (JStr (str "unknown")) (assoc_get (str "session_id") sd)) in *.
  set (sid := session_key env session_id) in *.
  set (data := default (JObj sd) (assoc_get (str "data") sd)) in *.
  set (n := get_agent_session_num _ _ _) in H.
  assert (Hsid : wf_json session_id).
  { unfold session_id. by apply wf_default. }
  assert (Hdata : wf_json data).
  { unfold data. by apply wf_default. }
  set (event := [(str "id", JStr (new_event_id env)); (str "type", JStr (str "Stop"));
                 (str "ts", JStr (now env)); (str "session_id", session_id);
                 (str "agent_session_num", JNum (Z.of_nat n)); (str "data", data)]) in H.
  assert (H' : finish_event env (str "Stop") sid session_id n data event w = (Ok ev, w')).
  { by destruct data. }
  clear H.
  eapply (finish_event_stop env sid session_id n data event w es ev w' tp) in H'
    as (es' & Hlen & Hform & Hfile'); [|done|unfold event; wf_literal|done..].
  exists es', session_id, (JNum (Z.of_nat n)). split; [done|].
  split_and!; [..|done].
  - destruct Hform as [->| [c ->]]; [done|].
    unfold jget. by rewrite assoc_get_set_ne.
  - destruct Hform as [->| [c ->]]; [done|].
    unfold jget. by rewrite assoc_get_set_ne.
Qed.

Lemma stop_appends_event_and_response_witness :
  ∃ es' session_id num,
    length es' = 1 ∧
    jget "session_id" (built_event "evt_2" "Stop" 0 stop_input) = Some session_id ∧
    jget "agent_session_num" (built_event "evt_2" "Stop" 0 stop_input) = Some num ∧
    session_files
      (snd (process_event (example_env "evt_2") (str "Stop") stop_input
              (world_with_transcript [example_event "evt_1" "SessionStart"])))
      !! hook_session (example_env "evt_2") stop_input =
    Some (log_text
            (es' ++ [built_event "evt_2" "Stop" 0 stop_input;
                     response_event (example_env "evt_2") session_id num
                       (get_response (JStr (str "/t/s1.jsonl"))
                          (world_with_transcript
                             [example_event "evt_1" "SessionStart"]))])).
Proof.
  apply (stop_appends_event_and_response (example_env "evt_2") stop_input
           (world_with_transcript [example_event "evt_1" "SessionStart"])
           [example_event "evt_1" "SessionStart"] (JStr (str "/t/s1.jsonl"))).
  - intros ty data c Hc. discriminate Hc.
  - unfold stop_input. wf_literal.
  - repeat constructor; apply (bool_decide_unpack _); vm_compute; reflexivity.
  - reflexivity.
  - reflexivity.
  - reflexivity.
  - vm_compute. reflexivity.
  - vm_compute. reflexivity.
Defined.
